(** * staticx bootloader: ELF patching, archive byte source, exit translation

    A shallow embedding of [src/bootloader/main.c] (the non-DEBUG build, in
    which [debug_printf] expands to nothing) and the properties of it that
    the specification states.

    Conventions.
    - A mapped file is a list of bytes; a pointer into the mapping is the
      integer offset from its first byte ([ehdr] itself is offset 0).  Pointer
      arithmetic is that of the C abstract machine: offsets are unbounded
      integers, and an access outside [0, length) has no defined behaviour,
      which the model reports as the separate outcome [OutOfBounds].
    - [error(2, 0, ...)] prints and terminates the process with status 2;
      the model reports it as [Fatal 2].
    - Integers read from the file are little-endian unsigned values
      (ELF64, x86-64); [size_t] arithmetic wraps modulo 2^64. *)

From Stdlib Require Import String Ascii ZArith List Lia Bool ZifyBool.
Import ListNotations.
Local Open Scope Z_scope.

(** ** Outcomes of a run *)

Inductive result (A : Type) : Type :=
| Ok (a : A)
| Fatal (status : Z)
| OutOfBounds.
Arguments Ok {A} a.
Arguments Fatal {A} status.
Arguments OutOfBounds {A}.

Definition rbind {A B} (c : result A) (k : A -> result B) : result B :=
  match c with
  | Ok a => k a
  | Fatal s => Fatal s
  | OutOfBounds => OutOfBounds
  end.

Notation "'do' x <- c ; k" := (rbind c (fun x => k))
  (at level 10, x name, c at level 100, k at level 200).

(** ** The mapped image *)

Definition image := list Z.
Definition cstring := list Z.

Definition size (m : image) : Z := Z.of_nat (length m).

Definition byte_ok (b : Z) : bool := (0 <=? b) && (b <? 256).

(** A mapping holds bytes and is shorter than the address space. *)
Definition image_ok (m : image) : bool :=
  forallb byte_ok m && (size m <? 2 ^ 64).

(** The body of a C string holds no NUL. *)
Definition cstring_ok (s : cstring) : bool :=
  forallb (fun b => byte_ok b && negb (b =? 0)) s.

Definition bytes_of_string (s : string) : cstring :=
  map (fun c => Z.of_N (N_of_ascii c)) (list_ascii_of_string s).

Definition load8 (m : image) (a : Z) : result Z :=
  if a <? 0 then OutOfBounds
  else match nth_error m (Z.to_nat a) with
       | Some b => Ok b
       | None => OutOfBounds
       end.

(** [load n m a]: the [n]-byte little-endian unsigned integer at offset [a]. *)
Fixpoint load (n : nat) (m : image) (a : Z) : result Z :=
  match n with
  | O => Ok 0
  | S k => do b <- load8 m a; do r <- load k m (a + 1); Ok (b + 256 * r)
  end.

Definition ptr_add (p off : Z) : Z := p + off.

(** [strlen] on a string inside the mapping: scans to the first NUL. *)
Fixpoint strlen_from (l : list Z) : result Z :=
  match l with
  | [] => OutOfBounds
  | b :: r => if b =? 0 then Ok 0 else do n <- strlen_from r; Ok (n + 1)
  end.

Definition tail_at (m : image) (a : Z) : list Z :=
  if a <? 0 then [] else skipn (Z.to_nat a) m.

Definition strlen (m : image) (a : Z) : result Z := strlen_from (tail_at m a).

(** [strlen] on a caller's string (it lives outside the mapping). *)
Definition strlen_c (s : cstring) : Z := Z.of_nat (length s).

(** [strcmp(p, name) == 0] for [p] inside the mapping: bytes are compared in
    order and the scan stops at the first difference. *)
Fixpoint strcmp_from (l : list Z) (name : cstring) : result bool :=
  match l, name with
  | [], _ => OutOfBounds
  | b :: _, [] => Ok (b =? 0)
  | b :: r, c :: name' => if b =? c then strcmp_from r name' else Ok false
  end.

Definition strcmp_eq (m : image) (a : Z) (name : cstring) : result bool :=
  strcmp_from (tail_at m a) name.

(** Reading a string of the mapping back: the bytes before the first NUL. *)
Fixpoint cstring_from (l : list Z) : result cstring :=
  match l with
  | [] => OutOfBounds
  | b :: r => if b =? 0 then Ok [] else do s <- cstring_from r; Ok (b :: s)
  end.

Definition cstring_at (m : image) (a : Z) : result cstring :=
  cstring_from (tail_at m a).

(** ** Code that writes: state (the mapping) and outcome

    The mapping is shared with the file, so what was written before a fatal
    exit stays written: every outcome comes with the mapping as it then is. *)

Definition M (A : Type) : Type := image -> result A * image.

Definition ret {A} (a : A) : M A := fun m => (Ok a, m).
Definition error {A} (status : Z) : M A := fun m => (Fatal status, m).
Definition view {A} (f : image -> result A) : M A := fun m => (f m, m).

Definition bind {A B} (c : M A) (k : A -> M B) : M B :=
  fun m => match c m with
           | (Ok a, m') => k a m'
           | (Fatal s, m') => (Fatal s, m')
           | (OutOfBounds, m') => (OutOfBounds, m')
           end.

Notation "x <- c ;; k" := (bind c (fun x => k))
  (at level 61, c at next level, right associativity).

(** Writing [bs] at offset [a]; outside the mapping nothing is defined. *)
Definition store_bytes (a : Z) (bs : list Z) : M unit :=
  fun m =>
    if (0 <=? a) && (a + Z.of_nat (length bs) <=? size m)
    then (Ok tt, firstn (Z.to_nat a) m ++ bs ++ skipn (Z.to_nat a + length bs) m)
    else (OutOfBounds, m).

(** [strcpy(dst, src)]: the body of [src] and its terminating NUL. *)
Definition strcpy (dst : Z) (src : cstring) : M unit :=
  store_bytes dst (src ++ [0]).

(** A run that ended in [error(status, ...)]. *)
Definition fatal {A} (r : result A) : Prop :=
  match r with
  | Fatal _ => True
  | _ => False
  end.

(** [quiet c]: a run of [c] that ends in a fatal error has written
    nothing. *)
Definition quiet {A} (c : M A) : Prop :=
  forall m r m', c m = (r, m') -> fatal r -> m' = m.

(** ** ELF64 layout (<elf.h>) *)

Definition ELFMAG0 := 127.
Definition ELFMAG1 := 69.
Definition ELFMAG2 := 76.
Definition ELFMAG3 := 70.
Definition PT_INTERP := 3.
Definition DT_NULL := 0.
Definition DT_RPATH := 15.
Definition SHT_HIUSER := 2415919103.                        (* 0x8fffffff *)
Definition SHT_NOT_USED := (SHT_HIUSER + 1) mod 2 ^ 32.
Definition sizeof_Elf_Ehdr := 64.
Definition sizeof_Elf_Phdr := 56.
Definition sizeof_Elf_Shdr := 64.
Definition sizeof_Elf_Dyn := 16.

(** Fields of [Elf64_Ehdr] at [ehdr]. *)
Definition e_ident (ehdr : image) (i : Z) := load8 ehdr i.
Definition e_phoff (ehdr : image) := load 8 ehdr 32.
Definition e_shoff (ehdr : image) := load 8 ehdr 40.
Definition e_phentsize (ehdr : image) := load 2 ehdr 54.
Definition e_phnum (ehdr : image) := load 2 ehdr 56.
Definition e_shentsize (ehdr : image) := load 2 ehdr 58.
Definition e_shnum (ehdr : image) := load 2 ehdr 60.
Definition e_shstrndx (ehdr : image) := load 2 ehdr 62.

(** Fields of the [Elf64_Phdr] at offset [ph]. *)
Definition p_type (ehdr : image) (ph : Z) := load 4 ehdr ph.
Definition p_offset (ehdr : image) (ph : Z) := load 8 ehdr (ph + 8).
Definition p_filesz (ehdr : image) (ph : Z) := load 8 ehdr (ph + 32).

(** Fields of the [Elf64_Shdr] at offset [sh]. *)
Definition sh_name (ehdr : image) (sh : Z) := load 4 ehdr sh.
Definition sh_type (ehdr : image) (sh : Z) := load 4 ehdr (sh + 4).
Definition sh_offset (ehdr : image) (sh : Z) := load 8 ehdr (sh + 24).
Definition sh_size (ehdr : image) (sh : Z) := load 8 ehdr (sh + 32).

(** Fields of the [Elf64_Dyn] at offset [dt]. *)
Definition d_tag (ehdr : image) (dt : Z) := load 8 ehdr dt.
Definition d_val (ehdr : image) (dt : Z) := load 8 ehdr (dt + 8).

Definition elf_is_valid (ehdr : image) : result bool :=
  do m0 <- e_ident ehdr 0;
  if negb (m0 =? ELFMAG0) then Ok false else
  do m1 <- e_ident ehdr 1;
  if negb (m1 =? ELFMAG1) then Ok false else
  do m2 <- e_ident ehdr 2;
  if negb (m2 =? ELFMAG2) then Ok false else
  do m3 <- e_ident ehdr 3;
  Ok (m3 =? ELFMAG3).

(** The [for] loop of [elf_get_proghdr_by_type]: [ph] is [&phdr_table[i]],
    [n] the iterations left ([e_phnum - i]; the image is not written while
    the loop runs, so [e_phnum] is the same at every test). *)
Fixpoint proghdr_scan (ehdr : image) (ptype : Z) (ph : Z) (n : nat)
  : result (option Z) :=
  match n with
  | O => Ok None
  | S k =>
      do t <- p_type ehdr ph;
      if t =? ptype then Ok (Some ph)
      else proghdr_scan ehdr ptype (ph + sizeof_Elf_Phdr) k
  end.

Definition elf_get_proghdr_by_type (ehdr : image) (ptype : Z)
  : result (option Z) :=
  do phoff <- e_phoff ehdr;
  let phdr_table := ptr_add 0 phoff in
  do phentsize <- e_phentsize ehdr;
  if negb (phentsize =? sizeof_Elf_Phdr) then Fatal 2 else
  do phnum <- e_phnum ehdr;
  proghdr_scan ehdr ptype phdr_table (Z.to_nat phnum).

(** The [for] loop of [elf_get_section]: [sh] is [&shdr_table[i]]. *)
Fixpoint section_scan (ehdr : image) (lookup_name : option cstring)
  (lookup_type : Z) (strtab : Z) (sh : Z) (n : nat) : result (option Z) :=
  match n with
  | O => Ok None
  | S k =>
      do nm <- sh_name ehdr sh;
      let name := strtab + nm in
      do by_name <-
        match lookup_name with
        | Some l => strcmp_eq ehdr name l
        | None => Ok false
        end;
      if by_name then Ok (Some sh) else
      do by_type <-
        (if negb (lookup_type =? SHT_NOT_USED)
         then do t <- sh_type ehdr sh; Ok (t =? lookup_type)
         else Ok false);
      if by_type then Ok (Some sh)
      else section_scan ehdr lookup_name lookup_type strtab
             (sh + sizeof_Elf_Shdr) k
  end.

Definition elf_get_section (ehdr : image) (lookup_name : option cstring)
  (lookup_type : Z) : result (option Z) :=
  do shoff <- e_shoff ehdr;
  let shdr_table := ptr_add 0 shoff in
  do shstrndx <- e_shstrndx ehdr;
  let sh_strtab := shdr_table + sizeof_Elf_Shdr * shstrndx in
  do stroff <- sh_offset ehdr sh_strtab;
  let strtab := ptr_add 0 stroff in
  do shentsize <- e_shentsize ehdr;
  if negb (shentsize =? sizeof_Elf_Shdr) then Fatal 2 else
  do shnum <- e_shnum ehdr;
  section_scan ehdr lookup_name lookup_type strtab shdr_table (Z.to_nat shnum).

Definition elf_get_section_by_name (ehdr : image) (lookup_name : cstring)
  : result (option Z) :=
  elf_get_section ehdr (Some lookup_name) SHT_NOT_USED.

(** ** The patcher *)

(** [interp_size - 1] in [size_t]: the index [set_interp] tests for NUL. *)
Definition interp_last_index (interp_size : Z) : Z :=
  (interp_size - 1) mod 2 ^ 64.

(** [&p[i]] for a [char *p] and a [size_t i]: the address is computed in
    64 bits, so the index [2^64 - 1] names the byte before [p].  Offsets are
    counted from the start of the mapping, which is shorter than the address
    space: the address lies in the mapping exactly when this offset does. *)
Definition index_addr (p i : Z) : Z := (p + i) mod 2 ^ 64.

Definition set_interp (new_interp : cstring) : M unit :=
  ph <- view (fun ehdr => elf_get_proghdr_by_type ehdr PT_INTERP) ;;
  match ph with
  | None => error 2
  | Some ph =>
      off <- view (fun ehdr => p_offset ehdr ph) ;;
      let interp := ptr_add 0 off in
      interp_size <- view (fun ehdr => p_filesz ehdr ph) ;;
      last <- view (fun ehdr =>
                      load8 ehdr
                        (index_addr interp (interp_last_index interp_size))) ;;
      if negb (last =? 0) then error 2 else
      if strlen_c new_interp >? interp_last_index interp_size then error 2
      else strcpy interp new_interp
  end.

(** The [for] loop over the dynamic table in [set_rpath]: [i] is the index
    of the entry about to be read, [n] the iterations left ([ndyn - i]),
    [dt_rpath] the variable of that name. *)
Fixpoint dyn_scan (ehdr : image) (dyn_table : Z) (i : Z) (n : nat)
  (dt_rpath : option Z) : result (option Z) :=
  match n with
  | O => Ok dt_rpath
  | S k =>
      let dt := dyn_table + sizeof_Elf_Dyn * i in
      do tag <- d_tag ehdr dt;
      if tag =? DT_NULL then Ok dt_rpath
      else if tag =? DT_RPATH then dyn_scan ehdr dyn_table (i + 1) k (Some dt)
      else dyn_scan ehdr dyn_table (i + 1) k dt_rpath
  end.

Definition dot_dynamic : cstring := bytes_of_string ".dynamic".
Definition dot_dynstr : cstring := bytes_of_string ".dynstr".

(** [set_rpath] from "Find needed dynamic tags" on, the two sections being
    located: the walk of the table, the checks and the write. *)
Definition set_rpath_in (dyn_table ndyn dynstrtab dynstrsz : Z)
  (new_rpath : cstring) : M unit :=
  dt_rpath <- view (fun ehdr =>
                      dyn_scan ehdr dyn_table 0 (Z.to_nat ndyn) None) ;;
  match dt_rpath with
  | None => error 2
  | Some dt_rpath =>
      val <- view (fun ehdr => d_val ehdr dt_rpath) ;;
      if val >? dynstrsz then error 2 else
      let rpath := ptr_add dynstrtab val in
      old_len <- view (fun ehdr => strlen ehdr rpath) ;;
      if strlen_c new_rpath >? old_len then error 2
      else strcpy rpath new_rpath
  end.

Definition set_rpath (new_rpath : cstring) : M unit :=
  dyn_sh <- view (fun ehdr => elf_get_section_by_name ehdr dot_dynamic) ;;
  match dyn_sh with
  | None => error 2
  | Some dyn_sh =>
      dynoff <- view (fun ehdr => sh_offset ehdr dyn_sh) ;;
      let dyn_table := ptr_add 0 dynoff in
      dynsize <- view (fun ehdr => sh_size ehdr dyn_sh) ;;
      let ndyn := dynsize / sizeof_Elf_Dyn in
      dynstr_sh <- view (fun ehdr => elf_get_section_by_name ehdr dot_dynstr) ;;
      match dynstr_sh with
      | None => error 2
      | Some dynstr_sh =>
          stroff <- view (fun ehdr => sh_offset ehdr dynstr_sh) ;;
          let dynstrtab := ptr_add 0 stroff in
          dynstrsz <- view (fun ehdr => sh_size ehdr dynstr_sh) ;;
          set_rpath_in dyn_table ndyn dynstrtab dynstrsz new_rpath
      end
  end.

(** The image has a .dynamic section at [dynoff] of [dynsize] bytes and a
    .dynstr section at [stroff] of [strsz] bytes, as [set_rpath] finds
    them. *)
Definition dynamic_sections (ehdr : image) (dynoff dynsize stroff strsz : Z)
  : Prop :=
  exists dyn_sh dynstr_sh,
    elf_get_section_by_name ehdr dot_dynamic = Ok (Some dyn_sh)
    /\ sh_offset ehdr dyn_sh = Ok dynoff
    /\ sh_size ehdr dyn_sh = Ok dynsize
    /\ elf_get_section_by_name ehdr dot_dynstr = Ok (Some dynstr_sh)
    /\ sh_offset ehdr dynstr_sh = Ok stroff
    /\ sh_size ehdr dynstr_sh = Ok strsz.

(** [patch_prog_paths] on the mapping of the program ([mmap_file] and
    [unmap_file] are outside this file). *)
Definition patch_prog_paths (new_interp new_rpath : cstring) : M unit :=
  valid <- view elf_is_valid ;;
  if negb valid then error 2 else
  _ <- set_interp new_interp ;;
  set_rpath new_rpath.

(** ** Concrete ELF64 images

    [mk_image] lays out a small dynamically linked program: the ELF header,
    one program header (PT_INTERP), four section headers (null, .shstrtab,
    .dynamic, .dynstr), then the data of .shstrtab, the interpreter field,
    the dynamic table and the dynamic string table, then [trailer]. *)

Fixpoint le (n : nat) (v : Z) : list Z :=
  match n with
  | O => []
  | S k => v mod 256 :: le k (v / 256)
  end.

Definition cstr (s : string) : list Z := bytes_of_string s ++ [0].

Definition mk_ehdr (phoff shoff phnum shnum shstrndx : Z) : list Z :=
  [ELFMAG0; ELFMAG1; ELFMAG2; ELFMAG3; 2; 1; 1; 0] ++ repeat 0 8%nat
  ++ le 2 2 ++ le 2 62 ++ le 4 1 ++ le 8 0
  ++ le 8 phoff ++ le 8 shoff ++ le 4 0
  ++ le 2 sizeof_Elf_Ehdr ++ le 2 sizeof_Elf_Phdr ++ le 2 phnum
  ++ le 2 sizeof_Elf_Shdr ++ le 2 shnum ++ le 2 shstrndx.

Definition mk_phdr (type offset filesz : Z) : list Z :=
  le 4 type ++ le 4 4 ++ le 8 offset ++ le 8 0 ++ le 8 0
  ++ le 8 filesz ++ le 8 filesz ++ le 8 1.

Definition mk_shdr (name type offset sz : Z) : list Z :=
  le 4 name ++ le 4 type ++ le 8 0 ++ le 8 0 ++ le 8 offset ++ le 8 sz
  ++ le 4 0 ++ le 4 0 ++ le 8 1 ++ le 8 0.

Definition mk_dyn (e : Z * Z) : list Z := le 8 (fst e) ++ le 8 (snd e).

Definition shstrtab_data : list Z :=
  [0] ++ cstr ".shstrtab" ++ cstr ".dynamic" ++ cstr ".dynstr".

Definition mk_image (interp_field : list Z) (dyn : list (Z * Z))
  (dynstr trailer : list Z) : image :=
  let phoff := 64 in
  let shoff := 120 in
  let shstr_off := 376 in
  let interp_off := 404 in
  let dyn_off := interp_off + Z.of_nat (length interp_field) in
  let dyn_size := 16 * Z.of_nat (length dyn) in
  let dynstr_off := dyn_off + dyn_size in
  mk_ehdr phoff shoff 1 4 1
  ++ mk_phdr PT_INTERP interp_off (Z.of_nat (length interp_field))
  ++ mk_shdr 0 0 0 0
  ++ mk_shdr 1 3 shstr_off 28
  ++ mk_shdr 11 6 dyn_off dyn_size
  ++ mk_shdr 20 3 dynstr_off (Z.of_nat (length dynstr))
  ++ shstrtab_data
  ++ interp_field
  ++ concat (map mk_dyn dyn)
  ++ dynstr
  ++ trailer.

(** A program built with placeholders: 16 bytes reserved for the
    interpreter, 8 for the rpath. *)
Definition target_image : image :=
  mk_image (cstr "/placeholder/ld")
           [(1, 1); (DT_RPATH, 6); (DT_NULL, 0)]
           ([0] ++ cstr "libc" ++ cstr "/RPATH__")
           [].

(** A target whose PT_INTERP segment is empty. *)
Definition empty_interp_image : image :=
  mk_image [] [(DT_RPATH, 1); (DT_NULL, 0)] ([0] ++ cstr "/RPATH__") [].

(** A target whose DT_RPATH value is the size of .dynstr (6): the string it
    names starts at the first byte after the table, in [trailer]. *)
Definition rpath_at_end_image : image :=
  mk_image (cstr "/placeholder/ld")
           [(DT_RPATH, 6); (DT_NULL, 0)]
           ([0] ++ cstr "libc")
           (cstr "TRAILER!").

(** A target whose only DT_RPATH entry comes after the terminating
    DT_NULL. *)
Definition rpath_after_null_image : image :=
  mk_image (cstr "/placeholder/ld")
           [(1, 1); (DT_NULL, 0); (DT_RPATH, 6)]
           ([0] ++ cstr "libc" ++ cstr "/RPATH__")
           [].

(** A file of 64 bytes: an ELF header alone, whose tables (one program
    header at 4096, one section header at 8192) lie beyond its end. *)
Definition header_only_image : image := mk_ehdr 4096 8192 1 1 0.

(** [target_image] with entry sizes that are not those of the structures:
    [e_phentsize = 32] and [e_shentsize = 40]. *)
Definition wrong_entsize_image : image :=
  firstn 54 target_image ++ le 2 32 ++ firstn 2 (skipn 56 target_image)
  ++ le 2 40 ++ skipn 60 target_image.

(** A target whose .dynamic section header gives a size (1600 bytes, a
    hundred entries) that runs beyond the end of the file; the table itself
    has three entries, the last of them DT_NULL. *)
Definition oversized_dynamic_image : image :=
  mk_ehdr 64 120 1 4 1
  ++ mk_phdr PT_INTERP 404 16
  ++ mk_shdr 0 0 0 0
  ++ mk_shdr 1 3 376 28
  ++ mk_shdr 11 6 420 1600
  ++ mk_shdr 20 3 468 15
  ++ shstrtab_data
  ++ cstr "/placeholder/ld"
  ++ concat (map mk_dyn [(1, 1); (DT_RPATH, 6); (DT_NULL, 0)])
  ++ [0] ++ cstr "libc" ++ cstr "/RPATH__".

(** A target whose .dynamic section header gives an offset (65536) beyond
    the end of the file. *)
Definition dynamic_beyond_image : image :=
  mk_ehdr 64 120 1 4 1
  ++ mk_phdr PT_INTERP 404 16
  ++ mk_shdr 0 0 0 0
  ++ mk_shdr 1 3 376 28
  ++ mk_shdr 11 6 65536 32
  ++ mk_shdr 20 3 420 15
  ++ shstrtab_data
  ++ cstr "/placeholder/ld"
  ++ [0] ++ cstr "libc" ++ cstr "/RPATH__".

(** Strings the launcher substitutes: paths under its temporary directory. *)
Definition short_interp : cstring := bytes_of_string "/tmp/x/ld".
Definition short_rpath : cstring := bytes_of_string "/tmp/x".
Definition long_rpath : cstring := bytes_of_string "/tmp/staticx-AbCdEf".

(** ** The dynamic table, as the specification words it

    [first_null tag i n]: the index at which a walk of [n] entries from
    index [i] ends, the first entry whose tag is [DT_NULL] or else the end
    of the table.  [last_rpath tag stop]: the last entry before [stop]
    whose tag is [DT_RPATH], searched downwards from [stop]. *)

Fixpoint first_null (tag : Z -> Z) (i : Z) (n : nat) : Z :=
  match n with
  | O => i
  | S k => if tag i =? DT_NULL then i else first_null tag (i + 1) k
  end.

Fixpoint last_rpath (tag : Z -> Z) (stop : nat) : option Z :=
  match stop with
  | O => None
  | S k => if tag (Z.of_nat k) =? DT_RPATH then Some (Z.of_nat k)
           else last_rpath tag k
  end.

Definition dyn_entry (dyn_table : Z) (i : Z) : Z :=
  dyn_table + sizeof_Elf_Dyn * i.

(** The tag of entry [i], where it can be read. *)
Definition tag_at (ehdr : image) (dyn_table : Z) (i : Z) : Z :=
  match d_tag ehdr (dyn_entry dyn_table i) with
  | Ok t => t
  | _ => DT_NULL
  end.

(** ** The decompression adapter

    [xz_dec_run] and [struct xz_dec] belong to the xz library and are taken
    as parameters.  [xz_buf] is the library's buffer descriptor; [out_buf]
    is the caller's whole buffer, of which the decoder has filled the first
    [out_pos] bytes. *)

Inductive xz_ret : Type :=
| XZ_OK | XZ_STREAM_END | XZ_UNSUPPORTED_CHECK | XZ_MEM_ERROR
| XZ_MEMLIMIT_ERROR | XZ_FORMAT_ERROR | XZ_OPTIONS_ERROR | XZ_DATA_ERROR
| XZ_BUF_ERROR.

Record xz_buf : Type := mk_xz_buf {
  in_buf : list Z;
  in_pos : Z;
  in_size : Z;
  out_buf : list Z;
  out_pos : Z;
  out_size : Z
}.

(** The first three assignments of [xz_read]. *)
Definition set_out (b : xz_buf) (buf : list Z) (len : Z) : xz_buf :=
  {| in_buf := in_buf b; in_pos := in_pos b; in_size := in_size b;
     out_buf := buf; out_pos := 0; out_size := len |}.

(** [size_t] to [ssize_t], the conversion at [return len]. *)
Definition ssize_of (len : Z) : Z :=
  if len mod 2 ^ 64 <? 2 ^ 63 then len mod 2 ^ 64 else len mod 2 ^ 64 - 2 ^ 64.

(** How a sequence of pulls ends: at end of file, by a fatal exit, or with
    every request served. *)
Inductive pull_stop : Type :=
| AtEof
| Failed (status : Z)
| Served.

Section XzAdapter.

Variable xz_dec : Type.
Variable xz_dec_run : xz_dec -> xz_buf -> xz_ret * xz_dec * xz_buf.

(** The globals [m_xzdec] and [m_xzbuf]. *)
Record xz_state : Type := mk_xz_state {
  m_xzdec : xz_dec;
  m_xzbuf : xz_buf
}.

(** The [while] loop of [xz_read].  The loop has no bound of its own:
    [fuel] counts the iterations allowed, and [None] is a run that needs
    more. *)
Fixpoint xz_read_loop (fuel : nat) (len : Z) (s : xz_state)
  : option (result Z * xz_state) :=
  match fuel with
  | O => None
  | S fuel' =>
      if negb (out_pos (m_xzbuf s) =? out_size (m_xzbuf s)) then
        match xz_dec_run (m_xzdec s) (m_xzbuf s) with
        | (XZ_OK, d, b) => xz_read_loop fuel' len (mk_xz_state d b)
        | (XZ_STREAM_END, d, b) => Some (Ok 0, mk_xz_state d b)
        | (_, d, b) => Some (Fatal 2, mk_xz_state d b)
        end
      else Some (Ok (ssize_of len), s)
  end.

(** The state in which [xz_read] enters its loop. *)
Definition entered (s : xz_state) (buf : list Z) (len : Z) : xz_state :=
  mk_xz_state (m_xzdec s) (set_out (m_xzbuf s) buf len).

Definition xz_read (fuel : nat) (buf : list Z) (len : Z) (s : xz_state)
  : option (result Z * xz_state) :=
  xz_read_loop fuel len (entered s buf len).

(** What the last call left in the caller's buffer. *)
Definition emitted (s : xz_state) : list Z :=
  firstn (Z.to_nat (out_pos (m_xzbuf s))) (out_buf (m_xzbuf s)).

(** A caller that pulls: one [xz_read] per buffer of [reqs], taking the
    whole buffer when the call returns its length and stopping at the
    first call that returns 0 (end of file) or fails. *)
Fixpoint pull_all (fuel : nat) (reqs : list (list Z)) (s : xz_state)
  : option (list Z * pull_stop * xz_state) :=
  match reqs with
  | [] => Some ([], Served, s)
  | buf :: reqs' =>
      match xz_read fuel buf (size buf) s with
      | None => None
      | Some (Ok n, s') =>
          if n =? 0 then Some ([], AtEof, s')
          else match pull_all fuel reqs' s' with
               | None => None
               | Some (got, stop, s'') =>
                   Some (firstn (Z.to_nat n) (out_buf (m_xzbuf s')) ++ got,
                         stop, s'')
               end
      | Some (Fatal st, s') => Some ([], Failed st, s')
      | Some (OutOfBounds, s') => Some ([], Failed 2, s')
      end
  end.

(** The decoder calls of one [xz_read]: [fed s s'] when the loop, entered
    in [s], reaches [s'] through calls that all returned [XZ_OK]. *)
Inductive fed : xz_state -> xz_state -> Prop :=
| fed_refl s : fed s s
| fed_step s d b s' :
    out_pos (m_xzbuf s) <> out_size (m_xzbuf s) ->
    xz_dec_run (m_xzdec s) (m_xzbuf s) = (XZ_OK, d, b) ->
    fed (mk_xz_state d b) s' ->
    fed s s'.

End XzAdapter.

Arguments m_xzdec {xz_dec} _.
Arguments m_xzbuf {xz_dec} _.
Arguments mk_xz_state {xz_dec} _ _.
Arguments emitted {xz_dec} _.
Arguments entered {xz_dec} _ _ _.

(** The stream a decoder is in the middle of: [pending d b] stands for the
    decompressed bytes that the decoder in state [d], with the input left in
    [b], has still to emit.  [stream_inv pending D s]: within one [xz_read],
    what the caller's buffer holds so far followed by what is pending is
    [D], and the buffer's bounds are kept. *)
Definition stream_inv {xz_dec : Type} (pending : xz_dec -> xz_buf -> list Z)
  (D : list Z) (s : xz_state xz_dec) : Prop :=
  0 <= out_pos (m_xzbuf s) <= out_size (m_xzbuf s)
  /\ out_size (m_xzbuf s) = size (out_buf (m_xzbuf s))
  /\ D = emitted s ++ pending (m_xzdec s) (m_xzbuf s).

(** What the library promises of a call of [xz_dec_run]: it appends to the
    output, within the buffer's bounds, the next bytes [e] of the stream, and
    signals the end of the stream when nothing is pending any more. *)
Definition emits_stream {xz_dec : Type}
  (xz_dec_run : xz_dec -> xz_buf -> xz_ret * xz_dec * xz_buf)
  (pending : xz_dec -> xz_buf -> list Z) : Prop :=
  forall d b xr d' b',
    xz_dec_run d b = (xr, d', b') ->
    0 <= out_pos b <= out_size b ->
    out_size b = size (out_buf b) ->
    exists e,
      pending d b = e ++ pending d' b'
      /\ out_pos b' = out_pos b + size e
      /\ out_pos b' <= out_size b
      /\ out_size b' = out_size b
      /\ out_buf b' = firstn (Z.to_nat (out_pos b)) (out_buf b) ++ e
                      ++ skipn (Z.to_nat (out_pos b) + length e) (out_buf b)
      /\ (xr = XZ_STREAM_END -> pending d' b' = []).

(** A decoder for stored data, for running the adapter: the stream is the
    input as it is.  A call copies as much of the input left as fits the
    output, and signals the end of the stream once no input is left. *)
Definition stored_pending (d : unit) (b : xz_buf) : list Z :=
  firstn (Z.to_nat (in_size b - in_pos b)) (tail_at (in_buf b) (in_pos b)).

Definition stored_run (d : unit) (b : xz_buf) : xz_ret * unit * xz_buf :=
  let avail := stored_pending d b in
  let room := Z.to_nat (out_size b - out_pos b) in
  let e := firstn room avail in
  let b' := {| in_buf := in_buf b;
               in_pos := in_pos b + size e;
               in_size := in_size b;
               out_buf := firstn (Z.to_nat (out_pos b)) (out_buf b) ++ e
                          ++ skipn (Z.to_nat (out_pos b) + length e) (out_buf b);
               out_pos := out_pos b + size e;
               out_size := out_size b |} in
  (if (length e =? length avail)%nat then XZ_STREAM_END else XZ_OK, d, b').

Definition stored_start (input : list Z) : xz_state unit :=
  mk_xz_state tt
    {| in_buf := input; in_pos := 0; in_size := size input;
       out_buf := []; out_pos := 0; out_size := 0 |}.

(** The stored stream 1, 2, 3, 4, 5 and one that is the single byte 5. *)
Definition stored_five : xz_state unit := stored_start [1; 2; 3; 4; 5].
Definition stored_one : xz_state unit := stored_start [5].

(** A measure of what the stored decoder has left to do. *)
Definition stored_mu (d : unit) (b : xz_buf) : nat :=
  length (stored_pending d b).

(** ** Exit translation at the end of [main] *)

(** <sys/wait.h>, as glibc defines them on Linux. *)
Definition WTERMSIG (status : Z) : Z := Z.land status 127.
Definition WEXITSTATUS (status : Z) : Z := Z.shiftr (Z.land status 65280) 8.
Definition WIFEXITED (status : Z) : bool := WTERMSIG status =? 0.
Definition signed_char (v : Z) : Z :=
  if v mod 256 <? 128 then v mod 256 else v mod 256 - 256.
Definition WIFSIGNALED (status : Z) : bool :=
  Z.shiftr (signed_char (Z.land status 127 + 1)) 1 >? 0.

(** How the launcher ends. *)
Inductive termination : Type :=
| Exited (code : Z)
| Signaled (sig : Z).

Section ExitTranslation.

(** [raise(sig)] ends the launcher when [sig] is delivered with a
    terminating action, and returns otherwise (the signal is ignored or
    blocked, or its default action does not terminate). *)
Variable raise_terminates : Z -> bool.

(** [main] from "Did child exit normally?": the signals raised, in order,
    and the way the launcher ends. *)
Definition main_exit (wstatus : Z) : list Z * termination :=
  if WIFEXITED wstatus then
    let code := WEXITSTATUS wstatus in ([], Exited code)
  else if WIFSIGNALED wstatus then
    let sig := WTERMSIG wstatus in
    if raise_terminates sig then ([sig], Signaled sig)
    else ([sig], Exited 2)
  else ([], Exited 2).

End ExitTranslation.

(** ** Names the launcher uses *)

Definition ARCHIVE_SECTION : cstring := bytes_of_string ".staticx.archive".
Definition INTERP_FILENAME : cstring := bytes_of_string ".staticx.interp".
Definition PROG_FILENAME : cstring := bytes_of_string ".staticx.prog".

(** ** Paths

    [asprintf] and [mkdtemp] belong to the C library.  Whether [asprintf]
    finds memory is the argument [asprintf_ok].  [mkdtemp] either fails or
    replaces the six X of the template, in place, by six characters of its
    choice ([suffix]) and returns the template. *)

Definition path_join (asprintf_ok : bool) (p1 p2 : cstring) : result cstring :=
  if asprintf_ok then Ok (p1 ++ bytes_of_string "/" ++ p2) else Fatal 2.

Definition tmpdir_template : cstring := bytes_of_string "/tmp/staticx-XXXXXX".

Definition mkdtemp (suffix : option cstring) (template : cstring)
  : option cstring :=
  match suffix with
  | Some sfx => Some (firstn (length template - 6) template ++ sfx)
  | None => None
  end.

Definition create_tmpdir (suffix : option cstring) : result cstring :=
  match mkdtemp suffix tmpdir_template with
  | Some tmpdir => Ok tmpdir
  | None => Fatal 2
  end.

(** [patch_app] on the mapping of the program at [prog_path]; [m_homedir]
    is the global of that name. *)
Definition patch_app (asprintf_ok : bool) (m_homedir : cstring) : M unit :=
  match path_join asprintf_ok m_homedir INTERP_FILENAME with
  | Ok interp_path =>
      let new_rpath := m_homedir in
      patch_prog_paths interp_path new_rpath
  | Fatal s => error s
  | OutOfBounds => fun m => (OutOfBounds, m)
  end.

(** ** The archive's byte source

    [extract_archive] up to the assignment of [m_xzbuf]: the self image is
    checked, the archive section is looked up by name, and the decoder's
    input is the [sh_size] bytes at [sh_offset].  [in_buf] is what the
    pointer [tarxz_data] leads to, the mapping from that offset on; the
    output fields are zero. *)
Definition archive_source (ehdr : image) : result xz_buf :=
  do valid <- elf_is_valid ehdr;
  if negb valid then Fatal 2 else
  do shdr <- elf_get_section_by_name ehdr ARCHIVE_SECTION;
  match shdr with
  | None => Fatal 2
  | Some shdr =>
      do tarxz_size <- sh_size ehdr shdr;
      do off <- sh_offset ehdr shdr;
      let tarxz_data := ptr_add 0 off in
      Ok {| in_buf := tail_at ehdr tarxz_data; in_pos := 0;
            in_size := tarxz_size;
            out_buf := []; out_pos := 0; out_size := 0 |}
  end.

(** The compressed bytes a decoder may read: [in_size - in_pos] bytes from
    [in_pos], as far as the buffer has them. *)
Definition input_left (b : xz_buf) : list Z :=
  firstn (Z.to_nat (in_size b - in_pos b)) (tail_at (in_buf b) (in_pos b)).

(** ** Opening and closing the decoder

    [m_xzdec] is a pointer that may be NULL.  [xz_dec_init] either fails
    (NULL) or gives a decoder; [xz_dec_end] releases one, and [ended] lists
    the decoders it was called on, the latest first. *)

Definition XZ_FAKE_FD := 42.

Section XzOpenClose.

Variable xz_dec : Type.

Record xz_slot : Type := mk_xz_slot {
  slot_dec : option xz_dec;
  ended : list xz_dec
}.

Definition xz_open (xz_dec_init : option xz_dec) (s : xz_slot)
  : result Z * xz_slot :=
  let s' := mk_xz_slot xz_dec_init (ended s) in
  match xz_dec_init with
  | None => (Fatal 2, s')
  | Some _ => (Ok XZ_FAKE_FD, s')
  end.

Definition xz_close (fd : Z) (s : xz_slot) : Z * xz_slot :=
  if negb (fd =? XZ_FAKE_FD) then (-1, s)
  else match slot_dec s with
       | Some d => (0, mk_xz_slot None (d :: ended s))
       | None => (0, s)
       end.

(** A use of the adapter by its caller: any sequence of opens (each with
    what [xz_dec_init] returns then) and closes. *)
Inductive xz_op : Type :=
| OpOpen (xz_dec_init : option xz_dec)
| OpClose (fd : Z).

Definition xz_apply (op : xz_op) (s : xz_slot) : option xz_slot :=
  match op with
  | OpOpen init =>
      match xz_open init s with
      | (Ok _, s') => Some s'
      | _ => None
      end
  | OpClose fd => Some (snd (xz_close fd s))
  end.

(** The sequence runs until an [xz_open] ends the process. *)
Fixpoint xz_ops (ops : list xz_op) (s : xz_slot) : xz_slot :=
  match ops with
  | [] => s
  | op :: ops' =>
      match xz_apply op s with
      | Some s' => xz_ops ops' s'
      | None => s
      end
  end.

(** The decoders [xz_dec_init] gives in the course of [ops]. *)
Fixpoint inits (ops : list xz_op) : list xz_dec :=
  match ops with
  | [] => []
  | OpOpen (Some d) :: ops' => d :: inits ops'
  | _ :: ops' => inits ops'
  end.

End XzOpenClose.

Arguments slot_dec {xz_dec} _.
Arguments ended {xz_dec} _.
Arguments mk_xz_slot {xz_dec} _ _.
Arguments OpOpen {xz_dec} _.
Arguments OpClose {xz_dec} _.

(** ** The child's arguments

    An argument vector is an array of pointers, [None] for NULL.  [calloc]
    is the C library's: [calloc_ok] tells whether it finds memory, and the
    array it gives holds [len] NULL pointers.  [make_argv] does not test
    its result. *)

Definition argv_t := list (option cstring).

Definition array_get (a : argv_t) (i : Z) : result (option cstring) :=
  if i <? 0 then OutOfBounds
  else match nth_error a (Z.to_nat i) with
       | Some p => Ok p
       | None => OutOfBounds
       end.

Definition array_set (a : argv_t) (i : Z) (p : option cstring)
  : result argv_t :=
  if (0 <=? i) && (i <? Z.of_nat (length a))
  then Ok (firstn (Z.to_nat i) a ++ p :: skipn (Z.to_nat i + 1) a)
  else OutOfBounds.

Definition calloc (calloc_ok : bool) (len : Z) : argv_t :=
  if calloc_ok then repeat None (Z.to_nat len) else [].

(** What [assert] leaves: the value, or the end of the process by
    [abort]. *)
Inductive asserted (A : Type) : Type :=
| Holds (a : A)
| AssertionFailed.
Arguments Holds {A} a.
Arguments AssertionFailed {A}.

(** The [for] loop of [make_argv]: [i] and [w] are the variables of these
    names, [n] the iterations left ([orig_argc - i]). *)
Fixpoint argv_copy (orig_argv : argv_t) (i : Z) (n : nat) (w : Z)
  (argv : argv_t) : result (Z * argv_t) :=
  match n with
  | O => Ok (w, argv)
  | S k =>
      do p <- array_get orig_argv i;
      do argv' <- array_set argv w p;
      argv_copy orig_argv (i + 1) k (w + 1) argv'
  end.

Definition make_argv (calloc_ok : bool) (orig_argc : Z) (orig_argv : argv_t)
  (argv0 : cstring) : result (asserted argv_t) :=
  let len := 1 + (orig_argc - 1) + 1 in
  let argv := calloc calloc_ok len in
  let w := 0 in
  do argv <- array_set argv w (Some argv0);
  let w := w + 1 in
  do wa <- argv_copy orig_argv 1 (Z.to_nat (orig_argc - 1)) w argv;
  let w := fst wa in
  do argv <- array_set (snd wa) w None;
  let w := w + 1 in
  if w =? len then Ok (Holds argv) else Ok AssertionFailed.

(** The loop of [run_app] that walks [new_argv] up to its NULL. *)
Fixpoint argv_walk (argv : argv_t) : result unit :=
  match argv with
  | [] => OutOfBounds
  | None :: _ => Ok tt
  | Some _ :: rest => argv_walk rest
  end.

(** ** Supervising the child

    The system calls of [run_app], in the order made, and the way it ends.
    What the system answers is given beforehand: [fork_pid] is the result
    of [fork] (0 in the child), [execv_ok] tells whether [execv] succeeds,
    [sigaction_ok] tells of each [sigaction] in turn whether it succeeds,
    and [waits] lists what the successive [waitpid] return, a status or an
    error number; a list that ends before a status comes is a child that
    has not ended yet. *)

Definition SIGINT := 2.
Definition SIGTERM := 15.
Definition EINTR := 4.

Inductive disposition : Type :=
| Forward            (* sig_handler *)
| Default            (* SIG_DFL *)
| Ignore.            (* SIG_IGN, as the launcher may inherit it *)

Inductive syscall : Type :=
| Fork
| Execv (path : option cstring) (argv : argv_t)
| Sigaction (signum : Z) (d : disposition)
| Waitpid (pid : Z)
| Kill (pid signum : Z).

Inductive wait_result : Type :=
| WaitStatus (wstatus : Z)
| WaitError (errno : Z).

Inductive run_end : Type :=
| Returns (wstatus : Z)   (* [return wstatus] *)
| Ends (status : Z)       (* [error(status, ...)] or [_exit(status)] *)
| Aborts                  (* [assert] *)
| Faults                  (* an access outside an array *)
| Replaced                (* [execv] succeeded: the process is the program *)
| Blocked.                (* in [waitpid], the child still running *)

(** The [while] loop around [waitpid]: the calls made and how it ends. *)
Fixpoint wait_child (child_pid : Z) (waits : list wait_result)
  : list syscall * run_end :=
  match waits with
  | [] => ([Waitpid child_pid], Blocked)
  | WaitStatus wstatus :: _ => ([Waitpid child_pid], Returns wstatus)
  | WaitError errno :: waits' =>
      if errno =? EINTR then
        let (calls, r) := wait_child child_pid waits' in
        (Waitpid child_pid :: calls, r)
      else ([Waitpid child_pid], Ends 2)
  end.

(** [setup_sig_handler] and [restore_sig_handler]: the call, and whether
    the function returns. *)
Definition setup_sig_handler (ok : bool) (signum : Z) : syscall * bool :=
  (Sigaction signum Forward, ok).

Definition restore_sig_handler (ok : bool) (signum : Z) : syscall * bool :=
  (Sigaction signum Default, ok).

(** [run_app].  [int] arithmetic is taken without overflow: the number of
    arguments is far below 2^31. *)
Definition run_app (calloc_ok : bool) (argc : Z) (argv : argv_t)
  (prog_path : cstring) (fork_pid : Z) (execv_ok : bool)
  (sigaction_ok : nat -> bool) (waits : list wait_result)
  : list syscall * run_end :=
  match make_argv calloc_ok argc argv prog_path with
  | OutOfBounds => ([], Faults)
  | Fatal s => ([], Ends s)
  | Ok AssertionFailed => ([], Aborts)
  | Ok (Holds new_argv) =>
      match argv_walk new_argv with
      | Ok _ =>
          if fork_pid <? 0 then ([Fork], Ends 2)
          else if fork_pid =? 0 then
            match array_get new_argv 0 with
            | Ok path =>
                ([Fork; Execv path new_argv],
                 if execv_ok then Replaced else Ends 3)
            | _ => ([Fork], Faults)
            end
          else
            let (c1, ok1) := setup_sig_handler (sigaction_ok 0%nat) SIGINT in
            if negb ok1 then ([Fork; c1], Ends 2) else
            let (c2, ok2) := setup_sig_handler (sigaction_ok 1%nat) SIGTERM in
            if negb ok2 then ([Fork; c1; c2], Ends 2) else
            match wait_child fork_pid waits with
            | (cw, Returns wstatus) =>
                let (c3, ok3) :=
                  restore_sig_handler (sigaction_ok 2%nat) SIGINT in
                if negb ok3 then (Fork :: c1 :: c2 :: cw ++ [c3], Ends 2) else
                let (c4, ok4) :=
                  restore_sig_handler (sigaction_ok 3%nat) SIGTERM in
                if negb ok4 then (Fork :: c1 :: c2 :: cw ++ [c3; c4], Ends 2)
                else (Fork :: c1 :: c2 :: cw ++ [c3; c4], Returns wstatus)
            | (cw, e) => (Fork :: c1 :: c2 :: cw, e)
            end
      | _ => ([], Faults)
      end
  end.

(** [sig_handler]: [kill(child_pid, signum)], with the value the global
    [child_pid] has when the signal comes. *)
Definition sig_handler (child_pid : Z) (signum : Z) : syscall :=
  Kill child_pid signum.

(** The global [child_pid] and the dispositions of the two signals, as the
    statements of the parent in [run_app] set them. *)
Record supervisor : Type := mk_supervisor {
  child_pid : Z;
  on_sigint : disposition;
  on_sigterm : disposition
}.

Inductive parent_stmt : Type :=
| StForked (pid : Z)       (* child_pid = fork() *)
| StSetup (signum : Z)     (* setup_sig_handler(signum) *)
| StReaped                 (* the wait loop, then child_pid = 0 *)
| StRestore (signum : Z).  (* restore_sig_handler(signum) *)

Definition set_on (signum : Z) (d : disposition) (s : supervisor)
  : supervisor :=
  if signum =? SIGINT then mk_supervisor (child_pid s) d (on_sigterm s)
  else if signum =? SIGTERM then mk_supervisor (child_pid s) (on_sigint s) d
  else s.

Definition parent_step (st : parent_stmt) (s : supervisor) : supervisor :=
  match st with
  | StForked pid => mk_supervisor pid (on_sigint s) (on_sigterm s)
  | StSetup signum => set_on signum Forward s
  | StReaped => mk_supervisor 0 (on_sigint s) (on_sigterm s)
  | StRestore signum => set_on signum Default s
  end.

(** The statements of the parent in [run_app], in order. *)
Definition run_app_stmts (pid : Z) : list parent_stmt :=
  [StForked pid; StSetup SIGINT; StSetup SIGTERM; StReaped;
   StRestore SIGINT; StRestore SIGTERM].

(** The state after the first [k] statements, [start] being the state in
    which [run_app] is entered. *)
Definition supervisor_after (start : supervisor) (pid : Z) (k : nat)
  : supervisor :=
  fold_left (fun s st => parent_step st s) (firstn k (run_app_stmts pid))
    start.

(** A signal delivered in state [s]: the call the handler makes, or none
    (the signal is not handled by the launcher's code). *)
Definition deliver (s : supervisor) (signum : Z) : option syscall :=
  let d := if signum =? SIGINT then on_sigint s
           else if signum =? SIGTERM then on_sigterm s
           else Default in
  match d with
  | Forward => Some (sig_handler (child_pid s) signum)
  | _ => None
  end.

(** ** Words for the lookups *)

(** The section header at [sh] names, in the string table at [strtab], the
    string [name]. *)
Definition section_named (ehdr : image) (strtab sh : Z) (name : cstring)
  : Prop :=
  exists nm, sh_name ehdr sh = Ok nm
             /\ cstring_at ehdr (strtab + nm) = Ok name.

(** The section header at [sh] names a string that [strcmp] tells from
    [name]. *)
Definition section_not_named (ehdr : image) (strtab sh : Z) (name : cstring)
  : Prop :=
  exists nm, sh_name ehdr sh = Ok nm
             /\ strcmp_eq ehdr (strtab + nm) name = Ok false.

(** The decoder [m_xzdec] points to, if any. *)
Definition held {xz_dec : Type} (s : xz_slot xz_dec) : list xz_dec :=
  match slot_dec s with
  | Some d => [d]
  | None => []
  end.

(** [xz_dec_init] gives decoders that are new: those it will give in the
    course of [ops] differ from one another, from the one held and from
    those ended; and in [s] no decoder was ended twice or is held after its
    end. *)
Definition xz_fresh {xz_dec : Type} (ops : list (xz_op xz_dec))
  (s : xz_slot xz_dec) : Prop :=
  NoDup (inits xz_dec ops)
  /\ NoDup (ended s)
  /\ (forall d, In d (held s) -> ~ In d (ended s))
  /\ (forall d, In d (inits xz_dec ops) ->
                ~ In d (ended s) /\ ~ In d (held s)).

(** A launcher's own image: an ELF header, no program header, three
    section headers (null, .shstrtab, .staticx.archive), the section names
    and the archive's bytes [archive]. *)
Definition mk_self_image (archive : list Z) : image :=
  mk_ehdr 0 64 0 3 1
  ++ mk_shdr 0 0 0 0
  ++ mk_shdr 1 3 256 28
  ++ mk_shdr 11 1 284 (Z.of_nat (length archive))
  ++ ([0] ++ cstr ".shstrtab" ++ cstr ".staticx.archive")
  ++ archive.

Definition self_image : image := mk_self_image [1; 2; 3; 4; 5].

(** * Properties *)

(** ** The mapping: loads and stores *)

Section MemoryLemmas.

Lemma byte_ok_range b : byte_ok b = true -> 0 <= b < 256.
Proof. unfold byte_ok. lia. Qed.

Lemma load8_range m a b :
forallb byte_ok m = true -> load8 m a = Ok b -> 0 <= b < 256.
Proof.
unfold load8. intros Hm. destruct (a <? 0); [discriminate|].
destruct (nth_error m (Z.to_nat a)) eqn:E; [|discriminate].
intros [= <-]. apply byte_ok_range.
rewrite forallb_forall in Hm. apply Hm. eapply nth_error_In; eauto.
Qed.

Lemma load_S n m a :
load (S n) m a = do b <- load8 m a; do r <- load n m (a + 1); Ok (b + 256 * r).
Proof. reflexivity. Qed.

Lemma load_range n : forall m a v,
forallb byte_ok m = true -> load n m a = Ok v -> 0 <= v < 256 ^ Z.of_nat n.
Proof.
induction n as [|n IH]; intros m a v Hm.
- intros [= <-]. simpl. lia.
- rewrite load_S. unfold rbind. destruct (load8 m a) eqn:E8; try discriminate.
  destruct (load n m (a + 1)) eqn:En; try discriminate.
  intros Hv. apply load8_range in E8; auto. apply IH in En; auto.
  assert (v = a0 + 256 * a1) as -> by congruence.
  rewrite Nat2Z.inj_succ, Z.pow_succ_r by lia.
  remember (256 ^ Z.of_nat n) as P. lia.
Qed.

Lemma load8_inside m a : 0 <= a < size m -> exists b, load8 m a = Ok b.
Proof.
unfold load8, size. intros H. destruct (a <? 0) eqn:E; [lia|].
destruct (nth_error m (Z.to_nat a)) eqn:N; eauto.
apply nth_error_None in N. lia.
Qed.

Lemma load8_outside m a : a < 0 \/ size m <= a -> load8 m a = OutOfBounds.
Proof.
unfold load8, size. intros H. destruct (a <? 0) eqn:E; auto.
destruct (nth_error m (Z.to_nat a)) eqn:N; auto.
assert (nth_error m (Z.to_nat a) <> None) by congruence.
apply nth_error_Some in H0. lia.
Qed.

Lemma length_firstn_le {A} (l : list A) n :
(n <= length l)%nat -> length (firstn n l) = n.
Proof. intros H. rewrite length_firstn. apply Nat.min_l, H. Qed.

Lemma store_bytes_ok a bs m :
0 <= a -> a + Z.of_nat (length bs) <= size m ->
store_bytes a bs m =
(Ok tt, firstn (Z.to_nat a) m ++ bs ++ skipn (Z.to_nat a + length bs) m).
Proof.
intros Ha Hb. unfold store_bytes.
replace (0 <=? a) with true by lia.
replace (a + Z.of_nat (length bs) <=? size m) with true by lia. reflexivity.
Qed.

Lemma store_bytes_size a bs m r m' :
store_bytes a bs m = (r, m') -> size m' = size m.
Proof.
unfold store_bytes, size.
destruct ((0 <=? a) && (a + Z.of_nat (length bs) <=? Z.of_nat (length m))) eqn:E.
- apply andb_prop in E as [E1%Z.leb_le E2%Z.leb_le].
  intros [= _ <-]. rewrite !length_app, length_firstn_le, length_skipn; lia.
- intros [= _ <-]. reflexivity.
Qed.

Lemma store_bytes_tail a bs m m' :
store_bytes a bs m = (Ok tt, m') ->
tail_at m' a = bs ++ skipn (Z.to_nat a + length bs) m.
Proof.
unfold store_bytes, size, tail_at.
destruct ((0 <=? a) && (a + Z.of_nat (length bs) <=? Z.of_nat (length m))) eqn:E;
  [|discriminate].
apply andb_prop in E as [E1%Z.leb_le E2%Z.leb_le].
intros [= <-]. replace (a <? 0) with false by lia.
rewrite skipn_app, length_firstn_le by lia.
rewrite skipn_firstn_comm, Nat.sub_diag. reflexivity.
Qed.

Lemma store_bytes_other a bs m r m' x :
store_bytes a bs m = (r, m') ->
x < a \/ a + Z.of_nat (length bs) <= x ->
load8 m' x = load8 m x.
Proof.
unfold store_bytes, size.
destruct ((0 <=? a) && (a + Z.of_nat (length bs) <=? Z.of_nat (length m))) eqn:E;
  [|intros [= _ <-]; reflexivity].
apply andb_prop in E as [E1%Z.leb_le E2%Z.leb_le].
intros [= _ <-] Hx. unfold load8. destruct (x <? 0) eqn:Ex; auto.
destruct Hx as [Hx|Hx].
- rewrite nth_error_app1 by (rewrite length_firstn_le; lia).
  rewrite nth_error_firstn. replace (Z.to_nat x <? Z.to_nat a)%nat with true; auto.
  symmetry. apply Nat.ltb_lt. lia.
- rewrite nth_error_app2 by (rewrite length_firstn_le; lia).
  rewrite length_firstn_le by lia.
  rewrite nth_error_app2 by lia.
  rewrite nth_error_skipn.
  replace (Z.to_nat a + length bs + (Z.to_nat x - Z.to_nat a - length bs))%nat
    with (Z.to_nat x) by lia.
  reflexivity.
Qed.

Lemma cstring_from_app s rest :
cstring_ok s = true -> cstring_from (s ++ 0 :: rest) = Ok s.
Proof.
induction s as [|b s IH]; simpl; auto.
intros H. apply andb_prop in H as [Hb Hs]. apply andb_prop in Hb as [_ Hb].
destruct (b =? 0); [discriminate|]. rewrite IH; auto.
Qed.

End MemoryLemmas.

Lemma load_outside n m a :
  (0 < n)%nat -> a < 0 \/ size m <= a -> load n m a = OutOfBounds.
Proof.
  intros Hn Ha. destruct n as [|n]; [lia|].
  rewrite load_S, load8_outside by assumption. reflexivity.
Qed.

Lemma load_inside n : forall m a,
  0 <= a -> a + Z.of_nat n <= size m -> exists v, load n m a = Ok v.
Proof.
  induction n as [|n IH]; intros m a Ha Hb.
  - exists 0. reflexivity.
  - rewrite load_S. destruct (load8_inside m a) as [b ->]; [lia|].
    destruct (IH m (a + 1)) as [r ->]; [lia|lia|].
    simpl. eauto.
Qed.

(** What [view], [bind] and [error] compute. *)
Lemma bind_view {A B} (f : image -> result A) (k : A -> M B) m :
  bind (view f) k m =
  match f m with
  | Ok a => k a m
  | Fatal s => (Fatal s, m)
  | OutOfBounds => (OutOfBounds, m)
  end.
Proof. unfold bind, view. destruct (f m); reflexivity. Qed.

Lemma load8_ok_range m a b : load8 m a = Ok b -> 0 <= a < size m.
Proof.
  unfold load8, size. destruct (a <? 0) eqn:Ea; [discriminate|].
  destruct (nth_error m (Z.to_nat a)) eqn:En; [|discriminate].
  intros _. assert (nth_error m (Z.to_nat a) <> None) as Hn by congruence.
  apply nth_error_Some in Hn. lia.
Qed.

Lemma strlen_from_bound l : forall n,
  strlen_from l = Ok n -> 0 <= n < Z.of_nat (length l).
Proof.
  induction l as [|b r IH]; intros n; cbn [strlen_from length];
    [discriminate|].
  destruct (b =? 0).
  - intros [= <-]. lia.
  - destruct (strlen_from r) as [k| |]; cbn [rbind]; try discriminate.
    intros [= <-]. specialize (IH k eq_refl). lia.
Qed.

Lemma strlen_inside m a n :
  strlen m a = Ok n -> 0 <= a /\ 0 <= n /\ a + n < size m.
Proof.
  unfold strlen, tail_at, size. destruct (a <? 0) eqn:Ea; [discriminate|].
  intros H. apply strlen_from_bound in H. rewrite length_skipn in H. lia.
Qed.

(** ** [set_interp] *)

Lemma interp_last_index_small sz :
  1 <= sz <= 2 ^ 64 -> interp_last_index sz = sz - 1.
Proof. intros H. unfold interp_last_index. apply Z.mod_small. lia. Qed.

(** The address of an index that stays below the end of the address
    space, and the address of the index [2^64 - 1]. *)
Lemma index_addr_small p i : 0 <= p + i < 2 ^ 64 -> index_addr p i = p + i.
Proof. intros H. unfold index_addr. apply Z.mod_small. exact H. Qed.

Lemma index_addr_before p : 1 <= p <= 2 ^ 64 -> index_addr p (2 ^ 64 - 1) = p - 1.
Proof.
  intros H. unfold index_addr.
  replace (p + (2 ^ 64 - 1)) with (p - 1 + 1 * 2 ^ 64) by lia.
  rewrite Z.mod_add by lia. apply Z.mod_small. lia.
Qed.

(** [set_interp] past its lookups, [last] being the byte its NUL test
    reads: what is left is that test, the comparison of lengths and the
    copy. *)
Lemma set_interp_tested
  (ehdr : image) (new_interp : cstring) (ph off sz last : Z) :
  elf_get_proghdr_by_type ehdr PT_INTERP = Ok (Some ph) ->
  p_offset ehdr ph = Ok off ->
  p_filesz ehdr ph = Ok sz ->
  load8 ehdr (index_addr off (interp_last_index sz)) = Ok last ->
  set_interp new_interp ehdr
  = if negb (last =? 0) then (Fatal 2, ehdr)
    else if strlen_c new_interp >? interp_last_index sz then (Fatal 2, ehdr)
    else strcpy off new_interp ehdr.
Proof.
  intros Hph Hoff Hsz Hlast. unfold set_interp. rewrite bind_view, Hph.
  rewrite bind_view, Hoff. rewrite bind_view, Hsz.
  unfold ptr_add. change (0 + off) with off. rewrite bind_view, Hlast.
  destruct (negb (last =? 0)); [reflexivity|].
  destruct (strlen_c new_interp >? interp_last_index sz); reflexivity.
Qed.

(** With a segment of one byte or more, the last of them NUL. *)
Lemma set_interp_run (ehdr : image) (new_interp : cstring) (ph off sz : Z) :
  image_ok ehdr = true ->
  elf_get_proghdr_by_type ehdr PT_INTERP = Ok (Some ph) ->
  p_offset ehdr ph = Ok off ->
  p_filesz ehdr ph = Ok sz ->
  1 <= sz ->
  load8 ehdr (off + sz - 1) = Ok 0 ->
  0 <= off
  /\ set_interp new_interp ehdr
     = if strlen_c new_interp >? sz - 1 then (Fatal 2, ehdr)
       else strcpy off new_interp ehdr.
Proof.
  intros Hok Hph Hoff Hsz Hsz1 Hnul.
  apply andb_prop in Hok as [Hbytes Hsize].
  pose proof (load_range _ _ _ _ Hbytes Hoff) as Roff.
  pose proof (load_range _ _ _ _ Hbytes Hsz) as Rsz.
  pose proof (load8_ok_range _ _ _ Hnul) as Rnul.
  assert (interp_last_index sz = sz - 1) as Hidx.
  { apply interp_last_index_small. change (Z.of_nat 8) with 8 in Rsz. lia. }
  assert (index_addr off (sz - 1) = off + sz - 1) as Haddr.
  { rewrite index_addr_small by lia. lia. }
  split; [lia|].
  rewrite (set_interp_tested ehdr new_interp ph off sz 0 Hph Hoff Hsz).
  - rewrite Hidx. reflexivity.
  - rewrite Hidx, Haddr. exact Hnul.
Qed.

(** With a segment of no byte at all: the index is [2^64 - 1] and the byte
    tested is the one before the segment. *)
Lemma set_interp_run_empty (ehdr : image) (new_interp : cstring) (ph off : Z) :
  image_ok ehdr = true ->
  elf_get_proghdr_by_type ehdr PT_INTERP = Ok (Some ph) ->
  p_offset ehdr ph = Ok off ->
  p_filesz ehdr ph = Ok 0 ->
  (off = 0 -> set_interp new_interp ehdr = (OutOfBounds, ehdr))
  /\ (forall before,
        1 <= off -> load8 ehdr (off - 1) = Ok before ->
        strlen_c new_interp < 2 ^ 64 ->
        set_interp new_interp ehdr
        = if negb (before =? 0) then (Fatal 2, ehdr)
          else strcpy off new_interp ehdr).
Proof.
  intros Hok Hph Hoff Hsz.
  apply andb_prop in Hok as [Hbytes Hsize].
  pose proof (load_range _ _ _ _ Hbytes Hoff) as Roff.
  change (Z.of_nat 8) with 8 in Roff.
  split.
  - intros ->. unfold set_interp. rewrite bind_view, Hph.
    rewrite bind_view, Hoff. rewrite bind_view, Hsz.
    rewrite bind_view, load8_outside; [reflexivity|].
    right. change (index_addr (ptr_add 0 0) (interp_last_index 0))
             with (2 ^ 64 - 1).
    lia.
  - intros before Hoff1 Hbefore Hlen.
    rewrite (set_interp_tested ehdr new_interp ph off 0 before Hph Hoff Hsz).
    + change (interp_last_index 0) with (2 ^ 64 - 1).
      replace (strlen_c new_interp >? 2 ^ 64 - 1) with false by lia.
      reflexivity.
    + change (interp_last_index 0) with (2 ^ 64 - 1).
      rewrite index_addr_before by lia. exact Hbefore.
Qed.



(** C10. The byte [set_interp] tests for NUL is the one at index
    [p_filesz - 1], computed in [size_t], of the PT_INTERP segment, and no
    test of [p_filesz] comes before it.  For [p_filesz >= 1], the segment
    inside the mapping, the index lies within the segment and the byte there
    decides the run: not NUL, a fatal error with nothing written; NUL, the
    comparison of lengths and the copy.  For [p_filesz = 0] the index is
    [2^64 - 1], which no segment of that size holds: the byte tested is the
    one before the segment.  If that byte is NUL the comparison, against
    [2^64 - 1], cannot fail and the new path with its NUL is copied over
    what follows the empty segment; if it is not, the run ends fatally; and
    for a segment at the very start of the mapping the test reads before
    the mapping. *)
Theorem set_interp_nul_index
  (ehdr : image) (new_interp : cstring) (ph off sz : Z) :
  image_ok ehdr = true ->
  elf_get_proghdr_by_type ehdr PT_INTERP = Ok (Some ph) ->
  p_offset ehdr ph = Ok off ->
  p_filesz ehdr ph = Ok sz ->
  (1 <= sz -> off + sz <= size ehdr ->
   0 <= interp_last_index sz < sz
   /\ index_addr off (interp_last_index sz) = off + interp_last_index sz
   /\ exists last,
        load8 ehdr (off + interp_last_index sz) = Ok last
        /\ set_interp new_interp ehdr
           = if negb (last =? 0) then (Fatal 2, ehdr)
             else if strlen_c new_interp >? sz - 1 then (Fatal 2, ehdr)
             else strcpy off new_interp ehdr)
  /\ (sz = 0 ->
      interp_last_index sz = 2 ^ 64 - 1
      /\ (off = 0 -> set_interp new_interp ehdr = (OutOfBounds, ehdr))
      /\ (1 <= off <= size ehdr ->
          strlen_c new_interp < 2 ^ 64 ->
          index_addr off (interp_last_index sz) = off - 1
          /\ exists before,
               load8 ehdr (off - 1) = Ok before
               /\ set_interp new_interp ehdr
                  = if negb (before =? 0) then (Fatal 2, ehdr)
                    else strcpy off new_interp ehdr)).
Proof.
  intros Hok Hph Hoff Hsz.
  pose proof Hok as Hok'. apply andb_prop in Hok' as [Hbytes Hsize].
  pose proof (load_range _ _ _ _ Hbytes Hoff) as Roff.
  pose proof (load_range _ _ _ _ Hbytes Hsz) as Rsz.
  change (Z.of_nat 8) with 8 in Roff, Rsz.
  split.
  - intros Hsz1 Hin.
    assert (interp_last_index sz = sz - 1) as Hidx
      by (apply interp_last_index_small; lia).
    assert (index_addr off (sz - 1) = off + (sz - 1)) as Haddr
      by (apply index_addr_small; lia).
    rewrite Hidx. split; [lia|]. split; [exact Haddr|].
    destruct (load8_inside ehdr (off + (sz - 1))) as [last Hlast]; [lia|].
    exists last. split; [exact Hlast|].
    rewrite (set_interp_tested ehdr new_interp ph off sz last Hph Hoff Hsz).
    + rewrite Hidx. reflexivity.
    + rewrite Hidx, Haddr. exact Hlast.
  - intros ->.
    destruct (set_interp_run_empty ehdr new_interp ph off Hok Hph Hoff Hsz)
      as [Hzero Hrun].
    split; [reflexivity|]. split; [exact Hzero|].
    intros Hin Hlen. change (interp_last_index 0) with (2 ^ 64 - 1).
    split; [apply index_addr_before; lia|].
    destruct (load8_inside ehdr (off - 1)) as [before Hbefore]; [lia|].
    exists before. split; [exact Hbefore|].
    apply Hrun; [lia|exact Hbefore|exact Hlen].
Qed.

Lemma set_interp_nul_index_witness :
  p_filesz empty_interp_image 64 = Ok 0
  /\ load8 empty_interp_image 403 = Ok 0
  /\ set_interp short_interp empty_interp_image
     = strcpy 404 short_interp empty_interp_image
  /\ cstring_at (snd (set_interp short_interp empty_interp_image)) 404
     = Ok short_interp
  /\ exists last,
       load8 target_image (404 + interp_last_index 16) = Ok last
       /\ set_interp long_rpath target_image
          = if negb (last =? 0) then (Fatal 2, target_image)
            else if strlen_c long_rpath >? 16 - 1
                 then (Fatal 2, target_image)
                 else strcpy 404 long_rpath target_image.
Proof.
  destruct (set_interp_nul_index empty_interp_image short_interp 64 404 0)
    as [_ Hempty]; try reflexivity.
  destruct (Hempty eq_refl) as (_ & _ & Hbefore).
  destruct Hbefore as (_ & before & Hload & Hrun).
  { split; vm_compute; discriminate. }
  { vm_compute. reflexivity. }
  destruct (set_interp_nul_index target_image long_rpath 64 404 16)
    as [Hlast _]; try reflexivity.
  destruct Hlast as (_ & _ & Hlast).
  { vm_compute. discriminate. }
  { vm_compute. discriminate. }
  change (404 - 1) with 403 in Hload.
  assert (before = 0) as -> by (vm_compute in Hload; congruence).
  change (negb (0 =? 0)) with false in Hrun. cbv iota in Hrun.
  split; [reflexivity|]. split; [exact Hload|]. split; [exact Hrun|].
  split; [|exact Hlast].
  rewrite Hrun. reflexivity.
Defined.

(** ** Failures and the mapping *)

Lemma quiet_error {A} s : quiet (@error A s).
Proof. intros m r m' [= <- <-] _. reflexivity. Qed.

Lemma quiet_view_bind {A B} (f : image -> result A) (k : A -> M B) :
  (forall a, quiet (k a)) -> quiet (bind (view f) k).
Proof.
  intros Hk m r m'. rewrite bind_view. destruct (f m).
  - apply Hk.
  - intros [= <- <-] _. reflexivity.
  - intros [= <- <-] _. reflexivity.
Qed.

(** A store has no fatal exit. *)
Lemma quiet_store_bytes a bs : quiet (store_bytes a bs).
Proof.
  intros m r m'. unfold store_bytes.
  destruct ((0 <=? a) && (a + Z.of_nat (length bs) <=? size m));
    intros [= <- <-] [].
Qed.

Lemma set_interp_quiet new_interp : quiet (set_interp new_interp).
Proof.
  unfold set_interp. apply quiet_view_bind. intros [ph|]; [|apply quiet_error].
  do 3 (apply quiet_view_bind; intros ?).
  destruct (negb _); [apply quiet_error|].
  destruct (_ >? _); [apply quiet_error|apply quiet_store_bytes].
Qed.

Lemma set_rpath_in_quiet dyn_table ndyn dynstrtab dynstrsz new_rpath :
  quiet (set_rpath_in dyn_table ndyn dynstrtab dynstrsz new_rpath).
Proof.
  unfold set_rpath_in. apply quiet_view_bind.
  intros [dt|]; [|apply quiet_error].
  apply quiet_view_bind; intros ?.
  destruct (_ >? _); [apply quiet_error|].
  apply quiet_view_bind; intros ?.
  destruct (_ >? _); [apply quiet_error|apply quiet_store_bytes].
Qed.

Lemma set_rpath_quiet new_rpath : quiet (set_rpath new_rpath).
Proof.
  unfold set_rpath. apply quiet_view_bind. intros [dyn_sh|]; [|apply quiet_error].
  do 3 (apply quiet_view_bind; intros ?).
  match goal with |- quiet (match ?x with _ => _ end) => destruct x end;
    [|apply quiet_error].
  do 2 (apply quiet_view_bind; intros ?).
  apply set_rpath_in_quiet.
Qed.

Lemma set_rpath_located ehdr new_rpath dynoff dynsize stroff strsz :
  dynamic_sections ehdr dynoff dynsize stroff strsz ->
  set_rpath new_rpath ehdr
  = set_rpath_in dynoff (dynsize / sizeof_Elf_Dyn) stroff strsz new_rpath ehdr.
Proof.
  intros (dyn_sh & dynstr_sh & H1 & H2 & H3 & H4 & H5 & H6).
  unfold set_rpath. rewrite bind_view, H1. rewrite bind_view, H2.
  rewrite bind_view, H3. rewrite bind_view, H4. rewrite bind_view, H5.
  rewrite bind_view, H6. reflexivity.
Qed.

Lemma patch_prog_paths_valid new_interp new_rpath m :
  elf_is_valid m = Ok true ->
  patch_prog_paths new_interp new_rpath m
  = match set_interp new_interp m with
    | (Ok _, m1) => set_rpath new_rpath m1
    | (Fatal s, m1) => (Fatal s, m1)
    | (OutOfBounds, m1) => (OutOfBounds, m1)
    end.
Proof.
  intros Hvalid. unfold patch_prog_paths. rewrite bind_view, Hvalid.
  reflexivity.
Qed.

(** C1, as the code has it.  Each patch operation validates before it
    writes: a [set_interp] or a [set_rpath] that ends in a fatal error
    leaves the mapping as it found it.  [patch_prog_paths] runs them in
    turn.  On a valid image whose PT_INTERP segment has one byte or more,
    the last of them NUL, and fewer than the new interpreter and its NUL
    need, it ends fatally and the mapping is the original one.  When
    [set_interp] has succeeded and [set_rpath] finds its sections and a
    DT_RPATH entry whose value is not beyond the size of .dynstr, naming a
    string shorter than the new rpath, it ends fatally and the mapping is
    the one [set_interp] has written.  In every fatal end the mapping is
    one of these two.  A PT_INTERP segment of no byte at all is outside the
    first case: with the byte before it NUL, [set_interp] has no capacity
    failure whatever the length of the new interpreter, and copies it. *)
Theorem patch_prog_paths_failure
  (new_interp new_rpath : cstring) (m : image) :
  (forall r1 m1, set_interp new_interp m = (r1, m1) -> fatal r1 -> m1 = m)
  /\ (forall m0 r2 m2,
        set_rpath new_rpath m0 = (r2, m2) -> fatal r2 -> m2 = m0)
  /\ (forall ph off sz,
        elf_is_valid m = Ok true ->
        image_ok m = true ->
        elf_get_proghdr_by_type m PT_INTERP = Ok (Some ph) ->
        p_offset m ph = Ok off ->
        p_filesz m ph = Ok sz ->
        1 <= sz ->
        load8 m (off + sz - 1) = Ok 0 ->
        strlen_c new_interp + 1 > sz ->
        patch_prog_paths new_interp new_rpath m = (Fatal 2, m))
  /\ (forall m1 dynoff dynsize stroff strsz dt val old_len,
        elf_is_valid m = Ok true ->
        set_interp new_interp m = (Ok tt, m1) ->
        dynamic_sections m1 dynoff dynsize stroff strsz ->
        dyn_scan m1 dynoff 0 (Z.to_nat (dynsize / sizeof_Elf_Dyn)) None
        = Ok (Some dt) ->
        d_val m1 dt = Ok val ->
        val <= strsz ->
        strlen m1 (stroff + val) = Ok old_len ->
        strlen_c new_rpath > old_len ->
        patch_prog_paths new_interp new_rpath m = (Fatal 2, m1))
  /\ (forall r m',
        patch_prog_paths new_interp new_rpath m = (r, m') ->
        fatal r ->
        m' = m
        \/ (set_interp new_interp m = (Ok tt, m')
            /\ set_rpath new_rpath m' = (r, m')))
  /\ (forall ph off,
        image_ok m = true ->
        elf_get_proghdr_by_type m PT_INTERP = Ok (Some ph) ->
        p_offset m ph = Ok off ->
        p_filesz m ph = Ok 0 ->
        1 <= off ->
        load8 m (off - 1) = Ok 0 ->
        strlen_c new_interp < 2 ^ 64 ->
        set_interp new_interp m = strcpy off new_interp m).
Proof.
  split; [|split; [|split; [|split; [|split]]]].
  - intros r1 m1. apply set_interp_quiet.
  - intros m0 r2 m2. apply set_rpath_quiet.
  - intros ph off sz Hvalid Hok Hph Hoff Hsz Hsz1 Hnul Hlen.
    rewrite (patch_prog_paths_valid _ _ _ Hvalid).
    destruct (set_interp_run m new_interp ph off sz Hok Hph Hoff Hsz Hsz1 Hnul)
      as [_ ->].
    replace (strlen_c new_interp >? sz - 1) with true by lia. reflexivity.
  - intros m1 dynoff dynsize stroff strsz dt val old_len
      Hvalid Hi Hsec Hscan Hval Hle Hold Hlen.
    rewrite (patch_prog_paths_valid _ _ _ Hvalid), Hi.
    rewrite (set_rpath_located _ _ _ _ _ _ Hsec). unfold set_rpath_in.
    rewrite bind_view, Hscan. rewrite bind_view, Hval.
    replace (val >? strsz) with false by lia. unfold ptr_add.
    rewrite bind_view, Hold.
    replace (strlen_c new_rpath >? old_len) with true by lia. reflexivity.
  - intros r m' Hrun Hr.
    unfold patch_prog_paths in Hrun. rewrite bind_view in Hrun.
    destruct (elf_is_valid m) as [[|]| |];
      try (injection Hrun as <- <-; left; reflexivity).
    change (negb true) with false in Hrun. cbv iota beta in Hrun.
    unfold bind at 1 in Hrun.
    destruct (set_interp new_interp m) as [[[]| |] m1] eqn:Hi.
    + assert (m2 := set_rpath_quiet new_rpath m1 r m' Hrun Hr). subst m'.
      right. auto.
    + injection Hrun as <- <-. left.
      eapply set_interp_quiet; [exact Hi|exact I].
    + injection Hrun as <- <-. destruct Hr.
  - intros ph off Hok Hph Hoff Hsz Hoff1 Hbefore Hlen.
    destruct (set_interp_run_empty m new_interp ph off Hok Hph Hoff Hsz)
      as [_ Hrun].
    rewrite (Hrun 0 Hoff1 Hbefore Hlen). reflexivity.
Qed.

Lemma patch_prog_paths_failure_witness :
  patch_prog_paths short_interp long_rpath target_image
  = (Fatal 2, snd (set_interp short_interp target_image))
  /\ patch_prog_paths long_rpath short_rpath target_image
     = (Fatal 2, target_image)
  /\ set_interp long_rpath empty_interp_image
     = strcpy 404 long_rpath empty_interp_image.
Proof.
  split; [|split].
  - apply (proj1 (proj2 (proj2 (proj2
             (patch_prog_paths_failure short_interp long_rpath target_image))))
             (snd (set_interp short_interp target_image))
             420 48 468 15 436 6 8).
    + reflexivity.
    + reflexivity.
    + exists 248, 312. repeat split; reflexivity.
    + reflexivity.
    + reflexivity.
    + vm_compute. discriminate.
    + reflexivity.
    + reflexivity.
  - apply (proj1 (proj2 (proj2
             (patch_prog_paths_failure long_rpath short_rpath target_image)))
             64 404 16); try reflexivity.
    vm_compute. discriminate.
  - apply (proj2 (proj2 (proj2 (proj2 (proj2
             (patch_prog_paths_failure long_rpath short_rpath
                empty_interp_image)))))
             64 404); try reflexivity.
    vm_compute. discriminate.
Defined.

(** C1, as stated, fails: the interpreter of [target_image] has room for
    [short_interp] and its rpath (8 bytes) has none for [long_rpath];
    [patch_prog_paths] ends fatally and the mapping is no longer the
    original one: the interpreter field holds [short_interp]. *)
Lemma patch_prog_paths_partial :
  p_filesz target_image 64 = Ok 16
  /\ strlen_c short_interp + 1 <= 16
  /\ strlen target_image (468 + 6) = Ok 8
  /\ strlen_c long_rpath > 8
  /\ fst (patch_prog_paths short_interp long_rpath target_image) = Fatal 2
  /\ snd (patch_prog_paths short_interp long_rpath target_image) <> target_image
  /\ cstring_at (snd (patch_prog_paths short_interp long_rpath target_image)) 404
     = Ok short_interp.
Proof.
  split; [reflexivity|].
  split; [vm_compute; discriminate|].
  split; [reflexivity|].
  split; [reflexivity|].
  split; [reflexivity|].
  split; [|reflexivity].
  intros Heq. apply (f_equal (fun m => load8 m 405)) in Heq.
  vm_compute in Heq. discriminate.
Qed.

(** ** [set_rpath]: the offset into .dynstr *)

(** The test [set_rpath] makes: an offset greater than the table's size is
    fatal, and nothing is written. *)
Lemma set_rpath_offset_beyond ehdr new_rpath dynoff dynsize stroff strsz dt val :
  dynamic_sections ehdr dynoff dynsize stroff strsz ->
  dyn_scan ehdr dynoff 0 (Z.to_nat (dynsize / sizeof_Elf_Dyn)) None
  = Ok (Some dt) ->
  d_val ehdr dt = Ok val ->
  val > strsz ->
  set_rpath new_rpath ehdr = (Fatal 2, ehdr).
Proof.
  intros Hsec Hscan Hval Hgt. rewrite (set_rpath_located _ _ _ _ _ _ Hsec).
  unfold set_rpath_in. rewrite bind_view, Hscan. rewrite bind_view, Hval.
  replace (val >? strsz) with true by lia. reflexivity.
Qed.

(** C5 at the offset equal to the table's size.  In [rpath_at_end_image]
    .dynstr is the 6 bytes at 452 and DT_RPATH has the value 6: the offset
    is not inside the table, yet [set_rpath] does not fail; it takes the
    string that follows the table and overwrites it. *)
Theorem set_rpath_offset_at_table_end :
  dynamic_sections rpath_at_end_image 420 32 452 6
  /\ dyn_scan rpath_at_end_image 420 0 2 None = Ok (Some 420)
  /\ d_val rpath_at_end_image 420 = Ok 6
  /\ cstring_at rpath_at_end_image (452 + 6) = Ok (bytes_of_string "TRAILER!")
  /\ fst (set_rpath short_rpath rpath_at_end_image) = Ok tt
  /\ cstring_at (snd (set_rpath short_rpath rpath_at_end_image)) (452 + 6)
     = Ok short_rpath.
Proof.
  split.
  - exists 248, 312. repeat split; reflexivity.
  - repeat split; reflexivity.
Qed.

(** ** [set_rpath]: the walk of the dynamic table *)

Section DynamicWalk.

Variable tag : Z -> Z.

Lemma first_null_range n : forall i,
  i <= first_null tag i n <= i + Z.of_nat n.
Proof.
  induction n as [|n IH]; intros i; cbn [first_null]; [lia|].
  destruct (tag i =? DT_NULL); [lia|]. specialize (IH (i + 1)). lia.
Qed.

Lemma first_null_before n : forall i j,
  i <= j < first_null tag i n -> tag j <> DT_NULL.
Proof.
  induction n as [|n IH]; intros i j; cbn [first_null]; [lia|].
  destruct (tag i =? DT_NULL) eqn:E; [lia|].
  intros Hj. destruct (Z.eq_dec j i) as [->|Hne]; [lia|].
  apply (IH (i + 1)). lia.
Qed.

Lemma first_null_at n : forall i,
  first_null tag i n < i + Z.of_nat n ->
  tag (first_null tag i n) = DT_NULL.
Proof.
  induction n as [|n IH]; intros i; cbn [first_null]; [lia|].
  destruct (tag i =? DT_NULL) eqn:E; [lia|].
  intros H. apply IH. lia.
Qed.

Lemma last_rpath_some n : forall j,
  last_rpath tag n = Some j ->
  0 <= j < Z.of_nat n /\ tag j = DT_RPATH
  /\ forall k, j < k < Z.of_nat n -> tag k <> DT_RPATH.
Proof.
  induction n as [|n IH]; intros j; cbn [last_rpath]; [discriminate|].
  destruct (tag (Z.of_nat n) =? DT_RPATH) eqn:E.
  - intros [= <-]. repeat split; lia.
  - intros H. destruct (IH j H) as (Hj & Ht & Hlast).
    repeat split; try lia; auto.
    intros k Hk. destruct (Z.eq_dec k (Z.of_nat n)) as [->|Hne]; [lia|].
    apply Hlast. lia.
Qed.

Lemma last_rpath_none n :
  last_rpath tag n = None ->
  forall k, 0 <= k < Z.of_nat n -> tag k <> DT_RPATH.
Proof.
  induction n as [|n IH]; cbn [last_rpath]; [lia|].
  destruct (tag (Z.of_nat n) =? DT_RPATH) eqn:E; [discriminate|].
  intros H k Hk. destruct (Z.eq_dec k (Z.of_nat n)) as [->|Hne]; [lia|].
  apply IH; [assumption|lia].
Qed.

Lemma last_rpath_succ i :
  0 <= i ->
  last_rpath tag (Z.to_nat (i + 1))
  = if tag i =? DT_RPATH then Some i else last_rpath tag (Z.to_nat i).
Proof.
  intros Hi. replace (Z.to_nat (i + 1)) with (S (Z.to_nat i)) by lia.
  cbn [last_rpath]. rewrite Z2Nat.id by assumption. reflexivity.
Qed.

End DynamicWalk.

(** The loop against the specification's words, from any index on: with
    [dt_rpath] the last DT_RPATH entry before [i], and the entries the walk
    reaches readable, the loop returns the last one before the place where
    the walk ends. *)
Lemma dyn_scan_walk ehdr dyn_table n : forall i,
  0 <= i ->
  (forall j, i <= j <= first_null (tag_at ehdr dyn_table) i n ->
             j < i + Z.of_nat n ->
             exists t, d_tag ehdr (dyn_entry dyn_table j) = Ok t) ->
  dyn_scan ehdr dyn_table i n
    (option_map (dyn_entry dyn_table)
       (last_rpath (tag_at ehdr dyn_table) (Z.to_nat i)))
  = Ok (option_map (dyn_entry dyn_table)
          (last_rpath (tag_at ehdr dyn_table)
             (Z.to_nat (first_null (tag_at ehdr dyn_table) i n)))).
Proof.
  induction n as [|n IH]; intros i Hi Hread.
  - reflexivity.
  - pose proof (first_null_range (tag_at ehdr dyn_table) (S n) i) as Hrange.
    destruct (Hread i ltac:(lia) ltac:(lia)) as [t Ht].
    assert (tag_at ehdr dyn_table i = t) as Htag
      by (unfold tag_at; rewrite Ht; reflexivity).
    cbn [first_null] in Hread. rewrite Htag in Hread.
    cbn [dyn_scan first_null].
    fold (dyn_entry dyn_table i). rewrite Ht. cbn [rbind]. rewrite Htag.
    destruct (t =? DT_NULL) eqn:Enull; [reflexivity|].
    assert (forall j,
              i + 1 <= j <= first_null (tag_at ehdr dyn_table) (i + 1) n ->
              j < i + 1 + Z.of_nat n ->
              exists t', d_tag ehdr (dyn_entry dyn_table j) = Ok t') as Hread'
      by (intros j Hj Hlt; apply Hread; lia).
    rewrite <- (IH (i + 1) ltac:(lia) Hread').
    rewrite last_rpath_succ by assumption. rewrite Htag.
    destruct (t =? DT_RPATH); reflexivity.
Qed.

(** The loop reads the tags of the entries from [i] up to the one at which
    the walk ends, and nothing else of the image. *)
Lemma dyn_scan_ext ehdr ehdr2 dyn_table n : forall i acc,
  (forall j, i <= j <= first_null (tag_at ehdr dyn_table) i n ->
             j < i + Z.of_nat n ->
             d_tag ehdr2 (dyn_entry dyn_table j)
             = d_tag ehdr (dyn_entry dyn_table j)) ->
  dyn_scan ehdr2 dyn_table i n acc = dyn_scan ehdr dyn_table i n acc.
Proof.
  induction n as [|n IH]; intros i acc Hsame; cbn [dyn_scan]; [reflexivity|].
  pose proof (first_null_range (tag_at ehdr dyn_table) (S n) i) as Hrange.
  fold (dyn_entry dyn_table i). rewrite (Hsame i) by lia.
  cbn [first_null] in Hsame. unfold tag_at at 1 in Hsame.
  destruct (d_tag ehdr (dyn_entry dyn_table i)) as [t| |]; cbn [rbind]; auto.
  destruct (t =? DT_NULL); [reflexivity|].
  destruct (t =? DT_RPATH); apply IH; intros j Hj Hlt; apply Hsame; lia.
Qed.

(** C8. With .dynamic and .dynstr located, and the entries the walk
    reaches readable, the walk of [set_rpath] over the [ndyn = sh_size / 16]
    entries of the table ends at [stop], the first entry tagged DT_NULL or
    else [ndyn]; it reads the tags of the entries up to [stop] among the
    first [ndyn], and nothing else; it selects the last entry tagged
    DT_RPATH before [stop].  With no such entry [set_rpath] ends fatally,
    nothing written.  With one, [set_rpath] works on the string that entry
    names, at its value in .dynstr: a value beyond the size of .dynstr is
    fatal, a new path longer than the string is fatal, and otherwise the new
    path is copied there and reads back. *)
Theorem set_rpath_walk
  (ehdr : image) (new_rpath : cstring) (dynoff dynsize stroff strsz : Z) :
  dynamic_sections ehdr dynoff dynsize stroff strsz ->
  (forall i,
     0 <= i <= first_null (tag_at ehdr dynoff) 0
                 (Z.to_nat (dynsize / sizeof_Elf_Dyn)) ->
     i < dynsize / sizeof_Elf_Dyn ->
     exists t, d_tag ehdr (dyn_entry dynoff i) = Ok t) ->
  let ndyn := dynsize / sizeof_Elf_Dyn in
  let tag := tag_at ehdr dynoff in
  let stop := first_null tag 0 (Z.to_nat ndyn) in
  let found := last_rpath tag (Z.to_nat stop) in
  0 <= stop <= Z.max 0 ndyn
  /\ (stop < ndyn -> tag stop = DT_NULL)
  /\ (forall i, 0 <= i < stop -> tag i <> DT_NULL)
  /\ (forall ehdr2,
        (forall i, 0 <= i <= stop -> i < ndyn ->
                   d_tag ehdr2 (dyn_entry dynoff i)
                   = d_tag ehdr (dyn_entry dynoff i)) ->
        dyn_scan ehdr2 dynoff 0 (Z.to_nat ndyn) None
        = dyn_scan ehdr dynoff 0 (Z.to_nat ndyn) None)
  /\ dyn_scan ehdr dynoff 0 (Z.to_nat ndyn) None
     = Ok (option_map (dyn_entry dynoff) found)
  /\ (forall j, found = Some j ->
        0 <= j < stop /\ tag j = DT_RPATH
        /\ forall k, j < k < stop -> tag k <> DT_RPATH)
  /\ (found = None ->
        (forall k, 0 <= k < stop -> tag k <> DT_RPATH)
        /\ set_rpath new_rpath ehdr = (Fatal 2, ehdr))
  /\ (forall j val,
        found = Some j ->
        d_val ehdr (dyn_entry dynoff j) = Ok val ->
        (val > strsz -> set_rpath new_rpath ehdr = (Fatal 2, ehdr))
        /\ forall old_len,
             val <= strsz ->
             strlen ehdr (stroff + val) = Ok old_len ->
             set_rpath new_rpath ehdr
             = (if strlen_c new_rpath >? old_len then (Fatal 2, ehdr)
                else strcpy (stroff + val) new_rpath ehdr)
             /\ (cstring_ok new_rpath = true ->
                 strlen_c new_rpath <= old_len ->
                 exists ehdr',
                   set_rpath new_rpath ehdr = (Ok tt, ehdr')
                   /\ cstring_at ehdr' (stroff + val) = Ok new_rpath)).
Proof.
  intros Hsec Hread ndyn tag stop found.
  pose proof (first_null_range tag (Z.to_nat ndyn) 0) as Hrange.
  fold stop in Hrange.
  assert (dyn_scan ehdr dynoff 0 (Z.to_nat ndyn) None
          = Ok (option_map (dyn_entry dynoff) found)) as Hscan.
  { apply (dyn_scan_walk ehdr dynoff (Z.to_nat ndyn) 0); [lia|].
    intros j Hj Hlt. apply Hread; [exact Hj|]. fold ndyn. lia. }
  split; [lia|].
  split.
  { intros Hlt. apply (first_null_at tag (Z.to_nat ndyn) 0). fold stop. lia. }
  split.
  { intros i Hi. apply (first_null_before tag (Z.to_nat ndyn) 0). fold stop. lia. }
  split.
  { intros ehdr2 Hsame. apply dyn_scan_ext. intros j Hj Hlt.
    apply Hsame; [exact Hj|lia]. }
  split; [exact Hscan|].
  split.
  { intros j Hj. apply last_rpath_some in Hj. rewrite Z2Nat.id in Hj by lia.
    exact Hj. }
  split.
  { intros Hnone. split.
    { intros k Hk.
      apply (last_rpath_none tag (Z.to_nat stop)); [exact Hnone|lia]. }
    rewrite (set_rpath_located _ _ _ _ _ _ Hsec). unfold set_rpath_in.
    fold ndyn. rewrite bind_view, Hscan, Hnone. reflexivity. }
  intros j val Hsome Hval. rewrite Hsome in Hscan. cbn [option_map] in Hscan.
  split.
  { intros Hgt. rewrite (set_rpath_located _ _ _ _ _ _ Hsec).
    unfold set_rpath_in. fold ndyn. rewrite bind_view, Hscan.
    rewrite bind_view, Hval.
    replace (val >? strsz) with true by lia. reflexivity. }
  intros old_len Hle Hold.
  assert (set_rpath new_rpath ehdr
          = if strlen_c new_rpath >? old_len then (Fatal 2, ehdr)
            else strcpy (stroff + val) new_rpath ehdr) as Hrun.
  { rewrite (set_rpath_located _ _ _ _ _ _ Hsec). unfold set_rpath_in.
    fold ndyn. rewrite bind_view, Hscan. rewrite bind_view, Hval.
    replace (val >? strsz) with false by lia. unfold ptr_add.
    rewrite bind_view, Hold.
    destruct (strlen_c new_rpath >? old_len); reflexivity. }
  split; [exact Hrun|].
  intros Hnew Hlen. rewrite Hrun.
  replace (strlen_c new_rpath >? old_len) with false by lia.
  destruct (strlen_inside _ _ _ Hold) as (Hrp & Hlen0 & Hend).
  unfold strlen_c in Hlen. unfold strcpy.
  assert (Z.of_nat (length (new_rpath ++ [0]))
          = Z.of_nat (length new_rpath) + 1) as Hl
    by (rewrite length_app; simpl; lia).
  pose proof (store_bytes_ok (stroff + val) (new_rpath ++ [0]) ehdr) as Hst.
  rewrite Hl in Hst. specialize (Hst ltac:(lia) ltac:(lia)).
  eexists. split; [exact Hst|].
  pose proof (store_bytes_tail _ _ _ _ Hst) as Ht.
  unfold cstring_at. rewrite Ht, <- app_assoc. simpl.
  apply cstring_from_app, Hnew.
Qed.

Lemma set_rpath_walk_witness :
  dyn_scan target_image 420 0 3 None = Ok (Some (dyn_entry 420 1))
  /\ set_rpath short_rpath rpath_after_null_image
     = (Fatal 2, rpath_after_null_image)
  /\ first_null (tag_at oversized_dynamic_image 420) 0 100 = 2
  /\ (exists ehdr',
        set_rpath short_rpath oversized_dynamic_image = (Ok tt, ehdr')
        /\ cstring_at ehdr' (468 + 6) = Ok short_rpath)
  /\ set_rpath long_rpath oversized_dynamic_image
     = (Fatal 2, oversized_dynamic_image).
Proof.
  split; [|split; [|split; [reflexivity|]]].
  - assert (dynamic_sections target_image 420 48 468 15) as Hsec
      by (exists 248, 312; repeat split; reflexivity).
    assert (forall i,
              0 <= i <= first_null (tag_at target_image 420) 0
                          (Z.to_nat (48 / sizeof_Elf_Dyn)) ->
              i < 48 / sizeof_Elf_Dyn ->
              exists t, d_tag target_image (dyn_entry 420 i) = Ok t) as Hread.
    { intros i [Hi0 _] Hi. change (48 / sizeof_Elf_Dyn) with 3 in Hi.
      assert (i = 0 \/ i = 1 \/ i = 2) as [-> | [-> | ->]] by lia;
        eexists; reflexivity. }
    exact (proj1 (proj2 (proj2 (proj2 (proj2
             (set_rpath_walk target_image short_rpath 420 48 468 15
                Hsec Hread)))))).
  - assert (dynamic_sections rpath_after_null_image 420 48 468 15) as Hsec
      by (exists 248, 312; repeat split; reflexivity).
    assert (forall i,
              0 <= i <= first_null (tag_at rpath_after_null_image 420) 0
                          (Z.to_nat (48 / sizeof_Elf_Dyn)) ->
              i < 48 / sizeof_Elf_Dyn ->
              exists t, d_tag rpath_after_null_image (dyn_entry 420 i) = Ok t)
      as Hread.
    { intros i [Hi0 _] Hi. change (48 / sizeof_Elf_Dyn) with 3 in Hi.
      assert (i = 0 \/ i = 1 \/ i = 2) as [-> | [-> | ->]] by lia;
        eexists; reflexivity. }
    apply (proj1 (proj2 (proj2 (proj2 (proj2 (proj2 (proj2
             (set_rpath_walk rpath_after_null_image short_rpath 420 48 468 15
                Hsec Hread)))))))).
    reflexivity.
  - assert (dynamic_sections oversized_dynamic_image 420 1600 468 15) as Hsec
      by (exists 248, 312; repeat split; reflexivity).
    assert (first_null (tag_at oversized_dynamic_image 420) 0
              (Z.to_nat (1600 / sizeof_Elf_Dyn)) = 2) as Hstop
      by reflexivity.
    assert (forall i,
              0 <= i <= first_null (tag_at oversized_dynamic_image 420) 0
                          (Z.to_nat (1600 / sizeof_Elf_Dyn)) ->
              i < 1600 / sizeof_Elf_Dyn ->
              exists t, d_tag oversized_dynamic_image (dyn_entry 420 i) = Ok t)
      as Hread.
    { intros i Hi _. rewrite Hstop in Hi.
      assert (i = 0 \/ i = 1 \/ i = 2) as [-> | [-> | ->]] by lia;
        eexists; reflexivity. }
    split.
    + destruct (proj2 (proj2 (proj2 (proj2 (proj2 (proj2 (proj2
                 (set_rpath_walk oversized_dynamic_image short_rpath
                    420 1600 468 15 Hsec Hread))))))) 1 6 eq_refl eq_refl)
        as [_ Hpatch].
      assert (6 <= 15) as Hle by lia.
      destruct (Hpatch 8 Hle eq_refl) as [_ Hfit].
      apply Hfit; [reflexivity|]. vm_compute. discriminate.
    + destruct (proj2 (proj2 (proj2 (proj2 (proj2 (proj2 (proj2
                 (set_rpath_walk oversized_dynamic_image long_rpath
                    420 1600 468 15 Hsec Hread))))))) 1 6 eq_refl eq_refl)
        as [_ Hpatch].
      assert (6 <= 15) as Hle by lia.
      destruct (Hpatch 8 Hle eq_refl) as [Hrun _].
      rewrite Hrun. reflexivity.
Defined.

(** ** The views: what is checked before an offset is used *)

Lemma load8_not_fatal m a s : load8 m a <> Fatal s.
Proof.
  unfold load8. destruct (a <? 0); [discriminate|].
  destruct (nth_error m (Z.to_nat a)); discriminate.
Qed.

Lemma load_not_fatal n : forall m a s, load n m a <> Fatal s.
Proof.
  induction n as [|n IH]; intros m a s; [discriminate|].
  rewrite load_S. destruct (load8 m a) eqn:E8; cbn [rbind].
  - destruct (load n m (a + 1)) eqn:En; cbn [rbind]; try discriminate.
    exfalso. exact (IH _ _ _ En).
  - exfalso. exact (load8_not_fatal _ _ _ E8).
  - discriminate.
Qed.

Lemma strcmp_from_not_fatal l : forall name s, strcmp_from l name <> Fatal s.
Proof.
  induction l as [|b l IH]; intros name s; [destruct name; discriminate|].
  destruct name as [|c name]; cbn [strcmp_from]; [discriminate|].
  destruct (b =? c); [apply IH|discriminate].
Qed.

Lemma proghdr_scan_not_fatal ehdr ptype n : forall ph s,
  proghdr_scan ehdr ptype ph n <> Fatal s.
Proof.
  induction n as [|n IH]; intros ph s; cbn [proghdr_scan]; [discriminate|].
  unfold p_type. destruct (load 4 ehdr ph) eqn:E; cbn [rbind].
  - destruct (a =? ptype); [discriminate|apply IH].
  - exfalso. exact (load_not_fatal _ _ _ _ E).
  - discriminate.
Qed.

Lemma section_scan_not_fatal ehdr lookup_name lookup_type strtab n :
  forall sh s,
  section_scan ehdr lookup_name lookup_type strtab sh n <> Fatal s.
Proof.
  induction n as [|n IH]; intros sh s; cbn [section_scan]; [discriminate|].
  unfold sh_name. destruct (load 4 ehdr sh) as [nm| |] eqn:E; cbn [rbind].
  - assert (forall r : result bool, (forall s', r <> Fatal s') ->
      (do by_name <- r;
       if by_name then Ok (Some sh) else
       do by_type <-
         (if negb (lookup_type =? SHT_NOT_USED)
          then do t <- sh_type ehdr sh; Ok (t =? lookup_type)
          else Ok false);
       if by_type then Ok (Some sh)
       else section_scan ehdr lookup_name lookup_type strtab
              (sh + sizeof_Elf_Shdr) n) <> Fatal s) as Hrest.
    { intros r Hr. destruct r as [[|]|s'|]; cbn [rbind]; try discriminate.
      - destruct (negb (lookup_type =? SHT_NOT_USED)); cbn [rbind].
        + unfold sh_type. destruct (load 4 ehdr (sh + 4)) eqn:E4; cbn [rbind].
          * destruct (a =? lookup_type); [discriminate|apply IH].
          * exfalso. exact (load_not_fatal _ _ _ _ E4).
          * discriminate.
        + apply IH.
      - exfalso. exact (Hr s' eq_refl). }
    apply Hrest. destruct lookup_name as [l|]; [|discriminate].
    intros s'. apply strcmp_from_not_fatal.
  - exfalso. exact (load_not_fatal _ _ _ _ E).
  - discriminate.
Qed.

(** C4, as the code has it.  The lookups make two checks only, that
    [e_phentsize] and [e_shentsize] are the sizes of the structures.
    [elf_get_proghdr_by_type], having read [e_phoff], ends fatally (status 2)
    on an [e_phentsize] that differs.  [elf_get_section] ends fatally
    (status 2) on an [e_shentsize] that differs, but only once it has read
    the string-table section header, entry [e_shstrndx] of the table at
    [e_shoff]: where the [sh_offset] field of that header lies beyond the
    end of the mapping the read is outside it, whatever the entry size.  A
    fatal exit from a lookup has status 2 and no other cause than its
    entry-size check.  No offset or count is compared with the length of
    the mapping: with the entry size right, a program-header table that
    starts at or beyond the end and has an entry, and a .dynamic section
    whose data starts at or beyond the end and has an entry, are read where
    they are said to be, outside the mapping. *)
Theorem views_unchecked (ehdr : image) :
  (forall ptype s,
     elf_get_proghdr_by_type ehdr ptype = Fatal s ->
     s = 2 /\ exists v, e_phentsize ehdr = Ok v /\ v <> sizeof_Elf_Phdr)
  /\ (forall ptype phoff v,
        e_phoff ehdr = Ok phoff ->
        e_phentsize ehdr = Ok v ->
        v <> sizeof_Elf_Phdr ->
        elf_get_proghdr_by_type ehdr ptype = Fatal 2)
  /\ (forall ptype phoff n,
        e_phoff ehdr = Ok phoff ->
        e_phentsize ehdr = Ok sizeof_Elf_Phdr ->
        e_phnum ehdr = Ok n -> 1 <= n ->
        size ehdr <= phoff ->
        elf_get_proghdr_by_type ehdr ptype = OutOfBounds)
  /\ (forall lookup_name lookup_type s,
        elf_get_section ehdr lookup_name lookup_type = Fatal s ->
        s = 2 /\ exists v, e_shentsize ehdr = Ok v /\ v <> sizeof_Elf_Shdr)
  /\ (forall lookup_name lookup_type shoff ndx strtab v,
        e_shoff ehdr = Ok shoff ->
        e_shstrndx ehdr = Ok ndx ->
        sh_offset ehdr (shoff + sizeof_Elf_Shdr * ndx) = Ok strtab ->
        e_shentsize ehdr = Ok v ->
        v <> sizeof_Elf_Shdr ->
        elf_get_section ehdr lookup_name lookup_type = Fatal 2)
  /\ (forall lookup_name lookup_type shoff ndx,
        e_shoff ehdr = Ok shoff ->
        e_shstrndx ehdr = Ok ndx ->
        size ehdr <= shoff + sizeof_Elf_Shdr * ndx + 24 ->
        elf_get_section ehdr lookup_name lookup_type = OutOfBounds)
  /\ (forall new_rpath dynoff dynsize stroff strsz,
        dynamic_sections ehdr dynoff dynsize stroff strsz ->
        sizeof_Elf_Dyn <= dynsize ->
        size ehdr <= dynoff ->
        set_rpath new_rpath ehdr = (OutOfBounds, ehdr)).
Proof.
  split; [|split; [|split; [|split; [|split; [|split]]]]].
  - intros ptype s. unfold elf_get_proghdr_by_type.
    destruct (e_phoff ehdr) as [phoff| |] eqn:E1; cbn [rbind];
      [|intros H; exfalso; exact (load_not_fatal _ _ _ _ E1)|discriminate].
    destruct (e_phentsize ehdr) as [v| |] eqn:E2; cbn [rbind];
      [|intros H; exfalso; exact (load_not_fatal _ _ _ _ E2)|discriminate].
    destruct (v =? sizeof_Elf_Phdr) eqn:Ev; cbn [negb].
    + destruct (e_phnum ehdr) as [n| |] eqn:E3; cbn [rbind];
        [|intros H; exfalso; exact (load_not_fatal _ _ _ _ E3)|discriminate].
      intros H. exfalso. exact (proghdr_scan_not_fatal _ _ _ _ _ H).
    + intros [= <-]. split; [reflexivity|]. exists v. split; [reflexivity|lia].
  - intros ptype phoff v H1 H2 Hv. unfold elf_get_proghdr_by_type.
    rewrite H1, H2. cbn [rbind].
    replace (v =? sizeof_Elf_Phdr) with false by lia. reflexivity.
  - intros ptype phoff n H1 H2 H3 Hn Hout. unfold elf_get_proghdr_by_type.
    rewrite H1, H2, H3. cbn [rbind]. rewrite Z.eqb_refl. cbn [negb].
    destruct (Z.to_nat n) as [|k] eqn:Ek; [lia|]. cbn [proghdr_scan].
    unfold p_type, ptr_add. rewrite load_outside; [reflexivity|lia|lia].
  - intros lookup_name lookup_type s. unfold elf_get_section.
    destruct (e_shoff ehdr) as [shoff| |] eqn:E1; cbn [rbind];
      [|intros H; exfalso; exact (load_not_fatal _ _ _ _ E1)|discriminate].
    destruct (e_shstrndx ehdr) as [ndx| |] eqn:E2; cbn [rbind];
      [|intros H; exfalso; exact (load_not_fatal _ _ _ _ E2)|discriminate].
    destruct (sh_offset ehdr _) as [stroff| |] eqn:E3; cbn [rbind];
      [|intros H; exfalso; exact (load_not_fatal _ _ _ _ E3)|discriminate].
    destruct (e_shentsize ehdr) as [v| |] eqn:E4; cbn [rbind];
      [|intros H; exfalso; exact (load_not_fatal _ _ _ _ E4)|discriminate].
    destruct (v =? sizeof_Elf_Shdr) eqn:Ev; cbn [negb].
    + destruct (e_shnum ehdr) as [n| |] eqn:E5; cbn [rbind];
        [|intros H; exfalso; exact (load_not_fatal _ _ _ _ E5)|discriminate].
      intros H. exfalso. exact (section_scan_not_fatal _ _ _ _ _ _ _ H).
    + intros [= <-]. split; [reflexivity|]. exists v. split; [reflexivity|lia].
  - intros lookup_name lookup_type shoff ndx strtab v H1 H2 H3 H4 Hv.
    unfold elf_get_section. rewrite H1, H2. cbn [rbind].
    unfold ptr_add. change (0 + shoff) with shoff. rewrite H3. cbn [rbind].
    rewrite H4. cbn [rbind].
    replace (v =? sizeof_Elf_Shdr) with false by lia. reflexivity.
  - intros lookup_name lookup_type shoff ndx H1 H2 Hout.
    unfold elf_get_section. rewrite H1, H2. cbn [rbind].
    unfold sh_offset, ptr_add. rewrite load_outside; [reflexivity|lia|].
    right. lia.
  - intros new_rpath dynoff dynsize stroff strsz Hsec Hsz Hout.
    rewrite (set_rpath_located _ _ _ _ _ _ Hsec). unfold set_rpath_in.
    rewrite bind_view.
    assert (1 <= dynsize / sizeof_Elf_Dyn) as Hn.
    { unfold sizeof_Elf_Dyn in *. apply Z.div_le_lower_bound; lia. }
    destruct (Z.to_nat (dynsize / sizeof_Elf_Dyn)) as [|k] eqn:Ek; [lia|].
    cbn [dyn_scan]. unfold d_tag.
    rewrite load_outside; [reflexivity|lia|]. unfold sizeof_Elf_Dyn. lia.
Qed.

Lemma views_unchecked_witness :
  elf_get_proghdr_by_type header_only_image PT_INTERP = OutOfBounds
  /\ elf_get_section header_only_image (Some dot_dynamic) SHT_NOT_USED
     = OutOfBounds
  /\ set_rpath short_rpath dynamic_beyond_image
     = (OutOfBounds, dynamic_beyond_image)
  /\ elf_get_proghdr_by_type wrong_entsize_image PT_INTERP = Fatal 2
  /\ elf_get_section wrong_entsize_image (Some dot_dynamic) SHT_NOT_USED
     = Fatal 2.
Proof.
  destruct (views_unchecked header_only_image)
    as (_ & _ & Hph & _ & _ & Hsh & _).
  destruct (views_unchecked dynamic_beyond_image)
    as (_ & _ & _ & _ & _ & _ & Hdyn).
  destruct (views_unchecked wrong_entsize_image)
    as (_ & Hphent & _ & _ & Hshent & _).
  split; [|split; [|split; [|split]]].
  - apply (Hph PT_INTERP 4096 1); try reflexivity; vm_compute; discriminate.
  - apply (Hsh (Some dot_dynamic) SHT_NOT_USED 8192 0); try reflexivity.
    vm_compute; discriminate.
  - apply (Hdyn short_rpath 65536 32 420 15).
    + exists 248, 312. repeat split; reflexivity.
    + vm_compute; discriminate.
    + vm_compute; discriminate.
  - apply (Hphent PT_INTERP 64 32); try reflexivity.
    vm_compute. discriminate.
  - apply (Hshent (Some dot_dynamic) SHT_NOT_USED 120 1 376 40);
      try reflexivity.
    vm_compute. discriminate.
Defined.

(** C4, as stated, fails.  [header_only_image] is a 64-byte file whose
    header passes [elf_is_valid] and gives [e_phoff = 4096] and
    [e_shoff = 8192]; neither lookup ends in the fatal error: both read
    outside the mapping. *)
Lemma views_not_validated :
  size header_only_image = 64
  /\ elf_is_valid header_only_image = Ok true
  /\ e_phoff header_only_image = Ok 4096
  /\ e_shoff header_only_image = Ok 8192
  /\ elf_get_proghdr_by_type header_only_image PT_INTERP = OutOfBounds
  /\ elf_get_section_by_name header_only_image dot_dynamic = OutOfBounds.
Proof.
  repeat split; reflexivity.
Qed.

(** ** Exit translation *)

Lemma WTERMSIG_range w : 0 <= WTERMSIG w < 128.
Proof.
  unfold WTERMSIG. change 127 with (Z.ones 7). rewrite Z.land_ones by lia.
  apply Z.mod_pos_bound. lia.
Qed.

(** [WIFSIGNALED]: the low seven bits are neither 0 (exited) nor 127
    (stopped). *)
Lemma WIFSIGNALED_iff w :
  WIFSIGNALED w = true <-> 1 <= WTERMSIG w <= 126.
Proof.
  unfold WIFSIGNALED. fold (WTERMSIG w).
  pose proof (WTERMSIG_range w) as Hr. unfold signed_char.
  rewrite Z.mod_small by lia. rewrite Z.shiftr_div_pow2 by lia.
  change (2 ^ 1) with 2.
  destruct (WTERMSIG w + 1 <? 128) eqn:E.
  - split; intros H.
    + assert (0 < (WTERMSIG w + 1) / 2) as Hpos by lia.
      destruct (Z.eq_dec (WTERMSIG w) 0) as [H0|]; [|lia].
      rewrite H0 in Hpos. vm_compute in Hpos. discriminate.
    + assert (1 <= (WTERMSIG w + 1) / 2) by (apply Z.div_le_lower_bound; lia).
      lia.
  - assert (WTERMSIG w = 127) as Hw by lia. rewrite Hw.
    change ((127 + 1 - 256) / 2 >? 0) with false.
    split; [discriminate|lia].
Qed.

(** C3. The end of [main] for every wait status: a child that exited makes
    the launcher exit with the child's code, and no signal is raised; a
    child ended by a signal makes the launcher raise that signal, and that
    one only, so that it ends by it (should [raise] return, the launcher
    exits with the fixed status 2, not with a code made from the signal);
    any other status ends the launcher with status 2. *)
Theorem main_exit_translation (raise_terminates : Z -> bool) (wstatus : Z) :
  (WIFEXITED wstatus = true ->
   main_exit raise_terminates wstatus = ([], Exited (WEXITSTATUS wstatus)))
  /\ (WIFEXITED wstatus = false -> WIFSIGNALED wstatus = true ->
      fst (main_exit raise_terminates wstatus) = [WTERMSIG wstatus]
      /\ (raise_terminates (WTERMSIG wstatus) = true ->
          snd (main_exit raise_terminates wstatus)
          = Signaled (WTERMSIG wstatus))
      /\ (raise_terminates (WTERMSIG wstatus) = false ->
          snd (main_exit raise_terminates wstatus) = Exited 2))
  /\ (WIFEXITED wstatus = false -> WIFSIGNALED wstatus = false ->
      main_exit raise_terminates wstatus = ([], Exited 2))
  /\ (forall code, 0 <= code < 256 ->
      main_exit raise_terminates (Z.shiftl code 8) = ([], Exited code))
  /\ (forall sig core, 1 <= sig <= 126 -> core = 0 \/ core = 128 ->
      fst (main_exit raise_terminates (Z.lor sig core)) = [sig]).
Proof.
  unfold main_exit. split; [|split; [|split; [|split]]].
  - intros ->. reflexivity.
  - intros -> ->.
    destruct (raise_terminates (WTERMSIG wstatus));
      repeat split; intros; (reflexivity || discriminate).
  - intros -> ->. reflexivity.
  - intros code Hc.
    assert (WTERMSIG (Z.shiftl code 8) = 0) as Hlow.
    { unfold WTERMSIG. change 127 with (Z.ones 7).
      rewrite Z.land_ones, Z.shiftl_mul_pow2 by lia.
      change (2 ^ 8) with (2 * 2 ^ 7).
      rewrite Z.mul_assoc. apply Z.mod_mul. lia. }
    unfold WIFEXITED. rewrite Hlow. cbn [Z.eqb].
    unfold WEXITSTATUS. rewrite Z.shiftr_land.
    rewrite Z.shiftr_shiftl_l by lia. change (8 - 8) with 0.
    rewrite Z.shiftl_0_r. change (Z.shiftr 65280 8) with (Z.ones 8).
    rewrite Z.land_ones by lia. rewrite Z.mod_small by (change (2 ^ 8) with 256; lia).
    reflexivity.
  - intros sig core Hs Hc.
    assert (WTERMSIG (Z.lor sig core) = sig) as Hlow.
    { unfold WTERMSIG. rewrite Z.land_lor_distr_l.
      change 127 with (Z.ones 7). rewrite !Z.land_ones by lia.
      rewrite (Z.mod_small sig) by (change (2 ^ 7) with 128; lia).
      destruct Hc as [-> | ->]; vm_compute (_ mod _); [apply Z.lor_0_r|apply Z.lor_0_r]. }
    assert (WIFSIGNALED (Z.lor sig core) = true) as Hsig
      by (apply WIFSIGNALED_iff; lia).
    unfold WIFEXITED. rewrite Hlow, Hsig.
    replace (sig =? 0) with false by lia.
    destruct (raise_terminates sig); reflexivity.
Qed.

Lemma main_exit_translation_witness :
  main_exit (fun _ => true) 10752 = ([], Exited 42)
  /\ main_exit (fun _ => true) 15 = ([15], Signaled 15)
  /\ main_exit (fun _ => true) 4991 = ([], Exited 2).
Proof.
  split; [|split].
  - exact (proj1 (main_exit_translation (fun _ => true) 10752) eq_refl).
  - pose proof (proj1 (proj2 (main_exit_translation (fun _ => true) 15))
                  eq_refl eq_refl) as (Hraised & Hends & _).
    specialize (Hends eq_refl).
    destruct (main_exit (fun _ => true) 15) as [raised ends].
    cbn [fst snd] in Hraised, Hends. rewrite Hraised, Hends. reflexivity.
  - exact (proj1 (proj2 (proj2 (main_exit_translation (fun _ => true) 4991)))
             eq_refl eq_refl).
Defined.

(** ** The decompression adapter *)

Lemma ssize_of_small len : 0 <= len < 2 ^ 63 -> ssize_of len = len.
Proof.
  intros H. unfold ssize_of. rewrite Z.mod_small by lia.
  replace (len <? 2 ^ 63) with true by lia. reflexivity.
Qed.

Section XzRead.

Variable xz_dec : Type.
Variable xz_dec_run : xz_dec -> xz_buf -> xz_ret * xz_dec * xz_buf.

Local Abbreviation state := (xz_state xz_dec).
Local Abbreviation loop := (xz_read_loop xz_dec xz_dec_run).
Local Abbreviation fed := (fed xz_dec xz_dec_run).
Local Abbreviation run s := (xz_dec_run (m_xzdec s) (m_xzbuf s)).

Lemma fed_snoc s s1 d b :
  fed s s1 ->
  out_pos (m_xzbuf s1) <> out_size (m_xzbuf s1) ->
  run s1 = (XZ_OK, d, b) ->
  fed s (mk_xz_state d b).
Proof.
  induction 1 as [s|s d0 b0 s1 Hne Hrun Hfed IH]; intros Hne1 Hrun1.
  - eapply fed_step; [exact Hne1|exact Hrun1|apply fed_refl].
  - eapply fed_step; [exact Hne|exact Hrun|]. apply IH; assumption.
Qed.

(** More fuel does not change a result. *)
Lemma loop_fuel_mono fuel : forall len s res,
  loop fuel len s = Some res ->
  forall fuel', (fuel <= fuel')%nat -> loop fuel' len s = Some res.
Proof.
  induction fuel as [|fuel IH]; intros len s res; cbn [xz_read_loop];
    [discriminate|].
  intros Hres fuel' Hle. destruct fuel' as [|fuel']; [lia|].
  cbn [xz_read_loop].
  destruct (negb (out_pos (m_xzbuf s) =? out_size (m_xzbuf s)));
    [|exact Hres].
  destruct (run s) as [[xr d] b].
  destruct xr; try exact Hres. apply (IH _ _ _ Hres). lia.
Qed.

(** The loop, run from a state the decoder was fed to, and from the
    start. *)
Lemma fed_loop len s s1 :
  fed s s1 ->
  forall fuel1 res, loop fuel1 len s1 = Some res ->
  exists fuel, loop fuel len s = Some res.
Proof.
  induction 1 as [s|s d b s1 Hne Hrun Hfed IH]; intros fuel1 res Hres.
  - exists fuel1. exact Hres.
  - destruct (IH _ _ Hres) as [fuel Hfuel]. exists (S fuel).
    cbn [xz_read_loop].
    replace (out_pos (m_xzbuf s) =? out_size (m_xzbuf s)) with false by lia.
    cbn [negb]. rewrite Hrun. exact Hfuel.
Qed.

(** The ways the loop ends. *)
Lemma loop_ends fuel : forall len s r s',
  loop fuel len s = Some (r, s') ->
  (r = Ok (ssize_of len) /\ fed s s'
   /\ out_pos (m_xzbuf s') = out_size (m_xzbuf s'))
  \/ (r = Ok 0 /\ exists s1,
        fed s s1 /\ out_pos (m_xzbuf s1) <> out_size (m_xzbuf s1)
        /\ run s1 = (XZ_STREAM_END, m_xzdec s', m_xzbuf s'))
  \/ (r = Fatal 2 /\ exists s1 xr,
        fed s s1 /\ out_pos (m_xzbuf s1) <> out_size (m_xzbuf s1)
        /\ run s1 = (xr, m_xzdec s', m_xzbuf s')
        /\ xr <> XZ_OK /\ xr <> XZ_STREAM_END).
Proof.
  induction fuel as [|fuel IH]; intros len s r s'; cbn [xz_read_loop];
    [discriminate|].
  destruct (out_pos (m_xzbuf s) =? out_size (m_xzbuf s)) eqn:Efull;
    cbn [negb].
  - intros [= <- <-]. left. split; [reflexivity|].
    split; [apply fed_refl|lia].
  - assert (out_pos (m_xzbuf s) <> out_size (m_xzbuf s)) as Hne by lia.
    destruct (run s) as [[xr d] b] eqn:Hrun.
    assert (forall st, xr <> XZ_OK -> xr <> XZ_STREAM_END ->
              Some (@Fatal Z st, mk_xz_state d b) = Some (r, s') ->
              st = 2 ->
              r = Fatal 2 /\ exists s1 xr,
                fed s s1 /\ out_pos (m_xzbuf s1) <> out_size (m_xzbuf s1)
                /\ run s1 = (xr, m_xzdec s', m_xzbuf s')
                /\ xr <> XZ_OK /\ xr <> XZ_STREAM_END) as Hfatal.
    { intros st Hx1 Hx2 [= <- <-] ->. split; [reflexivity|].
      exists s, xr. repeat split; try assumption. apply fed_refl. }
    destruct xr;
      try (intros Hres; right; right;
           apply (Hfatal 2); [discriminate|discriminate|exact Hres|reflexivity]).
    + intros Hres. destruct (IH _ _ _ _ Hres) as [H1|[H2|H3]].
      * left. destruct H1 as (Hr & Hfed & Hfull). repeat split; auto.
        eapply fed_step; eauto.
      * right; left. destruct H2 as (Hr & s1 & Hfed & Hne1 & Hrun1).
        split; [exact Hr|]. exists s1. repeat split; auto.
        eapply fed_step; eauto.
      * right; right. destruct H3 as (Hr & s1 & xr & Hfed & Hne1 & Hrun1 & Hx).
        split; [exact Hr|]. exists s1, xr. repeat split; try tauto.
        eapply fed_step; eauto.
    + intros [= <- <-]. right; left. split; [reflexivity|].
      exists s. repeat split; [apply fed_refl|exact Hne|exact Hrun].
Qed.

(** C9. [xz_read] returns the whole request or nothing: a count it
    returns is [len] or 0.  If the decoder, fed by the loop, signals the
    end of the stream while the buffer is not full, the call returns 0
    whatever the decoder has put in the buffer by then, and a caller that
    takes as many bytes as the count says takes none of them. *)
Theorem xz_read_all_or_nothing (buf : list Z) (s : state) :
  let len := size buf in
  len < 2 ^ 63 ->
  (forall fuel n s',
     xz_read xz_dec xz_dec_run fuel buf len s = Some (Ok n, s') ->
     n = 0 \/ n = len)
  /\ (forall s1 d b,
        fed (entered s buf len) s1 ->
        out_pos (m_xzbuf s1) <> out_size (m_xzbuf s1) ->
        run s1 = (XZ_STREAM_END, d, b) ->
        exists fuel,
          xz_read xz_dec xz_dec_run fuel buf len s
          = Some (Ok 0, mk_xz_state d b)
          /\ pull_all xz_dec xz_dec_run fuel [buf] s
             = Some ([], AtEof, mk_xz_state d b)).
Proof.
  intros len Hlen. assert (0 <= len) as Hlen0 by (unfold len, size; lia).
  split.
  - intros fuel n s' Hres. unfold xz_read in Hres.
    destruct (loop_ends _ _ _ _ _ Hres) as [(Hr & _)|[(Hr & _)|(Hr & _)]].
    + right. rewrite ssize_of_small in Hr by lia. congruence.
    + left. congruence.
    + discriminate.
  - intros s1 d b Hfed Hne Hrun.
    assert (loop 1 len s1 = Some (Ok 0, mk_xz_state d b)) as Hlast.
    { cbn [xz_read_loop].
      replace (out_pos (m_xzbuf s1) =? out_size (m_xzbuf s1)) with false by lia.
      cbn [negb]. rewrite Hrun. reflexivity. }
    destruct (fed_loop len _ _ Hfed _ _ Hlast) as [fuel Hfuel].
    exists fuel. split; [exact Hfuel|].
    cbn [pull_all]. fold len. unfold xz_read.
    rewrite Hfuel. reflexivity.
Qed.

(** *** A decoder that keeps the buffer's bounds and makes progress *)

Variable mu : xz_dec -> xz_buf -> nat.

Hypothesis run_frame : forall d b xr d' b',
  xz_dec_run d b = (xr, d', b') ->
  out_pos b <= out_size b ->
  out_size b' = out_size b /\ out_pos b' <= out_size b'.

Hypothesis run_progress : forall d b d' b',
  xz_dec_run d b = (XZ_OK, d', b') ->
  out_pos b < out_size b ->
  (mu d' b' < mu d b)%nat.

Lemma fed_frame s s' :
  fed s s' ->
  out_pos (m_xzbuf s) <= out_size (m_xzbuf s) ->
  out_size (m_xzbuf s') = out_size (m_xzbuf s)
  /\ out_pos (m_xzbuf s') <= out_size (m_xzbuf s').
Proof.
  induction 1 as [s|s d b s' Hne Hrun Hfed IH]; intros Hle; [lia|].
  destruct (run_frame _ _ _ _ _ Hrun Hle) as [Hsz Hpos].
  cbn [m_xzbuf m_xzdec] in IH. specialize (IH Hpos). lia.
Qed.

Lemma loop_terminates n : forall len s,
  (mu (m_xzdec s) (m_xzbuf s) < n)%nat ->
  out_pos (m_xzbuf s) <= out_size (m_xzbuf s) ->
  exists res, loop n len s = Some res.
Proof.
  induction n as [|n IH]; intros len s Hmu Hle; [lia|].
  cbn [xz_read_loop].
  destruct (out_pos (m_xzbuf s) =? out_size (m_xzbuf s)) eqn:Efull;
    cbn [negb]; [eauto|].
  destruct (run s) as [[xr d] b] eqn:Hrun.
  destruct xr; eauto.
  apply IH; cbn [m_xzbuf m_xzdec].
  - assert (mu d b < mu (m_xzdec s) (m_xzbuf s))%nat
      by (eapply run_progress; [exact Hrun|lia]).
    lia.
  - eapply run_frame; [exact Hrun|exact Hle].
Qed.

(** C7. A pull request for [len] bytes (the buffer's length) enters its
    loop with the caller's buffer as the output, nothing in it yet
    ([out_pos = 0], [out_size = len]) and the input as the last call left
    it.  It ends, and in one of three ways: the loop has fed the decoder,
    from that state and at least once if [len > 0], until the buffer is full
    and the call returns [len]; or the decoder, fed by the loop, has
    signalled the end of the stream and the call returns 0; or the decoder
    has returned a code other than XZ_OK and XZ_STREAM_END and the process
    exits with status 2. *)
Theorem xz_read_outcomes (buf : list Z) (s : state) :
  let len := size buf in
  let start :=
    mk_xz_state (m_xzdec s)
      {| in_buf := in_buf (m_xzbuf s);
         in_pos := in_pos (m_xzbuf s);
         in_size := in_size (m_xzbuf s);
         out_buf := buf;
         out_pos := 0;
         out_size := len |} in
  len < 2 ^ 63 ->
  (exists fuel res, xz_read xz_dec xz_dec_run fuel buf len s = Some res)
  /\ forall fuel r s',
       xz_read xz_dec xz_dec_run fuel buf len s = Some (r, s') ->
       (r = Ok len /\ fed start s'
        /\ out_pos (m_xzbuf s') = len /\ out_size (m_xzbuf s') = len
        /\ (0 < len ->
            exists d b,
              run start = (XZ_OK, d, b) /\ fed (mk_xz_state d b) s'))
       \/ (r = Ok 0 /\ exists s1,
             fed start s1
             /\ out_pos (m_xzbuf s1) <> out_size (m_xzbuf s1)
             /\ run s1 = (XZ_STREAM_END, m_xzdec s', m_xzbuf s'))
       \/ (r = Fatal 2 /\ exists s1 xr,
             fed start s1
             /\ out_pos (m_xzbuf s1) <> out_size (m_xzbuf s1)
             /\ run s1 = (xr, m_xzdec s', m_xzbuf s')
             /\ xr <> XZ_OK /\ xr <> XZ_STREAM_END).
Proof.
  intros len start Hlen.
  assert (0 <= len) as Hlen0 by (unfold len, size; lia).
  assert (entered s buf len = start) as Hstart by reflexivity.
  split.
  - exists (S (mu (m_xzdec start) (m_xzbuf start))).
    unfold xz_read. rewrite Hstart.
    apply loop_terminates; [apply Nat.lt_succ_diag_r|]. cbn. exact Hlen0.
  - intros fuel r s' Hres. unfold xz_read in Hres. rewrite Hstart in Hres.
    destruct (loop_ends _ _ _ _ _ Hres) as [(Hr & Hfed & Hfull)|[H2|H3]].
    + left. rewrite ssize_of_small in Hr by lia.
      split; [exact Hr|]. split; [exact Hfed|].
      destruct (fed_frame _ _ Hfed) as [Hsz _]; [cbn; exact Hlen0|].
      cbn in Hsz.
      split; [lia|]. split; [lia|].
      intros Hpos. inversion Hfed as [s0 Hs0 Hs'|s0 d b s0' Hne Hrun Hrest Hs0 Hs'].
      * exfalso. subst s'. cbn in Hfull. lia.
      * exists d, b. split; [exact Hrun|exact Hrest].
    + right; left. exact H2.
    + right; right. exact H3.
Qed.

End XzRead.

(** *** Pulls of any sizes against the stream *)

Lemma firstn_skipn_own {A} (l : list A) n :
  firstn n l ++ skipn (length (firstn n l)) l = l.
Proof.
  destruct (Nat.le_gt_cases n (length l)) as [Hle|Hgt].
  - rewrite length_firstn_le by assumption. apply firstn_skipn.
  - rewrite firstn_all2 by lia. rewrite skipn_all. apply app_nil_r.
Qed.

Lemma emitted_after {xz_dec : Type} (s : xz_state xz_dec)
  (d : xz_dec) (b : xz_buf) (e : list Z) :
  0 <= out_pos (m_xzbuf s) <= size (out_buf (m_xzbuf s)) ->
  out_pos b = out_pos (m_xzbuf s) + size e ->
  out_buf b = firstn (Z.to_nat (out_pos (m_xzbuf s))) (out_buf (m_xzbuf s))
              ++ e ++ skipn (Z.to_nat (out_pos (m_xzbuf s)) + length e)
                        (out_buf (m_xzbuf s)) ->
  emitted (mk_xz_state d b) = emitted s ++ e.
Proof.
  unfold emitted, size. cbn [m_xzbuf]. intros Hpos -> ->.
  set (p := Z.to_nat (out_pos (m_xzbuf s))).
  replace (Z.to_nat (out_pos (m_xzbuf s) + Z.of_nat (length e)))
    with (length (firstn p (out_buf (m_xzbuf s))) + length e)%nat
    by (rewrite length_firstn_le; lia).
  rewrite firstn_app_2. f_equal.
  rewrite <- (Nat.add_0_r (length e)) at 1. rewrite firstn_app_2.
  apply app_nil_r.
Qed.

Section Streaming.

Variable xz_dec : Type.
Variable xz_dec_run : xz_dec -> xz_buf -> xz_ret * xz_dec * xz_buf.
Variable pending : xz_dec -> xz_buf -> list Z.

Hypothesis pending_out : forall d b buf len,
  pending d (set_out b buf len) = pending d b.
Hypothesis run_emits : emits_stream xz_dec_run pending.

Local Abbreviation left_in s := (pending (m_xzdec s) (m_xzbuf s)).

Lemma run_inv D s xr d b :
  stream_inv pending D s ->
  xz_dec_run (m_xzdec s) (m_xzbuf s) = (xr, d, b) ->
  stream_inv pending D (mk_xz_state d b)
  /\ (xr = XZ_STREAM_END -> pending d b = []).
Proof.
  intros (Hpos & Hsz & HD) Hrun.
  destruct (run_emits _ _ _ _ _ Hrun Hpos Hsz)
    as (e & Hpend & Hpos' & Hle & Hsz' & Hbuf & Hend).
  split; [|exact Hend].
  unfold stream_inv. cbn [m_xzbuf m_xzdec].
  split; [unfold size in *; lia|].
  split.
  - rewrite Hsz', Hsz, Hbuf. unfold size in *.
    rewrite !length_app, length_firstn_le, length_skipn by lia. lia.
  - rewrite (emitted_after s d b e) by (try assumption; lia).
    rewrite HD, Hpend. apply app_assoc.
Qed.

Lemma fed_inv D s s' :
  fed xz_dec xz_dec_run s s' ->
  stream_inv pending D s -> stream_inv pending D s'.
Proof.
  induction 1 as [s|s d b s' Hne Hrun Hfed IH]; intros Hinv; [exact Hinv|].
  apply IH. exact (proj1 (run_inv _ _ _ _ _ Hinv Hrun)).
Qed.

Lemma fed_out_size D s s' :
  fed xz_dec xz_dec_run s s' ->
  stream_inv pending D s ->
  out_size (m_xzbuf s') = out_size (m_xzbuf s).
Proof.
  induction 1 as [s|s d b s' Hne Hrun Hfed IH]; intros Hinv; [reflexivity|].
  destruct Hinv as (Hpos & Hsz & HD).
  destruct (run_emits _ _ _ _ _ Hrun Hpos Hsz) as (e & _ & _ & _ & Hsz' & _).
  rewrite IH.
  - cbn [m_xzbuf]. exact Hsz'.
  - exact (proj1 (run_inv _ _ _ _ _ (conj Hpos (conj Hsz HD)) Hrun)).
Qed.

Lemma entered_inv s buf :
  stream_inv pending (left_in s) (entered s buf (size buf)).
Proof.
  unfold stream_inv, entered, emitted. cbn.
  rewrite pending_out. unfold size. repeat split; lia.
Qed.

(** One pull against the stream. *)
Lemma xz_read_stream fuel buf s r s' :
  0 < size buf < 2 ^ 63 ->
  xz_read xz_dec xz_dec_run fuel buf (size buf) s = Some (r, s') ->
  (r = Ok (size buf)
   /\ left_in s = firstn (Z.to_nat (size buf)) (out_buf (m_xzbuf s'))
                  ++ left_in s')
  \/ (r = Ok 0 /\ left_in s = emitted s' /\ left_in s' = [])
  \/ (r = Fatal 2 /\ left_in s = emitted s' ++ left_in s').
Proof.
  intros Hlen Hres. unfold xz_read in Hres.
  pose proof (entered_inv s buf) as Hinv.
  destruct (loop_ends _ _ _ _ _ _ _ Hres)
    as [(Hr & Hfed & Hfull)|[(Hr & s1 & Hfed & Hne & Hrun)
                            |(Hr & s1 & xr & Hfed & Hne & Hrun & _)]].
  - left. rewrite ssize_of_small in Hr by lia. split; [exact Hr|].
    destruct (fed_inv _ _ _ Hfed Hinv) as (Hpos & Hsz & HD).
    pose proof (fed_out_size _ _ _ Hfed Hinv) as Hsame.
    rewrite HD. unfold emitted. rewrite Hfull.
    cbn [entered m_xzbuf set_out out_size] in Hsame. rewrite Hsame.
    reflexivity.
  - right; left. split; [exact Hr|].
    pose proof (fed_inv _ _ _ Hfed Hinv) as Hinv1.
    destruct (run_inv _ _ _ _ _ Hinv1 Hrun) as [(_ & _ & HD) Hend].
    specialize (Hend eq_refl). cbn [m_xzbuf m_xzdec] in HD.
    destruct s' as [d' b']. cbn [m_xzbuf m_xzdec] in *.
    rewrite Hend in HD. rewrite app_nil_r in HD. auto.
  - right; right. split; [exact Hr|].
    pose proof (fed_inv _ _ _ Hfed Hinv) as Hinv1.
    destruct (run_inv _ _ _ _ _ Hinv1 Hrun) as [(_ & _ & HD) _].
    destruct s' as [d' b']. exact HD.
Qed.

(** C6, as the code has it.  Whatever the sizes of the pulls (each at
    least one byte), the bytes the caller takes are the first bytes of
    the stream, in order.  When every request is served they are followed
    by what is still pending.  When the pulls end at end of file, the
    stream is what the caller took followed by what the last call left in
    its buffer: those bytes are emitted and not delivered. *)
Theorem pull_all_prefix (reqs : list (list Z)) :
  forall (fuel : nat) (s s' : xz_state xz_dec) (got : list Z)
         (stop : pull_stop),
  Forall (fun buf => 0 < size buf < 2 ^ 63) reqs ->
  pull_all xz_dec xz_dec_run fuel reqs s = Some (got, stop, s') ->
  (exists rest, left_in s = got ++ rest)
  /\ (stop = Served ->
      left_in s = got ++ left_in s'
      /\ size got = fold_right (fun buf n => size buf + n) 0 reqs)
  /\ (stop = AtEof -> left_in s = got ++ emitted s').
Proof.
  induction reqs as [|buf reqs IH]; intros fuel s s' got stop Hreqs;
    cbn [pull_all].
  - intros [= <- <- <-]. split; [exists (left_in s); reflexivity|].
    split; [intros _; split; reflexivity|discriminate].
  - inversion Hreqs as [|? ? Hbuf Hrest]; subst.
    destruct (xz_read xz_dec xz_dec_run fuel buf (size buf) s)
      as [[r s1]|] eqn:Hread; [|discriminate].
    destruct (xz_read_stream _ _ _ _ _ Hbuf Hread)
      as [(-> & HD)|[(-> & HD & Hnil)|(-> & HD)]].
    + replace (size buf =? 0) with false by lia.
      destruct (pull_all xz_dec xz_dec_run fuel reqs s1)
        as [[[got1 stop1] s2]|] eqn:Hpull; [|discriminate].
      intros [= <- <- <-].
      destruct (IH _ _ _ _ _ Hrest Hpull) as ([rest Hpre] & Hserved & Heof).
      set (chunk := firstn (Z.to_nat (size buf)) (out_buf (m_xzbuf s1))) in *.
      assert (size chunk = size buf) as Hchunk.
      { assert (length (chunk ++ left_in s1)
                = length (left_in s)) as Hlen by (rewrite HD; reflexivity).
        unfold chunk, size in *. rewrite length_firstn.
        destruct (Nat.le_gt_cases (Z.to_nat (Z.of_nat (length buf)))
                    (length (out_buf (m_xzbuf s1)))) as [Hle|Hgt].
        - rewrite Nat.min_l by assumption. lia.
        - exfalso.
          pose proof (entered_inv s buf) as Hinv.
          unfold xz_read in Hread.
          destruct (loop_ends _ _ _ _ _ _ _ Hread)
            as [(_ & Hfed & Hfull)|[(Hr & _)|(Hr & _)]];
            [|injection Hr as Hr; unfold size in *; lia|discriminate Hr].
          destruct (fed_inv _ _ _ Hfed Hinv) as (Hpos & Hsz & _).
          pose proof (fed_out_size _ _ _ Hfed Hinv) as Hsame.
          cbn [entered m_xzbuf set_out out_size] in Hsame.
          unfold size in *. lia. }
      split; [exists rest; rewrite HD, Hpre; apply app_assoc|].
      split.
      * intros Hs. destruct (Hserved Hs) as [Heq Hsize].
        split; [rewrite HD, Heq; apply app_assoc|].
        cbn [fold_right]. unfold size in *. rewrite length_app. lia.
      * intros He. rewrite HD, (Heof He). apply app_assoc.
    + change (0 =? 0) with true. cbv iota. intros [= <- <- <-].
      split; [exists (left_in s); reflexivity|].
      split; [discriminate|]. intros _. exact HD.
    + intros [= <- <- <-]. split; [exists (left_in s); reflexivity|].
      split; discriminate.
Qed.

End Streaming.

(** *** The stored decoder keeps the library's promises *)

Lemma stored_pending_out d b buf len :
  stored_pending d (set_out b buf len) = stored_pending d b.
Proof. reflexivity. Qed.

Lemma stored_pending_advance (input : list Z) (pos sz : Z) (k : nat) :
  (k <= length (firstn (Z.to_nat (sz - pos)) (tail_at input pos)))%nat ->
  firstn (Z.to_nat (sz - (pos + Z.of_nat k))) (tail_at input (pos + Z.of_nat k))
  = skipn k (firstn (Z.to_nat (sz - pos)) (tail_at input pos)).
Proof.
  unfold tail_at. intros Hk. destruct (pos <? 0) eqn:Epos.
  - rewrite firstn_nil in Hk. cbn [length] in Hk.
    assert (k = 0%nat) as -> by lia. rewrite Z.add_0_r, Epos.
    rewrite !firstn_nil. reflexivity.
  - replace (pos + Z.of_nat k <? 0) with false by lia.
    rewrite length_firstn in Hk.
    assert (k <= Z.to_nat (sz - pos))%nat as HkN
      by (etransitivity; [exact Hk|apply Nat.le_min_l]).
    replace (Z.to_nat (pos + Z.of_nat k)) with (k + Z.to_nat pos)%nat by lia.
    rewrite <- skipn_skipn, firstn_skipn_comm. f_equal. f_equal. lia.
Qed.

Lemma stored_emits : emits_stream stored_run stored_pending.
Proof.
  intros d b xr d' b' Hrun Hpos Hsz. unfold stored_run in Hrun.
  set (avail := stored_pending d b) in *.
  set (e := firstn (Z.to_nat (out_size b - out_pos b)) avail) in *.
  injection Hrun as Hxr <- <-. exists e.
  assert (length e <= length avail)%nat as Hle
    by (unfold e; rewrite length_firstn; apply Nat.le_min_r).
  assert (stored_pending d
            {| in_buf := in_buf b; in_pos := in_pos b + size e;
               in_size := in_size b;
               out_buf := firstn (Z.to_nat (out_pos b)) (out_buf b) ++ e
                          ++ skipn (Z.to_nat (out_pos b) + length e) (out_buf b);
               out_pos := out_pos b + size e; out_size := out_size b |}
          = skipn (length e) avail) as Hleft.
  { unfold stored_pending at 1. cbn [in_buf in_pos in_size]. unfold size.
    apply stored_pending_advance. exact Hle. }
  rewrite Hleft. cbn [out_pos out_size out_buf].
  split; [unfold e; symmetry; apply firstn_skipn_own|].
  split; [reflexivity|].
  split.
  { unfold size, e. rewrite length_firstn.
    pose proof (Nat.le_min_l (Z.to_nat (out_size b - out_pos b)) (length avail)).
    lia. }
  split; [reflexivity|]. split; [reflexivity|].
  intros ->. destruct (length e =? length avail)%nat eqn:E; [|discriminate].
  apply Nat.eqb_eq in E. rewrite E. apply skipn_all.
Qed.

Lemma stored_frame d b xr d' b' :
  stored_run d b = (xr, d', b') ->
  out_pos b <= out_size b ->
  out_size b' = out_size b /\ out_pos b' <= out_size b'.
Proof.
  unfold stored_run. intros [= _ _ <-] Hle. cbn [out_size out_pos].
  split; [reflexivity|]. unfold size. rewrite length_firstn.
  pose proof (Nat.le_min_l (Z.to_nat (out_size b - out_pos b))
                (length (stored_pending d b))).
  lia.
Qed.

Lemma stored_progress d b d' b' :
  stored_run d b = (XZ_OK, d', b') ->
  out_pos b < out_size b ->
  (stored_mu d' b' < stored_mu d b)%nat.
Proof.
  unfold stored_run, stored_mu.
  set (avail := stored_pending d b).
  set (e := firstn (Z.to_nat (out_size b - out_pos b)) avail).
  intros Hrun Hlt. injection Hrun as Hxr <- <-.
  assert (length e <= length avail)%nat as Hle
    by (unfold e; rewrite length_firstn; apply Nat.le_min_r).
  unfold stored_pending at 1. cbn [in_buf in_pos in_size]. unfold size.
  rewrite stored_pending_advance by exact Hle. fold avail.
  rewrite length_skipn.
  destruct (length e =? length avail)%nat eqn:E; [discriminate|].
  apply Nat.eqb_neq in E.
  assert (length e = Z.to_nat (out_size b - out_pos b)) as He.
  { unfold e in *. rewrite length_firstn in *.
    destruct (Nat.le_gt_cases (Z.to_nat (out_size b - out_pos b)) (length avail)).
    - apply Nat.min_l. assumption.
    - rewrite Nat.min_r in E by lia. contradiction. }
  change (firstn (Z.to_nat (in_size b - in_pos b))
            (tail_at (in_buf b) (in_pos b))) with avail.
  lia.
Qed.

Lemma xz_read_outcomes_witness :
  (exists fuel res,
     xz_read unit stored_run fuel [0; 0] 2 stored_five = Some res)
  /\ xz_read unit stored_run 10 [0; 0] 2 stored_five
     = Some (Ok 2, mk_xz_state tt (mk_xz_buf [1; 2; 3; 4; 5] 2 5 [1; 2] 2 2))
  /\ fed unit stored_run
       (mk_xz_state tt (mk_xz_buf [1; 2; 3; 4; 5] 0 5 [0; 0] 0 2))
       (mk_xz_state tt (mk_xz_buf [1; 2; 3; 4; 5] 2 5 [1; 2] 2 2))
  /\ exists d b,
       stored_run tt (mk_xz_buf [1; 2; 3; 4; 5] 0 5 [0; 0] 0 2) = (XZ_OK, d, b)
       /\ fed unit stored_run (mk_xz_state d b)
            (mk_xz_state tt (mk_xz_buf [1; 2; 3; 4; 5] 2 5 [1; 2] 2 2)).
Proof.
  assert (size [0; 0] < 2 ^ 63) as Hlen by (vm_compute; reflexivity).
  destruct (xz_read_outcomes unit stored_run stored_mu
              stored_frame stored_progress [0; 0] stored_five Hlen)
    as [Hends Hways].
  split; [exact Hends|]. split; [reflexivity|].
  destruct (Hways 10%nat (Ok 2)
              (mk_xz_state tt (mk_xz_buf [1; 2; 3; 4; 5] 2 5 [1; 2] 2 2))
              eq_refl)
    as [(_ & Hfed & _ & _ & Hfirst)|[(Hr & _)|(Hr & _)]].
  - split; [exact Hfed|]. apply Hfirst. vm_compute. reflexivity.
  - discriminate Hr.
  - discriminate Hr.
Defined.

Lemma xz_read_all_or_nothing_witness :
  exists fuel,
    xz_read unit stored_run fuel [0; 0] 2 stored_one
    = Some (Ok 0, mk_xz_state tt
                    (mk_xz_buf [5] 1 1 [5; 0] 1 2))
    /\ pull_all unit stored_run fuel [[0; 0]] stored_one
       = Some ([], AtEof, mk_xz_state tt (mk_xz_buf [5] 1 1 [5; 0] 1 2)).
Proof.
  refine (proj2 (xz_read_all_or_nothing unit stored_run [0; 0] stored_one _)
            (entered stored_one [0; 0] 2) tt (mk_xz_buf [5] 1 1 [5; 0] 1 2)
            _ _ _).
  - vm_compute. reflexivity.
  - apply fed_refl.
  - vm_compute. discriminate.
  - reflexivity.
Defined.

Lemma pull_all_prefix_witness :
  stored_pending tt (m_xzbuf stored_five) = [1; 2; 3; 4] ++ [5].
Proof.
  refine (proj2 (proj2 (pull_all_prefix unit stored_run stored_pending
                          stored_pending_out stored_emits
                          [[0; 0]; [0; 0]; [0; 0]] 10%nat stored_five
                          (mk_xz_state tt (mk_xz_buf [1; 2; 3; 4; 5] 5 5 [5; 0] 1 2))
                          [1; 2; 3; 4] AtEof _ _)) eq_refl).
  - repeat constructor.
  - reflexivity.
Defined.

(** C6, as stated, fails.  The stream of [stored_five] is 1, 2, 3, 4, 5: a
    single call with room for eight bytes has the decoder emit exactly
    those.  Pulled two bytes at a time, or one byte at a time, the caller
    gets 1, 2, 3, 4: the call in which the decoder emits 5 and signals the
    end of the stream returns 0. *)
Lemma pull_all_drops_tail :
  option_map (fun x => emitted (snd x))
    (xz_read unit stored_run 10 (repeat 0 8) 8 stored_five)
  = Some [1; 2; 3; 4; 5]
  /\ option_map (fun x => fst (fst x))
       (pull_all unit stored_run 10 [[0; 0]; [0; 0]; [0; 0]] stored_five)
     = Some [1; 2; 3; 4]
  /\ option_map (fun x => fst (fst x))
       (pull_all unit stored_run 10 [[0]; [0]; [0]; [0]; [0]; [0]] stored_five)
     = Some [1; 2; 3; 4]
  /\ option_map (fun x => snd (fst x))
       (pull_all unit stored_run 10 [[0; 0]; [0; 0]; [0; 0]] stored_five)
     = Some AtEof.
Proof.
  repeat split; reflexivity.
Qed.

(** * Further properties of the code *)

(** ** The views *)

Ltac short_image :=
  repeat split; intros;
  try discriminate; try (intro; discriminate); try (exfalso; lia).

Ltac eval_load8 :=
  repeat match goal with
  | |- context [load8 ?l ?a] =>
      let r := eval cbv in (load8 l a) in change (load8 l a) with r
  end.

(** X1. [elf_is_valid] answers true exactly for the images that begin with
    the four magic bytes; it never ends the process, and it answers for
    every image of four bytes or more. *)
Theorem elf_is_valid_iff (ehdr : image) :
  (elf_is_valid ehdr = Ok true
   <-> firstn 4 ehdr = [ELFMAG0; ELFMAG1; ELFMAG2; ELFMAG3])
  /\ (forall s, elf_is_valid ehdr <> Fatal s)
  /\ ((4 <= length ehdr)%nat -> exists b, elf_is_valid ehdr = Ok b).
Proof.
  unfold elf_is_valid, e_ident.
  destruct ehdr as [|b0 [|b1 [|b2 [|b3 rest]]]]; cbn [firstn length];
    eval_load8; cbn [rbind].
  - short_image.
  - destruct (b0 =? ELFMAG0); cbn [negb rbind]; short_image.
  - destruct (b0 =? ELFMAG0); cbn [negb rbind];
      [destruct (b1 =? ELFMAG1); cbn [negb rbind]|]; short_image.
  - destruct (b0 =? ELFMAG0); cbn [negb rbind];
      [destruct (b1 =? ELFMAG1); cbn [negb rbind];
       [destruct (b2 =? ELFMAG2); cbn [negb rbind]|]|]; short_image.
  - destruct (b0 =? ELFMAG0) eqn:E0; cbn [negb rbind];
      [destruct (b1 =? ELFMAG1) eqn:E1; cbn [negb rbind];
       [destruct (b2 =? ELFMAG2) eqn:E2; cbn [negb rbind]|]|].
    + split; [|split; [discriminate|eauto]].
      split.
      * intros [= E3]. repeat f_equal; lia.
      * intros [= -> -> -> ->]. reflexivity.
    + split; [|split; [discriminate|eauto]].
      split; [discriminate|]. intros [= _ _ -> _]. discriminate.
    + split; [|split; [discriminate|eauto]].
      split; [discriminate|]. intros [= _ -> _ _]. discriminate.
    + split; [|split; [discriminate|eauto]].
      split; [discriminate|]. intros [= -> _ _ _]. discriminate.
Qed.

Lemma strcmp_from_iff (name : cstring) :
  cstring_ok name = true ->
  forall l, strcmp_from l name = Ok true <-> cstring_from l = Ok name.
Proof.
  induction name as [|c name IH]; intros Hok l.
  - destruct l as [|b r]; cbn [strcmp_from cstring_from].
    + split; discriminate.
    + destruct (b =? 0) eqn:E; [split; reflexivity|].
      split; [discriminate|].
      destruct (cstring_from r); cbn [rbind]; discriminate.
  - cbn [cstring_ok forallb] in Hok.
    apply andb_prop in Hok as [Hc Hname]. apply andb_prop in Hc as [_ Hc].
    fold (cstring_ok name) in Hname. specialize (IH Hname).
    destruct l as [|b r]; cbn [strcmp_from cstring_from].
    + split; discriminate.
    + destruct (b =? c) eqn:Ebc.
      * assert (b = c) as -> by lia.
        replace (c =? 0) with false by lia.
        rewrite IH. destruct (cstring_from r) as [s| |]; cbn [rbind].
        -- split; [intros [= ->]; reflexivity|intros [= ->]; reflexivity].
        -- split; discriminate.
        -- split; discriminate.
      * split; [discriminate|].
        destruct (b =? 0); [discriminate|].
        destruct (cstring_from r); cbn [rbind]; try discriminate.
        intros [= -> _]. lia.
Qed.

(** X2. [strcmp] against a caller's string: the comparison of the string
    at offset [a] with [name] answers "equal" exactly when the bytes from
    [a] to the first NUL are [name]; it never ends the process. *)
Theorem strcmp_eq_reads (m : image) (a : Z) (name : cstring) :
  cstring_ok name = true ->
  (strcmp_eq m a name = Ok true <-> cstring_at m a = Ok name)
  /\ forall s, strcmp_eq m a name <> Fatal s.
Proof.
  intros Hok. split.
  - apply strcmp_from_iff, Hok.
  - intros s. apply strcmp_from_not_fatal.
Qed.

Lemma strcmp_eq_reads_witness :
  strcmp_eq target_image (376 + 11) dot_dynamic = Ok true
  <-> cstring_at target_image (376 + 11) = Ok dot_dynamic.
Proof.
  exact (proj1 (strcmp_eq_reads target_image (376 + 11) dot_dynamic eq_refl)).
Defined.

Lemma proghdr_scan_first ehdr ptype n : forall ph r,
  proghdr_scan ehdr ptype ph n = Ok r ->
  match r with
  | Some found =>
      exists i, 0 <= i < Z.of_nat n
                /\ found = ph + sizeof_Elf_Phdr * i
                /\ p_type ehdr found = Ok ptype
                /\ forall j, 0 <= j < i ->
                     exists t, p_type ehdr (ph + sizeof_Elf_Phdr * j) = Ok t
                               /\ t <> ptype
  | None =>
      forall j, 0 <= j < Z.of_nat n ->
        exists t, p_type ehdr (ph + sizeof_Elf_Phdr * j) = Ok t /\ t <> ptype
  end.
Proof.
  induction n as [|n IH]; intros ph r; cbn [proghdr_scan].
  - intros [= <-]. intros j Hj. lia.
  - destruct (p_type ehdr ph) as [t| |] eqn:Et; cbn [rbind]; try discriminate.
    destruct (t =? ptype) eqn:E.
    + intros [= <-]. exists 0. rewrite Z.mul_0_r, Z.add_0_r.
      repeat split; try lia. rewrite Et. f_equal. lia.
    + intros Hr. specialize (IH _ _ Hr).
      assert (forall j, ph + sizeof_Elf_Phdr + sizeof_Elf_Phdr * j
                        = ph + sizeof_Elf_Phdr * (j + 1)) as Hshift
        by (intros; lia).
      assert (forall j, 0 <= j < 1 ->
                exists t', p_type ehdr (ph + sizeof_Elf_Phdr * j) = Ok t'
                           /\ t' <> ptype) as Hhead.
      { intros j Hj. assert (j = 0) as -> by lia.
        rewrite Z.mul_0_r, Z.add_0_r. exists t. split; [exact Et|lia]. }
      destruct r as [found|].
      * destruct IH as (i & Hi & Hfound & Htype & Hbefore).
        exists (i + 1). rewrite <- Hshift.
        repeat split; try lia; try assumption.
        intros j Hj. destruct (Z.eq_dec j 0) as [->|Hne]; [apply Hhead; lia|].
        replace j with ((j - 1) + 1) by lia. rewrite <- Hshift.
        apply Hbefore. lia.
      * intros j Hj. destruct (Z.eq_dec j 0) as [->|Hne]; [apply Hhead; lia|].
        replace j with ((j - 1) + 1) by lia. rewrite <- Hshift.
        apply IH. lia.
Qed.

(** X3. [elf_get_proghdr_by_type] gives the first program header of the
    type asked for: the header it returns is one of the [e_phnum] entries
    of the table at [e_phoff], has the type, and no entry before it has;
    and when it returns NULL, none of the [e_phnum] entries has the type. *)
Theorem elf_get_proghdr_by_type_first (ehdr : image) (ptype : Z) :
  forall r,
  elf_get_proghdr_by_type ehdr ptype = Ok r ->
  exists phoff n,
    e_phoff ehdr = Ok phoff /\ e_phnum ehdr = Ok n
    /\ e_phentsize ehdr = Ok sizeof_Elf_Phdr
    /\ match r with
       | Some ph =>
           exists i, 0 <= i < n
                     /\ ph = phoff + sizeof_Elf_Phdr * i
                     /\ p_type ehdr ph = Ok ptype
                     /\ forall j, 0 <= j < i ->
                          exists t,
                            p_type ehdr (phoff + sizeof_Elf_Phdr * j) = Ok t
                            /\ t <> ptype
       | None =>
           forall j, 0 <= j < n ->
             exists t, p_type ehdr (phoff + sizeof_Elf_Phdr * j) = Ok t
                       /\ t <> ptype
       end.
Proof.
  intros r. unfold elf_get_proghdr_by_type.
  destruct (e_phoff ehdr) as [phoff| |]; cbn [rbind]; try discriminate.
  destruct (e_phentsize ehdr) as [v| |]; cbn [rbind]; try discriminate.
  destruct (v =? sizeof_Elf_Phdr) eqn:Ev; cbn [negb]; [|discriminate].
  destruct (e_phnum ehdr) as [n| |]; cbn [rbind]; try discriminate.
  intros Hscan. apply proghdr_scan_first in Hscan. unfold ptr_add in Hscan.
  exists phoff, n. split; [reflexivity|]. split; [reflexivity|].
  split; [f_equal; lia|].
  destruct r as [ph|].
  - destruct Hscan as (i & Hi & Hrest). exists i. split; [lia|exact Hrest].
  - intros j Hj. apply Hscan. lia.
Qed.

Lemma elf_get_proghdr_by_type_first_witness :
  exists phoff n,
    e_phoff target_image = Ok phoff /\ e_phnum target_image = Ok n
    /\ e_phentsize target_image = Ok sizeof_Elf_Phdr
    /\ exists i, 0 <= i < n
                 /\ 64 = phoff + sizeof_Elf_Phdr * i
                 /\ p_type target_image 64 = Ok PT_INTERP
                 /\ forall j, 0 <= j < i ->
                      exists t,
                        p_type target_image (phoff + sizeof_Elf_Phdr * j) = Ok t
                        /\ t <> PT_INTERP.
Proof.
  exact (elf_get_proghdr_by_type_first target_image PT_INTERP (Some 64)
           eq_refl).
Defined.

Lemma section_scan_by_name_first ehdr name strtab n :
  cstring_ok name = true ->
  forall sh r,
  section_scan ehdr (Some name) SHT_NOT_USED strtab sh n = Ok r ->
  match r with
  | Some found =>
      exists i, 0 <= i < Z.of_nat n
                /\ found = sh + sizeof_Elf_Shdr * i
                /\ section_named ehdr strtab found name
                /\ forall j, 0 <= j < i ->
                     section_not_named ehdr strtab
                       (sh + sizeof_Elf_Shdr * j) name
  | None =>
      forall j, 0 <= j < Z.of_nat n ->
        section_not_named ehdr strtab (sh + sizeof_Elf_Shdr * j) name
  end.
Proof.
  intros Hok. induction n as [|n IH]; intros sh r; cbn [section_scan].
  - intros [= <-]. intros j Hj. lia.
  - destruct (sh_name ehdr sh) as [nm| |] eqn:Enm; cbn [rbind];
      try discriminate.
    destruct (strcmp_eq ehdr (strtab + nm) name) as [[|]| |] eqn:Ecmp;
      cbn [rbind]; try discriminate.
    + intros [= <-]. exists 0. rewrite Z.mul_0_r, Z.add_0_r.
      repeat split; try lia.
      exists nm. split; [exact Enm|].
      apply (proj1 (strcmp_from_iff name Hok _)). exact Ecmp.
    + change (negb (SHT_NOT_USED =? SHT_NOT_USED)) with false.
      cbn [rbind]. intros Hr. specialize (IH _ _ Hr).
      assert (forall j, sh + sizeof_Elf_Shdr + sizeof_Elf_Shdr * j
                        = sh + sizeof_Elf_Shdr * (j + 1)) as Hshift
        by (intros; lia).
      assert (forall j, 0 <= j < 1 ->
                section_not_named ehdr strtab (sh + sizeof_Elf_Shdr * j) name)
        as Hhead.
      { intros j Hj. assert (j = 0) as -> by lia.
        rewrite Z.mul_0_r, Z.add_0_r. exists nm. split; assumption. }
      destruct r as [found|].
      * destruct IH as (i & Hi & Hfound & Hnamed & Hbefore).
        exists (i + 1). rewrite <- Hshift.
        repeat split; try lia; try assumption.
        intros j Hj. destruct (Z.eq_dec j 0) as [->|Hne]; [apply Hhead; lia|].
        replace j with ((j - 1) + 1) by lia. rewrite <- Hshift.
        apply Hbefore. lia.
      * intros j Hj. destruct (Z.eq_dec j 0) as [->|Hne]; [apply Hhead; lia|].
        replace j with ((j - 1) + 1) by lia. rewrite <- Hshift.
        apply IH. lia.
Qed.

(** X4. [elf_get_section_by_name] gives the first section of the name
    asked for: the header it returns is one of the [e_shnum] entries of the
    table at [e_shoff], its name in the section-name string table reads as
    the name asked for, and [strcmp] tells the name of every entry before
    it from that name; and when it returns NULL, [strcmp] tells the names
    of all [e_shnum] entries from it. *)
Theorem elf_get_section_by_name_first (ehdr : image) (name : cstring) :
  cstring_ok name = true ->
  forall r,
  elf_get_section_by_name ehdr name = Ok r ->
  exists shoff ndx strtab n,
    e_shoff ehdr = Ok shoff /\ e_shstrndx ehdr = Ok ndx
    /\ sh_offset ehdr (shoff + sizeof_Elf_Shdr * ndx) = Ok strtab
    /\ e_shnum ehdr = Ok n
    /\ match r with
       | Some sh =>
           exists i, 0 <= i < n
                     /\ sh = shoff + sizeof_Elf_Shdr * i
                     /\ section_named ehdr strtab sh name
                     /\ forall j, 0 <= j < i ->
                          section_not_named ehdr strtab
                            (shoff + sizeof_Elf_Shdr * j) name
       | None =>
           forall j, 0 <= j < n ->
             section_not_named ehdr strtab (shoff + sizeof_Elf_Shdr * j) name
       end.
Proof.
  intros Hok r. unfold elf_get_section_by_name, elf_get_section.
  destruct (e_shoff ehdr) as [shoff| |] eqn:E1; cbn [rbind]; try discriminate.
  destruct (e_shstrndx ehdr) as [ndx| |] eqn:E2; cbn [rbind];
    try discriminate.
  unfold ptr_add. change (0 + shoff) with shoff.
  destruct (sh_offset ehdr (shoff + sizeof_Elf_Shdr * ndx)) as [strtab| |]
    eqn:E3; cbn [rbind]; try discriminate.
  change (0 + strtab) with strtab.
  destruct (e_shentsize ehdr) as [v| |]; cbn [rbind]; try discriminate.
  destruct (v =? sizeof_Elf_Shdr); cbn [negb]; [|discriminate].
  destruct (e_shnum ehdr) as [n| |] eqn:E4; cbn [rbind]; try discriminate.
  intros Hscan. apply (section_scan_by_name_first _ _ _ _ Hok) in Hscan.
  exists shoff, ndx, strtab, n.
  split; [reflexivity|]. split; [reflexivity|]. split; [exact E3|].
  split; [reflexivity|].
  destruct r as [sh|].
  - destruct Hscan as (i & Hi & Hrest). exists i. split; [lia|exact Hrest].
  - intros j Hj. apply Hscan. lia.
Qed.

Lemma elf_get_section_by_name_first_witness :
  exists shoff ndx strtab n,
    e_shoff target_image = Ok shoff /\ e_shstrndx target_image = Ok ndx
    /\ sh_offset target_image (shoff + sizeof_Elf_Shdr * ndx) = Ok strtab
    /\ e_shnum target_image = Ok n
    /\ exists i, 0 <= i < n
                 /\ 312 = shoff + sizeof_Elf_Shdr * i
                 /\ section_named target_image strtab 312 dot_dynstr
                 /\ forall j, 0 <= j < i ->
                      section_not_named target_image strtab
                        (shoff + sizeof_Elf_Shdr * j) dot_dynstr.
Proof.
  exact (elf_get_section_by_name_first target_image dot_dynstr eq_refl
           (Some 312) eq_refl).
Defined.

(** ** The patcher *)

(** X5. [set_rpath], the sections and the DT_RPATH entry being found and
    its value not beyond the size of .dynstr: with the string it names
    [old_len] bytes long, the operation ends fatally, nothing written, when
    the new path is longer; otherwise it succeeds, the mapping keeps its
    length, the string reads back as the new path, and no byte outside the
    new path and its NUL changes (so none outside the old string). *)
Theorem set_rpath_spec
  (ehdr : image) (new_rpath : cstring)
  (dynoff dynsize stroff strsz dt val old_len : Z) :
  cstring_ok new_rpath = true ->
  dynamic_sections ehdr dynoff dynsize stroff strsz ->
  dyn_scan ehdr dynoff 0 (Z.to_nat (dynsize / sizeof_Elf_Dyn)) None
  = Ok (Some dt) ->
  d_val ehdr dt = Ok val ->
  val <= strsz ->
  strlen ehdr (stroff + val) = Ok old_len ->
  (strlen_c new_rpath > old_len ->
   set_rpath new_rpath ehdr = (Fatal 2, ehdr))
  /\ (strlen_c new_rpath <= old_len ->
      exists ehdr',
        set_rpath new_rpath ehdr = (Ok tt, ehdr')
        /\ size ehdr' = size ehdr
        /\ cstring_at ehdr' (stroff + val) = Ok new_rpath
        /\ forall a,
             a < stroff + val \/ stroff + val + strlen_c new_rpath < a ->
             load8 ehdr' a = load8 ehdr a).
Proof.
  intros Hnew Hsec Hscan Hval Hle Hold.
  assert (set_rpath new_rpath ehdr
          = if strlen_c new_rpath >? old_len then (Fatal 2, ehdr)
            else strcpy (stroff + val) new_rpath ehdr) as Hrun.
  { rewrite (set_rpath_located _ _ _ _ _ _ Hsec). unfold set_rpath_in.
    rewrite bind_view, Hscan. rewrite bind_view, Hval.
    replace (val >? strsz) with false by lia. unfold ptr_add.
    rewrite bind_view, Hold.
    destruct (strlen_c new_rpath >? old_len); reflexivity. }
  destruct (strlen_inside _ _ _ Hold) as (Hrp & Hlen0 & Hend).
  split; intros Hlen; rewrite Hrun.
  - replace (strlen_c new_rpath >? old_len) with true by lia. reflexivity.
  - replace (strlen_c new_rpath >? old_len) with false by lia.
    unfold strlen_c in *. unfold strcpy.
    assert (Z.of_nat (length (new_rpath ++ [0]))
            = Z.of_nat (length new_rpath) + 1) as Hl
      by (rewrite length_app; simpl; lia).
    pose proof (store_bytes_ok (stroff + val) (new_rpath ++ [0]) ehdr) as Hst.
    rewrite Hl in Hst. specialize (Hst ltac:(lia) ltac:(lia)).
    eexists. split; [exact Hst|].
    split; [eapply store_bytes_size; exact Hst|].
    pose proof (store_bytes_tail _ _ _ _ Hst) as Ht.
    split.
    + unfold cstring_at. rewrite Ht, <- app_assoc. simpl.
      apply cstring_from_app, Hnew.
    + intros a Ha. eapply store_bytes_other; [exact Hst|]. lia.
Qed.

Lemma set_rpath_spec_witness :
  exists ehdr',
    set_rpath short_rpath target_image = (Ok tt, ehdr')
    /\ size ehdr' = size target_image
    /\ cstring_at ehdr' (468 + 6) = Ok short_rpath.
Proof.
  destruct (set_rpath_spec target_image short_rpath 420 48 468 15 436 6 8)
    as [_ Hfit]; try reflexivity.
  - exists 248, 312. repeat split; reflexivity.
  - vm_compute. discriminate.
  - destruct Hfit as (ehdr' & Hrun & Hsize & Hstr & _).
    + vm_compute. discriminate.
    + exists ehdr'. auto.
Defined.

Lemma load_ext n : forall m m2 a,
  (forall x, a <= x < a + Z.of_nat n -> load8 m2 x = load8 m x) ->
  load n m2 a = load n m a.
Proof.
  induction n as [|n IH]; intros m m2 a Hsame; [reflexivity|].
  rewrite !load_S. rewrite (Hsame a) by lia.
  rewrite (IH m m2 (a + 1)) by (intros x Hx; apply Hsame; lia).
  reflexivity.
Qed.

Lemma proghdr_scan_ext ehdr ehdr2 ptype n : forall ph,
  (forall x, ph <= x < ph + sizeof_Elf_Phdr * Z.of_nat n ->
             load8 ehdr2 x = load8 ehdr x) ->
  proghdr_scan ehdr2 ptype ph n = proghdr_scan ehdr ptype ph n.
Proof.
  induction n as [|n IH]; intros ph Hsame; cbn [proghdr_scan]; [reflexivity|].
  unfold p_type, sizeof_Elf_Phdr in *.
  rewrite (load_ext 4 ehdr ehdr2 ph) by (intros x Hx; apply Hsame; lia).
  destruct (load 4 ehdr ph) as [t| |]; cbn [rbind]; try reflexivity.
  destruct (t =? ptype); [reflexivity|].
  apply IH. intros x Hx. apply Hsame. lia.
Qed.

(** The lookup of a program header reads the ELF header and the program
    header table, and nothing else. *)
Lemma elf_get_proghdr_by_type_ext ehdr ehdr2 ptype phoff phnum :
  e_phoff ehdr = Ok phoff ->
  e_phnum ehdr = Ok phnum ->
  (forall x, 0 <= x < sizeof_Elf_Ehdr -> load8 ehdr2 x = load8 ehdr x) ->
  (forall x, phoff <= x < phoff + sizeof_Elf_Phdr * phnum ->
             load8 ehdr2 x = load8 ehdr x) ->
  elf_get_proghdr_by_type ehdr2 ptype = elf_get_proghdr_by_type ehdr ptype.
Proof.
  intros Hoff Hnum Hhdr Htab. unfold elf_get_proghdr_by_type.
  unfold e_phoff, e_phentsize, e_phnum, sizeof_Elf_Ehdr in *.
  rewrite (load_ext 8 ehdr ehdr2 32) by (intros x Hx; apply Hhdr; lia).
  rewrite (load_ext 2 ehdr ehdr2 54) by (intros x Hx; apply Hhdr; lia).
  rewrite (load_ext 2 ehdr ehdr2 56) by (intros x Hx; apply Hhdr; lia).
  rewrite Hoff, Hnum. cbn [rbind].
  destruct (load 2 ehdr 54) as [v| |]; cbn [rbind]; try reflexivity.
  destruct (negb (v =? sizeof_Elf_Phdr)); [reflexivity|].
  apply proghdr_scan_ext. unfold ptr_add. intros x Hx. apply Htab.
  unfold sizeof_Elf_Phdr in *. lia.
Qed.

Lemma load8_tail m a i :
  0 <= a ->
  load8 m (a + Z.of_nat i)
  = match nth_error (tail_at m a) i with
    | Some b => Ok b
    | None => OutOfBounds
    end.
Proof.
  intros Ha. unfold load8, tail_at.
  replace (a + Z.of_nat i <? 0) with false by lia.
  replace (a <? 0) with false by lia.
  rewrite nth_error_skipn. replace (Z.to_nat (a + Z.of_nat i))
    with (Z.to_nat a + i)%nat by lia.
  reflexivity.
Qed.

Lemma store_bytes_inside a bs m m' i b :
  store_bytes a bs m = (Ok tt, m') ->
  nth_error bs i = Some b ->
  load8 m' (a + Z.of_nat i) = Ok b.
Proof.
  intros Hst Hnth.
  assert (0 <= a) as Ha.
  { unfold store_bytes in Hst.
    destruct ((0 <=? a) && (a + Z.of_nat (length bs) <=? size m)) eqn:E;
      [|discriminate].
    apply andb_prop in E as [E _]. lia. }
  rewrite load8_tail by exact Ha. rewrite (store_bytes_tail _ _ _ _ Hst).
  rewrite nth_error_app1 by (apply nth_error_Some; congruence).
  rewrite Hnth. reflexivity.
Qed.

Lemma store_bytes_twice a bs m m' :
  store_bytes a bs m = (Ok tt, m') -> store_bytes a bs m' = (Ok tt, m').
Proof.
  intros Hst. pose proof (store_bytes_size _ _ _ _ _ Hst) as Hsize.
  unfold store_bytes in *. rewrite Hsize.
  destruct ((0 <=? a) && (a + Z.of_nat (length bs) <=? size m)) eqn:E;
    [|discriminate].
  apply andb_prop in E as [E1%Z.leb_le E2%Z.leb_le]. unfold size in *.
  injection Hst as <-. f_equal.
  rewrite firstn_app, length_firstn_le by lia.
  rewrite Nat.sub_diag, firstn_O, app_nil_r.
  rewrite firstn_firstn, Nat.min_id.
  f_equal. f_equal.
  rewrite skipn_app, length_firstn_le by lia.
  rewrite (skipn_all2 (firstn (Z.to_nat a) m))
    by (rewrite length_firstn_le; lia).
  replace (Z.to_nat a + length bs - Z.to_nat a)%nat with (length bs) by lia.
  rewrite skipn_app, Nat.sub_diag, skipn_all. reflexivity.
Qed.

Lemma cstring_ok_bytes s :
  cstring_ok s = true -> forallb byte_ok (s ++ [0]) = true.
Proof.
  intros H. rewrite forallb_app. apply andb_true_intro. split; [|reflexivity].
  unfold cstring_ok in H. rewrite forallb_forall in *.
  intros x Hx. specialize (H x Hx). apply andb_prop in H as [H _]. exact H.
Qed.

Lemma store_bytes_image_ok a bs m m' :
  image_ok m = true ->
  forallb byte_ok bs = true ->
  store_bytes a bs m = (Ok tt, m') ->
  image_ok m' = true.
Proof.
  intros Hok Hbs Hst. pose proof (store_bytes_size _ _ _ _ _ Hst) as Hsize.
  unfold image_ok in *. apply andb_prop in Hok as [Hbytes Hlt].
  apply andb_true_intro. split; [|rewrite Hsize; exact Hlt].
  unfold store_bytes in Hst.
  destruct ((0 <=? a) && (a + Z.of_nat (length bs) <=? size m));
    [|discriminate].
  injection Hst as <-. rewrite forallb_forall in *.
  intros x Hx. apply in_app_or in Hx as [Hx|Hx].
  - apply Hbytes. rewrite <- (firstn_skipn (Z.to_nat a) m).
    apply in_or_app. left. exact Hx.
  - apply in_app_or in Hx as [Hx|Hx]; [apply Hbs; exact Hx|].
    apply Hbytes. rewrite <- (firstn_skipn (Z.to_nat a + length bs) m).
    apply in_or_app. right. exact Hx.
Qed.

(** X6. [set_interp] can be run again.  Where the interpreter segment lies
    clear of the ELF header and of the program header table, the mapping a
    successful [set_interp] leaves still has its PT_INTERP header at the
    same place with the same offset and size, the interpreter reads back
    through it as the new path, and a second [set_interp] with the same
    path succeeds and changes nothing. *)
Theorem set_interp_again
  (ehdr ehdr' : image) (new_interp : cstring) (ph off sz phoff phnum : Z) :
  image_ok ehdr = true ->
  cstring_ok new_interp = true ->
  elf_get_proghdr_by_type ehdr PT_INTERP = Ok (Some ph) ->
  p_offset ehdr ph = Ok off ->
  p_filesz ehdr ph = Ok sz ->
  1 <= sz ->
  load8 ehdr (off + sz - 1) = Ok 0 ->
  e_phoff ehdr = Ok phoff ->
  e_phnum ehdr = Ok phnum ->
  sizeof_Elf_Ehdr <= off ->
  off + sz <= phoff \/ phoff + sizeof_Elf_Phdr * phnum <= off ->
  set_interp new_interp ehdr = (Ok tt, ehdr') ->
  elf_get_proghdr_by_type ehdr' PT_INTERP = Ok (Some ph)
  /\ p_offset ehdr' ph = Ok off
  /\ p_filesz ehdr' ph = Ok sz
  /\ cstring_at ehdr' off = Ok new_interp
  /\ set_interp new_interp ehdr' = (Ok tt, ehdr').
Proof.
  intros Hok Hnew Hph Hoff Hsz Hsz1 Hnul Hphoff Hphnum Hclear1 Hclear2 Hrun.
  destruct (set_interp_run ehdr new_interp ph off sz Hok Hph Hoff Hsz Hsz1 Hnul)
    as [Hoff0 Hrun1].
  rewrite Hrun1 in Hrun.
  destruct (strlen_c new_interp >? sz - 1) eqn:Hfit; [discriminate|].
  unfold strcpy in Hrun. unfold strlen_c in Hfit.
  assert (Z.of_nat (length (new_interp ++ [0]))
          = Z.of_nat (length new_interp) + 1) as Hl
    by (rewrite length_app; simpl; lia).
  assert (forall x, x < off \/ off + sz <= x -> load8 ehdr' x = load8 ehdr x)
    as Hout.
  { intros x Hx. eapply store_bytes_other; [exact Hrun|]. lia. }
  pose proof Hph as Hentry. unfold elf_get_proghdr_by_type in Hentry.
  rewrite Hphoff in Hentry. cbn [rbind] in Hentry.
  destruct (e_phentsize ehdr) as [v| |]; cbn [rbind] in Hentry;
    try discriminate.
  destruct (negb (v =? sizeof_Elf_Phdr)); [discriminate|].
  rewrite Hphnum in Hentry. cbn [rbind] in Hentry.
  apply proghdr_scan_first in Hentry.
  destruct Hentry as (i & Hi & Hphi & _). unfold ptr_add in Hphi.
  unfold sizeof_Elf_Phdr, sizeof_Elf_Ehdr in *.
  assert (elf_get_proghdr_by_type ehdr' PT_INTERP = Ok (Some ph)) as Hph'.
  { rewrite <- Hph.
    apply (elf_get_proghdr_by_type_ext ehdr ehdr' PT_INTERP phoff phnum);
      try assumption.
    - intros x Hx. apply Hout. unfold sizeof_Elf_Ehdr in *. lia.
    - intros x Hx. apply Hout. unfold sizeof_Elf_Phdr in *. lia. }
  assert (p_offset ehdr' ph = Ok off) as Hoff'.
  { rewrite <- Hoff. unfold p_offset. apply load_ext.
    intros x Hx. apply Hout. lia. }
  assert (p_filesz ehdr' ph = Ok sz) as Hsz'.
  { rewrite <- Hsz. unfold p_filesz. apply load_ext.
    intros x Hx. apply Hout. lia. }
  assert (cstring_at ehdr' off = Ok new_interp) as Hstr.
  { unfold cstring_at. rewrite (store_bytes_tail _ _ _ _ Hrun).
    rewrite <- app_assoc. simpl. apply cstring_from_app, Hnew. }
  split; [exact Hph'|]. split; [exact Hoff'|]. split; [exact Hsz'|].
  split; [exact Hstr|].
  assert (load8 ehdr' (off + sz - 1) = Ok 0) as Hnul'.
  { destruct (Z.eq_dec (sz - 1) (Z.of_nat (length new_interp))) as [Heq|Hne].
    - replace (off + sz - 1) with (off + Z.of_nat (length new_interp)) by lia.
      eapply store_bytes_inside; [exact Hrun|].
      rewrite nth_error_app2, Nat.sub_diag by lia. reflexivity.
    - rewrite <- Hnul. eapply store_bytes_other; [exact Hrun|]. lia. }
  assert (image_ok ehdr' = true) as Hok'.
  { eapply store_bytes_image_ok; [exact Hok| |exact Hrun].
    apply cstring_ok_bytes, Hnew. }
  destruct (set_interp_run ehdr' new_interp ph off sz
              Hok' Hph' Hoff' Hsz' Hsz1 Hnul') as [_ ->].
  unfold strlen_c. rewrite Hfit. unfold strcpy.
  apply (store_bytes_twice _ _ ehdr). exact Hrun.
Qed.

Lemma set_interp_again_witness :
  set_interp short_interp (snd (set_interp short_interp target_image))
  = (Ok tt, snd (set_interp short_interp target_image)).
Proof.
  refine (proj2 (proj2 (proj2 (proj2
            (set_interp_again target_image
               (snd (set_interp short_interp target_image))
               short_interp 64 404 16 64 1 _ _ _ _ _ _ _ _ _ _ _ _)))));
    try reflexivity.
  - vm_compute. discriminate.
  - vm_compute. discriminate.
  - right. vm_compute. discriminate.
Defined.

Lemma skipn_nth_error {A} (l : list A) : forall n x,
  nth_error l n = Some x -> skipn n l = x :: skipn (S n) l.
Proof.
  induction l as [|y l IH]; intros [|n] x; cbn; try discriminate.
  - intros [= ->]. reflexivity.
  - intros H. apply IH. exact H.
Qed.

(** Reading a string, one byte at a time. *)
Lemma cstring_at_step m a :
  cstring_at m a
  = match load8 m a with
    | Ok b => if b =? 0 then Ok []
              else do s <- cstring_at m (a + 1); Ok (b :: s)
    | _ => OutOfBounds
    end.
Proof.
  unfold cstring_at, load8, tail_at. destruct (a <? 0) eqn:Ea; [reflexivity|].
  replace (a + 1 <? 0) with false by lia.
  destruct (nth_error m (Z.to_nat a)) as [b|] eqn:Enth.
  - rewrite (skipn_nth_error _ _ _ Enth). cbn [cstring_from].
    replace (Z.to_nat (a + 1)) with (S (Z.to_nat a)) by lia. reflexivity.
  - apply nth_error_None in Enth. rewrite skipn_all2 by exact Enth.
    reflexivity.
Qed.

(** A string reads the same in a mapping that agrees on its bytes and its
    NUL. *)
Lemma cstring_at_ext m m2 s : forall a,
  cstring_at m a = Ok s ->
  (forall x, a <= x <= a + Z.of_nat (length s) ->
             load8 m2 x = load8 m x) ->
  cstring_at m2 a = Ok s.
Proof.
  induction s as [|c s IH]; intros a Hs Hsame;
    rewrite cstring_at_step in Hs; rewrite cstring_at_step;
    rewrite (Hsame a) by (cbn [length]; lia);
    destruct (load8 m a) as [b| |]; try discriminate;
    destruct (b =? 0); try discriminate.
  - reflexivity.
  - destruct (cstring_at m (a + 1)) as [s'| |] eqn:Es; cbn [rbind] in Hs;
      discriminate.
  - destruct (cstring_at m (a + 1)) as [s'| |] eqn:Es; cbn [rbind] in Hs;
      try discriminate.
    injection Hs as -> ->.
    rewrite (IH (a + 1) Es); [reflexivity|].
    intros x Hx. apply Hsame. cbn [length]. lia.
Qed.

(** X7. The two patches together.  When [set_interp] has succeeded, leaving
    the interpreter at [off], and [set_rpath] on the mapping it left finds
    its string, long enough and clear of the interpreter's, then
    [patch_prog_paths] succeeds and both strings read back: the second
    write leaves the first in place. *)
Theorem patch_prog_paths_both
  (new_interp new_rpath : cstring) (m m1 : image)
  (off dynoff dynsize stroff strsz dt val old_len : Z) :
  elf_is_valid m = Ok true ->
  cstring_ok new_rpath = true ->
  set_interp new_interp m = (Ok tt, m1) ->
  cstring_at m1 off = Ok new_interp ->
  dynamic_sections m1 dynoff dynsize stroff strsz ->
  dyn_scan m1 dynoff 0 (Z.to_nat (dynsize / sizeof_Elf_Dyn)) None
  = Ok (Some dt) ->
  d_val m1 dt = Ok val ->
  val <= strsz ->
  strlen m1 (stroff + val) = Ok old_len ->
  strlen_c new_rpath <= old_len ->
  off + strlen_c new_interp < stroff + val
  \/ stroff + val + strlen_c new_rpath < off ->
  exists m2,
    patch_prog_paths new_interp new_rpath m = (Ok tt, m2)
    /\ size m2 = size m1
    /\ cstring_at m2 off = Ok new_interp
    /\ cstring_at m2 (stroff + val) = Ok new_rpath.
Proof.
  intros Hvalid Hnr Hi Hstr Hsec Hscan Hval Hle Hold Hfit Hclear.
  assert (set_rpath new_rpath m1
          = strcpy (stroff + val) new_rpath m1) as Hrun.
  { rewrite (set_rpath_located _ _ _ _ _ _ Hsec). unfold set_rpath_in.
    rewrite bind_view, Hscan. rewrite bind_view, Hval.
    replace (val >? strsz) with false by lia. unfold ptr_add.
    rewrite bind_view, Hold.
    replace (strlen_c new_rpath >? old_len) with false by lia. reflexivity. }
  destruct (strlen_inside _ _ _ Hold) as (Hrp & Hlen0 & Hend).
  unfold strlen_c in *.
  assert (Z.of_nat (length (new_rpath ++ [0]))
          = Z.of_nat (length new_rpath) + 1) as Hl
    by (rewrite length_app; simpl; lia).
  pose proof (store_bytes_ok (stroff + val) (new_rpath ++ [0]) m1) as Hst.
  rewrite Hl in Hst. specialize (Hst ltac:(lia) ltac:(lia)).
  eexists. split.
  { rewrite (patch_prog_paths_valid _ _ _ Hvalid), Hi, Hrun. exact Hst. }
  split; [eapply store_bytes_size; exact Hst|].
  split.
  - apply (cstring_at_ext m1); [exact Hstr|].
    intros x Hx. eapply store_bytes_other; [exact Hst|]. lia.
  - unfold cstring_at. rewrite (store_bytes_tail _ _ _ _ Hst).
    rewrite <- app_assoc. simpl. apply cstring_from_app, Hnr.
Qed.

Lemma patch_prog_paths_both_witness :
  exists m2,
    patch_prog_paths short_interp short_rpath target_image = (Ok tt, m2)
    /\ size m2 = size (snd (set_interp short_interp target_image))
    /\ cstring_at m2 404 = Ok short_interp
    /\ cstring_at m2 (468 + 6) = Ok short_rpath.
Proof.
  refine (patch_prog_paths_both short_interp short_rpath target_image
            (snd (set_interp short_interp target_image))
            404 420 48 468 15 436 6 8 _ _ _ _ _ _ _ _ _ _ _);
    try reflexivity.
  - exists 248, 312. repeat split; reflexivity.
  - vm_compute. discriminate.
  - vm_compute. discriminate.
  - left. vm_compute. reflexivity.
Defined.

(** X8. What [patch_app] asks of the program it patches.  Whatever six
    characters [mkdtemp] chooses, the directory's path has 19 bytes and the
    interpreter's path, [m_homedir] joined with ".staticx.interp", has 35.
    So on a valid image whose PT_INTERP segment has one byte or more, the
    last of them NUL: with fewer than 36 bytes [patch_app] ends fatally with
    the mapping untouched; with 36 bytes or more the interpreter is written
    and [set_rpath] runs.  An rpath string of fewer than 19 bytes then ends
    it fatally with the interpreter written.  A PT_INTERP segment of no byte
    at all, the byte before it NUL and 36 bytes of the mapping after it,
    does not stop [patch_app]: the path and its NUL are written over what
    follows the segment and [set_rpath] runs.  Without memory for the joined
    path [patch_app] ends fatally at once. *)
Theorem patch_app_capacity (sfx : cstring) (m : image) (ph off sz : Z) :
  length sfx = 6%nat ->
  elf_is_valid m = Ok true ->
  image_ok m = true ->
  elf_get_proghdr_by_type m PT_INTERP = Ok (Some ph) ->
  p_offset m ph = Ok off ->
  p_filesz m ph = Ok sz ->
  exists m_homedir interp_path,
    create_tmpdir (Some sfx) = Ok m_homedir
    /\ path_join true m_homedir INTERP_FILENAME = Ok interp_path
    /\ strlen_c m_homedir = 19
    /\ strlen_c interp_path = 35
    /\ patch_app false m_homedir m = (Fatal 2, m)
    /\ (1 <= sz -> load8 m (off + sz - 1) = Ok 0 -> sz < 36 ->
        patch_app true m_homedir m = (Fatal 2, m))
    /\ (load8 m (off + sz - 1) = Ok 0 -> 36 <= sz ->
        exists m1,
          set_interp interp_path m = (Ok tt, m1)
          /\ patch_app true m_homedir m = set_rpath m_homedir m1)
    /\ (forall m1 dynoff dynsize stroff strsz dt val old_len,
          set_interp interp_path m = (Ok tt, m1) ->
          dynamic_sections m1 dynoff dynsize stroff strsz ->
          dyn_scan m1 dynoff 0 (Z.to_nat (dynsize / sizeof_Elf_Dyn)) None
          = Ok (Some dt) ->
          d_val m1 dt = Ok val ->
          val <= strsz ->
          strlen m1 (stroff + val) = Ok old_len ->
          old_len < 19 ->
          patch_app true m_homedir m = (Fatal 2, m1))
    /\ (sz = 0 -> 1 <= off -> load8 m (off - 1) = Ok 0 ->
        off + 36 <= size m ->
        exists m1,
          strcpy off interp_path m = (Ok tt, m1)
          /\ set_interp interp_path m = (Ok tt, m1)
          /\ patch_app true m_homedir m = set_rpath m_homedir m1).
Proof.
  intros Hsfx Hvalid Hok Hph Hoff Hsz.
  set (pre := firstn (length tmpdir_template - 6) tmpdir_template).
  assert (length pre = 13%nat) as Hpre by reflexivity.
  exists (pre ++ sfx), ((pre ++ sfx) ++ bytes_of_string "/" ++ INTERP_FILENAME).
  assert (strlen_c (pre ++ sfx) = 19) as Hhome.
  { unfold strlen_c. rewrite length_app, Hpre, Hsfx. reflexivity. }
  assert (strlen_c ((pre ++ sfx) ++ bytes_of_string "/" ++ INTERP_FILENAME)
          = 35) as Hpath.
  { unfold strlen_c in *. rewrite length_app.
    change (length (bytes_of_string "/" ++ INTERP_FILENAME)) with 16%nat.
    lia. }
  assert (forall a, 0 <= a -> a + 36 <= size m ->
            exists m1,
              strcpy a ((pre ++ sfx) ++ bytes_of_string "/" ++ INTERP_FILENAME)
                m = (Ok tt, m1)) as Hcopy.
  { intros a Ha0 Ha.
    pose proof (store_bytes_ok a
                  (((pre ++ sfx) ++ bytes_of_string "/" ++ INTERP_FILENAME)
                   ++ [0]) m) as Hst.
    unfold strlen_c in Hpath.
    rewrite length_app in Hst. cbn [length] in Hst.
    specialize (Hst ltac:(lia) ltac:(lia)).
    eexists. exact Hst. }
  split; [reflexivity|]. split; [reflexivity|].
  split; [exact Hhome|]. split; [exact Hpath|].
  split; [reflexivity|].
  unfold patch_app, path_join.
  rewrite (patch_prog_paths_valid _ _ _ Hvalid).
  split; [|split; [|split]].
  - intros Hsz1 Hnul Hsmall.
    destruct (set_interp_run m
                ((pre ++ sfx) ++ bytes_of_string "/" ++ INTERP_FILENAME)
                ph off sz Hok Hph Hoff Hsz Hsz1 Hnul)
      as [Hoff0 Hrun].
    rewrite Hrun, Hpath.
    replace (35 >? sz - 1) with true by lia. reflexivity.
  - intros Hnul Hbig.
    destruct (set_interp_run m
                ((pre ++ sfx) ++ bytes_of_string "/" ++ INTERP_FILENAME)
                ph off sz Hok Hph Hoff Hsz ltac:(lia) Hnul)
      as [Hoff0 Hrun].
    rewrite Hpath in Hrun.
    replace (35 >? sz - 1) with false in Hrun by lia.
    pose proof (load8_ok_range _ _ _ Hnul) as Hin.
    destruct (Hcopy off ltac:(lia) ltac:(lia)) as [m1 Hst].
    rewrite Hst in Hrun.
    exists m1. split; [exact Hrun|]. rewrite Hrun. reflexivity.
  - intros m1 dynoff dynsize stroff strsz dt val old_len
      Hi Hsec Hscan Hval Hle Hold Hshort.
    rewrite Hi. rewrite (set_rpath_located _ _ _ _ _ _ Hsec).
    unfold set_rpath_in.
    rewrite bind_view, Hscan. rewrite bind_view, Hval.
    replace (val >? strsz) with false by lia. unfold ptr_add.
    rewrite bind_view, Hold. rewrite Hhome.
    replace (19 >? old_len) with true by lia. reflexivity.
  - intros -> Hoff1 Hbefore Hroom.
    destruct (set_interp_run_empty m
                ((pre ++ sfx) ++ bytes_of_string "/" ++ INTERP_FILENAME)
                ph off Hok Hph Hoff Hsz)
      as [_ Hrun].
    specialize (Hrun 0 Hoff1 Hbefore ltac:(lia)).
    change (negb (0 =? 0)) with false in Hrun. cbv iota in Hrun.
    destruct (Hcopy off ltac:(lia) Hroom) as [m1 Hst].
    rewrite Hst in Hrun.
    exists m1. split; [exact Hst|]. split; [exact Hrun|].
    rewrite Hrun. reflexivity.
Qed.

Lemma patch_app_capacity_witness :
  exists m_homedir interp_path,
    create_tmpdir (Some (bytes_of_string "AbCdEf")) = Ok m_homedir
    /\ path_join true m_homedir INTERP_FILENAME = Ok interp_path
    /\ strlen_c m_homedir = 19
    /\ strlen_c interp_path = 35
    /\ patch_app true m_homedir target_image = (Fatal 2, target_image)
    /\ exists m1,
         set_interp interp_path empty_interp_image = (Ok tt, m1)
         /\ patch_app true m_homedir empty_interp_image
            = set_rpath m_homedir m1.
Proof.
  destruct (patch_app_capacity (bytes_of_string "AbCdEf") target_image
              64 404 16)
    as (h & p & H1 & H2 & H3 & H4 & _ & Hsmall & _); try reflexivity.
  destruct (patch_app_capacity (bytes_of_string "AbCdEf") empty_interp_image
              64 404 0)
    as (h' & p' & H1' & H2' & _ & _ & _ & _ & _ & _ & Hempty);
    try reflexivity.
  assert (h' = h) as -> by congruence.
  assert (p' = p) as -> by congruence.
  exists h, p.
  split; [exact H1|]. split; [exact H2|]. split; [exact H3|].
  split; [exact H4|].
  split.
  - apply Hsmall; [vm_compute; discriminate|reflexivity|].
    vm_compute. reflexivity.
  - assert (1 <= 404) as Hoff1 by lia.
    assert (404 + 36 <= size empty_interp_image) as Hroom
      by (vm_compute; discriminate).
    destruct (Hempty eq_refl Hoff1 eq_refl Hroom) as (m1 & _ & Hset & Hrun).
    exists m1. split; [exact Hset|exact Hrun].
Defined.

(** ** The child's arguments and its supervision *)

Lemma array_set_length a i p a' :
  array_set a i p = Ok a' -> length a' = length a /\ 0 <= i < Z.of_nat (length a).
Proof.
  unfold array_set.
  destruct ((0 <=? i) && (i <? Z.of_nat (length a))) eqn:E; [|discriminate].
  apply andb_prop in E as [E1%Z.leb_le E2%Z.ltb_lt].
  intros [= <-]. split; [|lia].
  rewrite length_app, length_firstn_le by lia. cbn [length].
  rewrite length_skipn. lia.
Qed.

Lemma array_set_ok a i p :
  0 <= i < Z.of_nat (length a) ->
  array_set a i p = Ok (firstn (Z.to_nat i) a ++ p :: skipn (Z.to_nat i + 1) a).
Proof.
  intros Hi. unfold array_set.
  replace ((0 <=? i) && (i <? Z.of_nat (length a))) with true by lia.
  reflexivity.
Qed.

Lemma array_get_ok a i :
  0 <= i < Z.of_nat (length a) ->
  exists p, array_get a i = Ok p /\ nth_error a (Z.to_nat i) = Some p.
Proof.
  intros Hi. unfold array_get. replace (i <? 0) with false by lia.
  destruct (nth_error a (Z.to_nat i)) as [p|] eqn:E; [eauto|].
  apply nth_error_None in E. lia.
Qed.

(** The loop leaves [w] advanced by the number of its iterations and the
    array at its length. *)
Lemma argv_copy_counts orig_argv n : forall i w argv w' argv',
  argv_copy orig_argv i n w argv = Ok (w', argv') ->
  w' = w + Z.of_nat n /\ length argv' = length argv.
Proof.
  induction n as [|n IH]; intros i w argv w' argv'; cbn [argv_copy].
  - intros [= <- <-]. split; [lia|reflexivity].
  - destruct (array_get orig_argv i) as [p| |]; cbn [rbind]; try discriminate.
    destruct (array_set argv w p) as [a1| |] eqn:Eset; cbn [rbind];
      try discriminate.
    intros H. apply IH in H as [Hw Hlen].
    apply array_set_length in Eset as [Hl _]. split; [lia|congruence].
Qed.

(** The loop copies [n] pointers from index [i] of the one array to index
    [w] of the other. *)
Lemma argv_copy_copies orig_argv n : forall i w argv,
  0 <= i -> 0 <= w ->
  i + Z.of_nat n <= Z.of_nat (length orig_argv) ->
  w + Z.of_nat n <= Z.of_nat (length argv) ->
  argv_copy orig_argv i n w argv
  = Ok (w + Z.of_nat n,
        firstn (Z.to_nat w) argv
        ++ firstn n (skipn (Z.to_nat i) orig_argv)
        ++ skipn (Z.to_nat w + n) argv).
Proof.
  induction n as [|n IH]; intros i w argv Hi Hw Hin Hroom; cbn [argv_copy].
  - rewrite Z.add_0_r, Nat.add_0_r. cbn [firstn app].
    rewrite firstn_skipn. reflexivity.
  - destruct (array_get_ok orig_argv i) as (p & -> & Hp); [lia|].
    cbn [rbind]. rewrite array_set_ok by lia. cbn [rbind].
    rewrite IH; try lia.
    2:{ rewrite length_app, length_firstn_le by lia. cbn [length].
        rewrite length_skipn. lia. }
    f_equal. f_equal; [lia|].
    rewrite (skipn_nth_error _ _ _ Hp). cbn [firstn].
    replace (Z.to_nat (i + 1)) with (S (Z.to_nat i)) by lia.
    replace (Z.to_nat (w + 1)) with (length (firstn (Z.to_nat w) argv) + 1)%nat
      by (rewrite length_firstn_le; lia).
    rewrite firstn_app_2. cbn [firstn].
    rewrite <- app_assoc. cbn [app]. f_equal. f_equal. f_equal.
    rewrite length_firstn_le by lia.
    replace (Z.to_nat w + 1 + n)%nat
      with (length (firstn (Z.to_nat w) argv ++ [p]) + (Z.to_nat w + S n - (Z.to_nat w + 1)))%nat
      by (rewrite length_app, length_firstn_le; cbn [length]; lia).
    change (firstn (Z.to_nat w) argv ++ p :: skipn (Z.to_nat w + 1) argv)
      with (firstn (Z.to_nat w) argv ++ [p] ++ skipn (Z.to_nat w + 1) argv).
    rewrite app_assoc, skipn_app.
    rewrite skipn_all2
      by (rewrite length_app, length_firstn_le; cbn [length]; lia).
    cbn [app]. rewrite length_app, length_firstn_le by lia. cbn [length].
    rewrite skipn_skipn. f_equal. lia.
Qed.

Lemma skipn_repeat_last {A} (x : A) n : skipn n (repeat x (S n)) = [x].
Proof. induction n as [|n IH]; [reflexivity|exact IH]. Qed.

Lemma set_last {A} (mid : list A) (y z : A) :
  firstn (length mid) (mid ++ [y])
  ++ z :: skipn (length mid + 1) (mid ++ [y])
  = mid ++ [z].
Proof.
  rewrite firstn_app, Nat.sub_diag, firstn_O, app_nil_r, firstn_all.
  rewrite skipn_all2 by (rewrite length_app; cbn [length]; lia).
  reflexivity.
Qed.

Lemma make_argv_ok (orig_argc : Z) (orig_argv : argv_t) (argv0 : cstring) :
  1 <= orig_argc -> orig_argc <= Z.of_nat (length orig_argv) ->
  make_argv true orig_argc orig_argv argv0
  = Ok (Holds (Some argv0
               :: firstn (Z.to_nat (orig_argc - 1)) (skipn 1 orig_argv)
               ++ [None])).
Proof.
  intros Hargc Hlen. unfold make_argv, calloc.
  replace (1 + (orig_argc - 1) + 1) with (orig_argc + 1) by lia.
  set (n := Z.to_nat (orig_argc - 1)).
  set (mid := firstn n (skipn 1 orig_argv)).
  assert (length mid = n) as Hn
    by (unfold mid; rewrite length_firstn_le;
        [reflexivity|rewrite length_skipn; lia]).
  replace (Z.to_nat (orig_argc + 1)) with (S (S n)) by lia.
  change (array_set (repeat None (S (S n))) 0 (Some argv0))
    with (Ok (Some argv0 :: repeat (@None cstring) (S n))).
  cbn [rbind].
  assert (argv_copy orig_argv 1 n (0 + 1) (Some argv0 :: repeat None (S n))
          = Ok (1 + Z.of_nat n, Some argv0 :: mid ++ [None])) as Hcopy.
  { rewrite argv_copy_copies;
      try (cbn [length]; rewrite ?repeat_length; lia).
    f_equal. change (Z.to_nat (0 + 1)) with 1%nat. change (Z.to_nat 1) with 1%nat.
    cbn [firstn skipn Nat.add app]. fold mid.
    rewrite skipn_repeat_last. reflexivity. }
  rewrite Hcopy. cbn [rbind fst snd].
  rewrite array_set_ok
    by (cbn [length]; rewrite length_app, Hn; cbn [length]; lia).
  cbn [rbind]. replace (1 + Z.of_nat n + 1 =? orig_argc + 1) with true by lia.
  f_equal. f_equal.
  replace (Z.to_nat (1 + Z.of_nat n)) with (S (length mid)) by lia.
  cbn [firstn skipn Nat.add app]. f_equal.
  apply set_last.
Qed.

(** X9. [make_argv] for a launcher started with [orig_argc >= 1] arguments
    gives the program's path, then the arguments after the launcher's own
    name as they are, then NULL, and its assertion holds.  Whenever it
    returns at all its assertion holds.  Started with no argument at all
    ([orig_argc = 0]) it writes the closing NULL one place past the array
    it allocated; and it uses the array without testing whether [calloc]
    gave one. *)
Theorem make_argv_spec (orig_argc : Z) (orig_argv : argv_t) (argv0 : cstring) :
  (1 <= orig_argc -> orig_argc <= Z.of_nat (length orig_argv) ->
   make_argv true orig_argc orig_argv argv0
   = Ok (Holds (Some argv0
                :: firstn (Z.to_nat (orig_argc - 1)) (skipn 1 orig_argv)
                ++ [None])))
  /\ (forall r, make_argv true orig_argc orig_argv argv0 = Ok r ->
                exists argv, r = Holds argv
                             /\ Z.of_nat (length argv) = orig_argc + 1)
  /\ make_argv true 0 orig_argv argv0 = OutOfBounds
  /\ make_argv false orig_argc orig_argv argv0 = OutOfBounds.
Proof.
  split; [|split; [|split]].
  - apply make_argv_ok.
  - intros r. unfold make_argv, calloc.
    destruct (array_set _ 0 (Some argv0)) as [a1| |] eqn:E1; cbn [rbind];
      try discriminate.
    destruct (argv_copy orig_argv 1 _ (0 + 1) a1) as [[w a2]| |] eqn:E2;
      cbn [rbind]; try discriminate.
    cbn [fst snd].
    destruct (array_set a2 w None) as [a3| |] eqn:E3; cbn [rbind];
      try discriminate.
    apply array_set_length in E1 as [L1 R1].
    apply argv_copy_counts in E2 as [Hw L2].
    apply array_set_length in E3 as [L3 R3].
    rewrite repeat_length in *.
    assert (w + 1 = 1 + (orig_argc - 1) + 1) as Hassert by lia.
    rewrite Hassert, Z.eqb_refl. intros [= <-].
    exists a3. split; [reflexivity|]. lia.
  - reflexivity.
  - reflexivity.
Qed.

Lemma make_argv_spec_witness :
  make_argv true 3
    [Some (bytes_of_string "./app"); Some (bytes_of_string "-v");
     Some (bytes_of_string "x"); None]
    (bytes_of_string "/tmp/staticx-AbCdEf/.staticx.prog")
  = Ok (Holds [Some (bytes_of_string "/tmp/staticx-AbCdEf/.staticx.prog");
               Some (bytes_of_string "-v"); Some (bytes_of_string "x"); None]).
Proof.
  refine (proj1 (make_argv_spec 3 _ _) _ _).
  - lia.
  - cbn [length]. lia.
Defined.

Lemma argv_walk_closed (l : argv_t) : argv_walk (l ++ [None]) = Ok tt.
Proof.
  induction l as [|[p|] l IH]; cbn [app argv_walk]; auto.
Qed.


(** X10. The child of [run_app].  For a launcher started with
    [argc >= 1] arguments, the child makes one call, [execv] of the
    program's path with the vector of [make_argv]: the path, the
    launcher's arguments after its own name, NULL.  If [execv] fails the
    child exits with status 3; it never returns into the launcher's code. *)
Theorem run_app_child
  (argc : Z) (argv : argv_t) (prog_path : cstring) (execv_ok : bool)
  (sigaction_ok : nat -> bool) (waits : list wait_result) :
  1 <= argc -> argc <= Z.of_nat (length argv) ->
  run_app true argc argv prog_path 0 execv_ok sigaction_ok waits
  = ([Fork;
      Execv (Some prog_path)
        (Some prog_path
         :: firstn (Z.to_nat (argc - 1)) (skipn 1 argv) ++ [None])],
     if execv_ok then Replaced else Ends 3).
Proof.
  intros Hargc Hlen. unfold run_app.
  rewrite make_argv_ok by assumption.
  rewrite app_comm_cons, argv_walk_closed. reflexivity.
Qed.

Lemma run_app_child_witness :
  run_app true 2 [Some (bytes_of_string "./app"); Some (bytes_of_string "-v");
                  None]
    (bytes_of_string "/t/.staticx.prog") 0 false (fun _ => true) []
  = ([Fork;
      Execv (Some (bytes_of_string "/t/.staticx.prog"))
        [Some (bytes_of_string "/t/.staticx.prog");
         Some (bytes_of_string "-v"); None]],
     Ends 3).
Proof.
  refine (run_app_child 2 _ _ false _ _ _ _).
  - lia.
  - cbn [length]. lia.
Defined.



(** X12. Which process a forwarded signal goes to.  [sig_handler] sends
    the signal to whatever [child_pid] holds.  With both handlers installed
    and the child running, SIGINT and SIGTERM go to the child.  Once the
    child is reaped [child_pid] is 0 while the handlers are still in place:
    until [restore_sig_handler] has run for it, a SIGINT or SIGTERM makes
    the handler call [kill(0, signum)].  At the end both signals have their
    default action, whatever their disposition was when the launcher
    started; no other signal is ever forwarded. *)
Theorem signal_forwarding (start : supervisor) (pid signum : Z) :
  signum = SIGINT \/ signum = SIGTERM ->
  deliver (supervisor_after start pid 3) signum = Some (Kill pid signum)
  /\ deliver (supervisor_after start pid 4) signum = Some (Kill 0 signum)
  /\ deliver (supervisor_after start pid 5) SIGINT = None
  /\ deliver (supervisor_after start pid 5) SIGTERM = Some (Kill 0 SIGTERM)
  /\ deliver (supervisor_after start pid 6) signum = None
  /\ on_sigint (supervisor_after start pid 6) = Default
  /\ on_sigterm (supervisor_after start pid 6) = Default
  /\ (forall k other, other <> SIGINT -> other <> SIGTERM ->
        deliver (supervisor_after start pid k) other = None).
Proof.
  intros Hsig. destruct start as [p0 d1 d2].
  repeat split; try (destruct Hsig as [-> | ->]; reflexivity).
  intros k other H1 H2. unfold deliver.
  replace (other =? SIGINT) with false by lia.
  replace (other =? SIGTERM) with false by lia. reflexivity.
Qed.

Lemma signal_forwarding_witness :
  deliver (supervisor_after (mk_supervisor 0 Ignore Default) 77 4) SIGTERM
  = Some (Kill 0 SIGTERM).
Proof.
  exact (proj1 (proj2 (signal_forwarding (mk_supervisor 0 Ignore Default)
                         77 SIGTERM (or_intror eq_refl)))).
Defined.

(** ** Opening and closing the decoder *)

Section XzSlots.

Variable xz_dec : Type.

Lemma xz_fresh_step (op : xz_op xz_dec) ops s s' :
  xz_fresh (op :: ops) s ->
  xz_apply xz_dec op s = Some s' ->
  xz_fresh ops s'.
Proof.
  intros (Hinits & Hended & Hheld & Hnew).
  destruct op as [[d|]|fd]; cbn [xz_apply xz_open xz_close inits] in *.
  - intros [= <-]. unfold xz_fresh, held. cbn [slot_dec ended].
    apply NoDup_cons_iff in Hinits as [Hd Hinits].
    split; [exact Hinits|]. split; [exact Hended|].
    split.
    + intros d' [<-|[]]. apply (Hnew d). left. reflexivity.
    + intros d' Hd'. split; [apply (Hnew d'); right; exact Hd'|].
      intros [<-|[]]. contradiction.
  - discriminate.
  - unfold xz_close. destruct (negb (fd =? XZ_FAKE_FD)); cbn [snd].
    + intros [= <-]. exact (conj Hinits (conj Hended (conj Hheld Hnew))).
    + destruct (slot_dec s) as [d|] eqn:Eslot; cbn [snd]; intros [= <-].
      * unfold xz_fresh, held in *. rewrite Eslot in *.
        cbn [slot_dec ended].
        split; [exact Hinits|].
        split; [constructor; [apply Hheld; left; reflexivity|exact Hended]|].
        split; [intros d' []|].
        intros d' Hd'. destruct (Hnew d' Hd') as [He Hh].
        split; [|intros []].
        intros [<-|Hin]; [apply Hh; left; reflexivity|contradiction].
      * exact (conj Hinits (conj Hended (conj Hheld Hnew))).
Qed.

(** X13. [xz_dec_end] is never called twice on a decoder, and the decoder
    [m_xzdec] points to is never one that was ended: whatever the sequence
    of [xz_open] and [xz_close] calls and their descriptors, as long as
    [xz_dec_init] gives new decoders.  A close of another descriptor than
    the adapter's changes nothing and returns -1; a second close returns 0
    and ends nothing; and an open over an open decoder drops it without
    ending it. *)
Theorem xz_ends_once (ops : list (xz_op xz_dec)) :
  forall s : xz_slot xz_dec,
  xz_fresh ops s ->
  (NoDup (ended (xz_ops xz_dec ops s))
   /\ forall d, In d (held (xz_ops xz_dec ops s)) ->
                ~ In d (ended (xz_ops xz_dec ops s)))
  /\ (forall fd, fd <> XZ_FAKE_FD -> xz_close xz_dec fd s = (-1, s))
  /\ (snd (xz_close xz_dec XZ_FAKE_FD
             (snd (xz_close xz_dec XZ_FAKE_FD s)))
      = snd (xz_close xz_dec XZ_FAKE_FD s)
      /\ fst (xz_close xz_dec XZ_FAKE_FD
                (snd (xz_close xz_dec XZ_FAKE_FD s))) = 0)
  /\ (forall d1 d2,
        xz_ops xz_dec [OpOpen (Some d1); OpOpen (Some d2)] s
        = mk_xz_slot (Some d2) (ended s)).
Proof.
  induction ops as [|op ops IH]; intros s Hfresh.
  - split; [|split; [|split]].
    + destruct Hfresh as (_ & Hended & Hheld & _). cbn [xz_ops].
      split; assumption.
    + intros fd Hfd. unfold xz_close.
      replace (fd =? XZ_FAKE_FD) with false by lia. reflexivity.
    + unfold xz_close. change (negb (XZ_FAKE_FD =? XZ_FAKE_FD)) with false.
      cbv iota. destruct (slot_dec s) eqn:E; cbn [snd fst slot_dec];
        [split; reflexivity|].
      rewrite E. split; reflexivity.
    + reflexivity.
  - destruct (IH s) as (_ & Hwrong & Htwice & Hleak).
    { destruct Hfresh as (Hinits & Hended & Hheld & Hnew).
      assert (forall d, In d (inits xz_dec ops) ->
                        In d (inits xz_dec (op :: ops))) as Hsub.
      { intros d Hd. destruct op as [[d0|]|fd]; cbn [inits];
          [right; exact Hd|exact Hd|exact Hd]. }
      refine (conj _ (conj Hended (conj Hheld _))).
      - destruct op as [[d|]|fd]; cbn [inits] in Hinits; try assumption.
        apply NoDup_cons_iff in Hinits. tauto.
      - intros d Hd. apply Hnew, Hsub, Hd. }
    split; [|split; [exact Hwrong|split; [exact Htwice|exact Hleak]]].
    cbn [xz_ops]. destruct (xz_apply xz_dec op s) as [s'|] eqn:Estep.
    + apply (IH s'). eapply xz_fresh_step; eassumption.
    + destruct Hfresh as (_ & Hended & Hheld & _). split; assumption.
Qed.

End XzSlots.

Lemma xz_ends_once_witness :
  NoDup (ended (xz_ops nat [OpOpen (Some 1%nat); OpClose 42; OpClose 42;
                            OpOpen (Some 2%nat); OpClose 7; OpClose 42]
                  (mk_xz_slot None []))).
Proof.
  refine (proj1 (proj1 (xz_ends_once nat _ (mk_xz_slot None []) _))).
  unfold xz_fresh. cbn [inits ended held slot_dec].
  split; [repeat constructor; cbn; intuition discriminate|].
  split; [constructor|].
  split; [intros d []|].
  intros d _. split; intros [].
Defined.

(** ** Pulls that are served *)

Lemma app_same_length {A} (a b x y : list A) :
  length a = length b -> a ++ x = b ++ y -> a = b /\ x = y.
Proof.
  revert b. induction a as [|h a IH]; intros [|h' b] Hlen Heq;
    cbn in *; try discriminate.
  - split; [reflexivity|exact Heq].
  - injection Heq as -> Heq. injection Hlen as Hlen.
    destruct (IH b Hlen Heq) as [-> ->]. split; reflexivity.
Qed.

Section Served.

Variable xz_dec : Type.
Variable xz_dec_run : xz_dec -> xz_buf -> xz_ret * xz_dec * xz_buf.
Variable pending : xz_dec -> xz_buf -> list Z.

Hypothesis pending_out : forall d b buf len,
  pending d (set_out b buf len) = pending d b.
Hypothesis run_emits : emits_stream xz_dec_run pending.

Local Abbreviation left_in s := (pending (m_xzdec s) (m_xzbuf s)).

(** A pull that is served fills the caller's buffer with the next bytes of
    the stream. *)
Lemma xz_read_served fuel buf s s' :
  0 < size buf < 2 ^ 63 ->
  xz_read xz_dec xz_dec_run fuel buf (size buf) s
  = Some (Ok (size buf), s') ->
  size (out_buf (m_xzbuf s')) = size buf
  /\ left_in s = out_buf (m_xzbuf s') ++ left_in s'.
Proof.
  intros Hlen Hres. unfold xz_read in Hres.
  pose proof (entered_inv xz_dec pending pending_out s buf) as Hinv.
  destruct (loop_ends _ _ _ _ _ _ _ Hres)
    as [(_ & Hfed & Hfull)|[(Hr & _)|(Hr & _)]];
    [|injection Hr as Hr; lia|discriminate Hr].
  destruct (fed_inv xz_dec xz_dec_run pending run_emits _ _ _ Hfed Hinv)
    as (Hpos & Hsz & HD).
  pose proof (fed_out_size xz_dec xz_dec_run pending run_emits _ _ _ Hfed Hinv)
    as Hsame.
  cbn [entered m_xzbuf set_out out_size] in Hsame.
  split; [lia|].
  rewrite HD. unfold emitted. rewrite Hfull, Hsz. unfold size.
  rewrite Nat2Z.id, firstn_all. reflexivity.
Qed.

(** X14. Served pulls do not depend on how the request is cut.  From the
    same state, with a decoder that emits the stream, two pulls one after
    the other, both served, put in their buffers what a single served pull
    of the two lengths together puts in its buffer, and leave the same
    bytes pending. *)
Theorem xz_read_served_split
  (fuel1 fuel2 fuel12 : nat) (buf1 buf2 buf12 : list Z)
  (s s1 s2 s12 : xz_state xz_dec) :
  0 < size buf1 -> 0 < size buf2 ->
  size buf12 = size buf1 + size buf2 ->
  size buf12 < 2 ^ 63 ->
  xz_read xz_dec xz_dec_run fuel1 buf1 (size buf1) s
  = Some (Ok (size buf1), s1) ->
  xz_read xz_dec xz_dec_run fuel2 buf2 (size buf2) s1
  = Some (Ok (size buf2), s2) ->
  xz_read xz_dec xz_dec_run fuel12 buf12 (size buf12) s
  = Some (Ok (size buf12), s12) ->
  out_buf (m_xzbuf s12) = out_buf (m_xzbuf s1) ++ out_buf (m_xzbuf s2)
  /\ left_in s12 = left_in s2.
Proof.
  intros H1 H2 Hsum Hmax R1 R2 R12.
  destruct (xz_read_served fuel1 buf1 s s1 ltac:(lia) R1) as [L1 D1].
  destruct (xz_read_served fuel2 buf2 s1 s2 ltac:(lia) R2) as [L2 D2].
  destruct (xz_read_served fuel12 buf12 s s12 ltac:(lia) R12) as [L12 D12].
  rewrite D2, app_assoc in D1. rewrite D1 in D12.
  apply app_same_length in D12.
  - destruct D12 as [Heq Hrest]. split; [symmetry; exact Heq|symmetry; exact Hrest].
  - unfold size in *. rewrite length_app. lia.
Qed.

End Served.

Lemma xz_read_served_split_witness :
  [1; 2; 3] = [1; 2] ++ [3]
  /\ stored_pending tt (mk_xz_buf [1; 2; 3; 4; 5] 3 5 [1; 2; 3] 3 3)
     = stored_pending tt (mk_xz_buf [1; 2; 3; 4; 5] 3 5 [3] 1 1).
Proof.
  refine (xz_read_served_split unit stored_run stored_pending
            stored_pending_out stored_emits 5 5 5
            [0; 0] [0] [0; 0; 0] stored_five
            (mk_xz_state tt (mk_xz_buf [1; 2; 3; 4; 5] 2 5 [1; 2] 2 2))
            (mk_xz_state tt (mk_xz_buf [1; 2; 3; 4; 5] 3 5 [3] 1 1))
            (mk_xz_state tt (mk_xz_buf [1; 2; 3; 4; 5] 3 5 [1; 2; 3] 3 3))
            _ _ _ _ _ _ _); reflexivity.
Defined.

(** ** Exit translation: what the launcher can end with *)

Lemma WEXITSTATUS_range w : 0 <= WEXITSTATUS w < 256.
Proof.
  unfold WEXITSTATUS. rewrite Z.shiftr_land.
  change (Z.shiftr 65280 8) with (Z.ones 8). rewrite Z.land_ones by lia.
  apply Z.mod_pos_bound. lia.
Qed.

(** X15. The launcher's own end is within bounds for every wait status:
    an exit code it returns is between 0 and 255; it raises at most one
    signal, numbered between 1 and 126, and if it ends by a signal it is
    that one; a status is never both "exited" and "signaled"; and a child
    that was stopped, not ended (low seven bits 127), makes the launcher
    exit with status 2. *)
Theorem main_exit_ranges (raise_terminates : Z -> bool) (wstatus : Z) :
  (length (fst (main_exit raise_terminates wstatus)) <= 1)%nat
  /\ (forall sig, In sig (fst (main_exit raise_terminates wstatus)) ->
                  1 <= sig <= 126)
  /\ match snd (main_exit raise_terminates wstatus) with
     | Exited code => 0 <= code < 256
     | Signaled sig => fst (main_exit raise_terminates wstatus) = [sig]
     end
  /\ (WIFEXITED wstatus = true -> WIFSIGNALED wstatus = false)
  /\ (WTERMSIG wstatus = 127 ->
      main_exit raise_terminates wstatus = ([], Exited 2)).
Proof.
  pose proof (WEXITSTATUS_range wstatus) as Hcode.
  pose proof (WIFSIGNALED_iff wstatus) as Hsig.
  unfold main_exit.
  destruct (WIFEXITED wstatus) eqn:Eexit.
  - cbn [fst snd length]. unfold WIFEXITED in Eexit.
    split; [lia|]. split; [intros sig []|]. split; [exact Hcode|].
    split.
    + intros _. destruct (WIFSIGNALED wstatus); [|reflexivity].
      assert (1 <= WTERMSIG wstatus <= 126) by (apply Hsig; reflexivity). lia.
    + intros H127. lia.
  - destruct (WIFSIGNALED wstatus) eqn:Esig.
    + assert (1 <= WTERMSIG wstatus <= 126) as Hr by (apply Hsig; reflexivity).
      destruct (raise_terminates (WTERMSIG wstatus)); cbn [fst snd length];
        (split; [lia|]); (split; [intros sig [<-|[]]; exact Hr|]);
        (split; [try reflexivity; lia|]);
        (split; [discriminate|intros H127; lia]).
    + cbn [fst snd length]. split; [lia|]. split; [intros sig []|].
      split; [lia|]. split; [discriminate|reflexivity].
Qed.

(** ** The archive's byte source *)

Lemma elf_get_section_fatal ehdr lookup_name lookup_type s :
  elf_get_section ehdr lookup_name lookup_type = Fatal s -> s = 2.
Proof.
  unfold elf_get_section.
  destruct (e_shoff ehdr) as [shoff| |] eqn:E1; cbn [rbind];
    [|intros H; exfalso; exact (load_not_fatal _ _ _ _ E1)|discriminate].
  destruct (e_shstrndx ehdr) as [ndx| |] eqn:E2; cbn [rbind];
    [|intros H; exfalso; exact (load_not_fatal _ _ _ _ E2)|discriminate].
  destruct (sh_offset ehdr _) as [stroff| |] eqn:E3; cbn [rbind];
    [|intros H; exfalso; exact (load_not_fatal _ _ _ _ E3)|discriminate].
  destruct (e_shentsize ehdr) as [v| |] eqn:E4; cbn [rbind];
    [|intros H; exfalso; exact (load_not_fatal _ _ _ _ E4)|discriminate].
  destruct (negb (v =? sizeof_Elf_Shdr)); [intros [= <-]; reflexivity|].
  destruct (e_shnum ehdr) as [n| |] eqn:E5; cbn [rbind];
    [|intros H; exfalso; exact (load_not_fatal _ _ _ _ E5)|discriminate].
  intros H. exfalso. exact (section_scan_not_fatal _ _ _ _ _ _ _ H).
Qed.

Lemma elf_is_valid_not_fatal ehdr s : elf_is_valid ehdr <> Fatal s.
Proof.
  unfold elf_is_valid, e_ident.
  destruct (load8 ehdr 0) as [b0| |] eqn:E0; cbn [rbind];
    [|exfalso; exact (load8_not_fatal _ _ _ E0)|discriminate].
  destruct (negb (b0 =? ELFMAG0)); [discriminate|].
  destruct (load8 ehdr 1) as [b1| |] eqn:E1; cbn [rbind];
    [|exfalso; exact (load8_not_fatal _ _ _ E1)|discriminate].
  destruct (negb (b1 =? ELFMAG1)); [discriminate|].
  destruct (load8 ehdr 2) as [b2| |] eqn:E2; cbn [rbind];
    [|exfalso; exact (load8_not_fatal _ _ _ E2)|discriminate].
  destruct (negb (b2 =? ELFMAG2)); [discriminate|].
  destruct (load8 ehdr 3) as [b3| |] eqn:E3; cbn [rbind];
    [|exfalso; exact (load8_not_fatal _ _ _ E3)|discriminate].
  discriminate.
Qed.

(** X16. The input [extract_archive] hands to the decoder.  When the
    source is set up, the image has the magic bytes and a section named
    ".staticx.archive", the first of that name; the input starts at that
    section's offset, unread, with the section's size as its length, and
    no output buffer yet.  The size is not compared with the mapping: the
    bytes there are to read are the section's size or what the mapping
    holds from the offset on, whichever is less.  A fatal end has status 2
    and comes from bad magic bytes, from a missing section, or from the
    section lookup. *)
Theorem archive_source_spec (ehdr : image) :
  (forall b, archive_source ehdr = Ok b ->
     elf_is_valid ehdr = Ok true
     /\ exists shdr off,
          elf_get_section_by_name ehdr ARCHIVE_SECTION = Ok (Some shdr)
          /\ sh_offset ehdr shdr = Ok off
          /\ sh_size ehdr shdr = Ok (in_size b)
          /\ in_buf b = tail_at ehdr off
          /\ in_pos b = 0
          /\ (out_buf b = [] /\ out_pos b = 0 /\ out_size b = 0)
          /\ input_left b
             = firstn (Z.to_nat (in_size b)) (tail_at ehdr off)
          /\ (0 <= off <= size ehdr -> 0 <= in_size b ->
              size (input_left b) = Z.min (in_size b) (size ehdr - off)))
  /\ (forall s, archive_source ehdr = Fatal s ->
        s = 2
        /\ (elf_is_valid ehdr = Ok false
            \/ elf_get_section_by_name ehdr ARCHIVE_SECTION = Ok None
            \/ elf_get_section_by_name ehdr ARCHIVE_SECTION = Fatal 2))
  /\ (elf_is_valid ehdr = Ok false -> archive_source ehdr = Fatal 2)
  /\ (elf_is_valid ehdr = Ok true ->
      elf_get_section_by_name ehdr ARCHIVE_SECTION = Ok None ->
      archive_source ehdr = Fatal 2).
Proof.
  unfold archive_source.
  split; [|split; [|split]].
  - intros b.
    destruct (elf_is_valid ehdr) as [[|]| |]; cbn [rbind negb];
      try discriminate.
    destruct (elf_get_section_by_name ehdr ARCHIVE_SECTION)
      as [[shdr|]| |]; cbn [rbind]; try discriminate.
    destruct (sh_size ehdr shdr) as [sz| |] eqn:Esz; cbn [rbind];
      try discriminate.
    destruct (sh_offset ehdr shdr) as [off| |] eqn:Eoff; cbn [rbind];
      try discriminate.
    intros [= <-]. split; [reflexivity|]. exists shdr, off.
    cbn [in_size in_buf in_pos out_buf out_pos out_size]. unfold ptr_add.
    change (0 + off) with off.
    assert (input_left
              {| in_buf := tail_at ehdr off; in_pos := 0; in_size := sz;
                 out_buf := []; out_pos := 0; out_size := 0 |}
            = firstn (Z.to_nat sz) (tail_at ehdr off)) as Hleft.
    { unfold input_left. cbn [in_size in_buf in_pos].
      rewrite Z.sub_0_r. unfold tail_at at 1. reflexivity. }
    split; [reflexivity|]. split; [exact Eoff|]. split; [exact Esz|].
    split; [reflexivity|]. split; [reflexivity|].
    split; [repeat split|].
    split; [exact Hleft|].
    intros Hoff Hsz. rewrite Hleft. unfold size, tail_at in *.
    replace (off <? 0) with false by lia.
    rewrite length_firstn, length_skipn. lia.
  - intros s.
    destruct (elf_is_valid ehdr) as [[|]| |] eqn:Evalid; cbn [rbind negb].
    + destruct (elf_get_section_by_name ehdr ARCHIVE_SECTION)
        as [[shdr|]|s'|] eqn:Esec; cbn [rbind]; try discriminate.
      * destruct (sh_size ehdr shdr) as [sz| |] eqn:Esz; cbn [rbind];
          [|intros H; exfalso; exact (load_not_fatal _ _ _ _ Esz)
           |discriminate].
        destruct (sh_offset ehdr shdr) as [off| |] eqn:Eoff; cbn [rbind];
          [discriminate|intros H; exfalso; exact (load_not_fatal _ _ _ _ Eoff)
           |discriminate].
      * intros [= <-]. split; [reflexivity|]. right; left. reflexivity.
      * intros [= <-]. unfold elf_get_section_by_name in Esec.
        pose proof (elf_get_section_fatal _ _ _ _ Esec) as ->.
        split; [reflexivity|]. right; right. reflexivity.
    + intros [= <-]. split; [reflexivity|]. left. reflexivity.
    + intros H. exfalso. exact (elf_is_valid_not_fatal _ _ Evalid).
    + discriminate.
  - intros ->. reflexivity.
  - intros -> ->. reflexivity.
Qed.

Lemma archive_source_spec_witness :
  archive_source self_image
  = Ok (mk_xz_buf (tail_at self_image 284) 0 5 [] 0 0)
  /\ input_left (mk_xz_buf (tail_at self_image 284) 0 5 [] 0 0)
     = [1; 2; 3; 4; 5]
  /\ archive_source target_image = Fatal 2.
Proof.
  split; [reflexivity|]. split; [reflexivity|].
  apply (proj2 (proj2 (proj2 (archive_source_spec target_image))));
    reflexivity.
Defined.
